(** * swaylock: the session-lock client of main.c

    A shallow embedding of [main.c]: the colour parser, the listeners the
    program registers with the display server, the callbacks of its event
    loop and the part of [main] that negotiates the lock, reports readiness
    and unlocks; then the images, the options, the configuration file and
    the part of [main] that reads them.  The program is single threaded;
    its interaction with the outside (events delivered by the server,
    requests sent to it, system calls) is recorded in a log, newest entry
    first. *)

From Stdlib Require Import ZArith List String Ascii Bool Lia.
Import ListNotations.
Local Open Scope string_scope.
Local Open Scope list_scope.
Local Open Scope Z_scope.

(** ** Machine integers *)

Definition UINT32_MOD : Z := 2 ^ 32.
Definition ULONG_MAX : Z := 2 ^ 64 - 1.

(** Conversion to [uint32_t]. *)
Definition to_uint32 (z : Z) : Z := z mod UINT32_MOD.

(** Upper end of [int].  The failed-attempt counter is declared in
    [swaylock.h], which is not part of [main.c]; it is taken to be an
    [int], whose overflow is undefined. *)
Definition INT_MAX : Z := 2147483647.

Definition EXIT_SUCCESS : Z := 0.
Definition EXIT_FAILURE : Z := 1.

(** ** parse_color *)

Module Color.

(** [isspace] in the C locale. *)
Definition isspace (c : ascii) : bool :=
  let n := nat_of_ascii c in
  Nat.eqb n 32 || (Nat.leb 9 n && Nat.leb n 13).

(** Value of a base-16 digit, if [c] is one. *)
Definition hex_digit (c : ascii) : option Z :=
  let n := Z.of_nat (nat_of_ascii c) in
  if (48 <=? n) && (n <=? 57) then Some (n - 48)
  else if (97 <=? n) && (n <=? 102) then Some (n - 87)
  else if (65 <=? n) && (n <=? 70) then Some (n - 55)
  else None.

Fixpoint skip_space (s : string) : string :=
  match s with
  | String c s' => if isspace c then skip_space s' else s
  | EmptyString => s
  end.

(** The digit loop of [strtoul]: it consumes digits as long as there are
    some; the accumulator is clamped by the caller. *)
Fixpoint strtoul_digits (acc : Z) (s : string) : Z :=
  match s with
  | String c s' =>
      match hex_digit c with
      | Some d => strtoul_digits (acc * 16 + d) s'
      | None => acc
      end
  | EmptyString => acc
  end.

(** After the sign, [0x] or [0X] is skipped when a digit follows it. *)
Definition skip_0x (s : string) : string :=
  match s with
  | String "0" (String x (String d rest)) =>
      if (Ascii.eqb x "x" || Ascii.eqb x "X")%bool then
        match hex_digit d with
        | Some _ => String d rest
        | None => s
        end
      else s
  | _ => s
  end.

(** [strtoul(s, NULL, 16)] with a 64-bit [unsigned long]: white space, an
    optional sign, an optional [0x], digits; an overflowing number gives
    [ULONG_MAX], a minus sign negates within [unsigned long]. *)
Definition strtoul16 (s : string) : Z :=
  let s := skip_space s in
  let '(neg, s) :=
    match s with
    | String "-" s' => (true, s')
    | String "+" s' => (false, s')
    | _ => (false, s)
    end in
  let v := strtoul_digits 0 (skip_0x s) in
  if ULONG_MAX <? v then ULONG_MAX
  else if neg then (- v) mod (ULONG_MAX + 1) else v.

(** [if (color[0] == '#') ++color;] *)
Definition strip_hash (color : string) : string :=
  match color with
  | String "#" rest => rest
  | _ => color
  end.

Definition parse_color (color : string) : Z :=
  let color := strip_hash color in
  let len := String.length color in
  if (negb (Nat.eqb len 6) && negb (Nat.eqb len 8))%bool then
    0xFFFFFFFF
  else
    let res := to_uint32 (strtoul16 color) in
    if Nat.eqb (String.length color) 6 then
      Z.lor (to_uint32 (Z.shiftl res 8)) 0xFF
    else res.

(** The stripped string carries a minus sign where [strtoul] looks for one. *)
Definition minus_signed (s : string) : bool :=
  match skip_space s with
  | String "-" _ => true
  | _ => false
  end.

End Color.

(** ** Program state *)

(** Scaling modes of [background-image.h]. *)
Inductive background_mode :=
| BACKGROUND_MODE_STRETCH
| BACKGROUND_MODE_FILL
| BACKGROUND_MODE_FIT
| BACKGROUND_MODE_CENTER
| BACKGROUND_MODE_TILE
| BACKGROUND_MODE_SOLID_COLOR
| BACKGROUND_MODE_INVALID.

Definition background_mode_eqb (a b : background_mode) : bool :=
  match a, b with
  | BACKGROUND_MODE_STRETCH, BACKGROUND_MODE_STRETCH
  | BACKGROUND_MODE_FILL, BACKGROUND_MODE_FILL
  | BACKGROUND_MODE_FIT, BACKGROUND_MODE_FIT
  | BACKGROUND_MODE_CENTER, BACKGROUND_MODE_CENTER
  | BACKGROUND_MODE_TILE, BACKGROUND_MODE_TILE
  | BACKGROUND_MODE_SOLID_COLOR, BACKGROUND_MODE_SOLID_COLOR
  | BACKGROUND_MODE_INVALID, BACKGROUND_MODE_INVALID => true
  | _, _ => false
  end.

Inductive auth_state :=
| AUTH_STATE_IDLE
| AUTH_STATE_VALIDATING
| AUTH_STATE_INVALID.

(** A loaded image: the output it is meant for and whether its cairo
    content is [CAIRO_CONTENT_COLOR]. *)
Record swaylock_image := {
  image_output_name : option string;
  image_opaque : bool
}.

(** The fields of [struct swaylock_args] that the modelled code reads. *)
Record swaylock_args := {
  mode : background_mode;
  background : Z;
  ignore_empty : bool;
  show_failed_attempts : bool;
  daemonize_flag : bool;
  ready_fd : Z
}.

(** [struct swaylock_surface]; a proxy pointer is [true] when not NULL. *)
Record swaylock_surface := {
  output_global_name : Z;
  output_name : option string;
  image : option swaylock_image;
  wl_surface : bool;
  child : bool;
  subsurface : bool;
  ext_session_lock_surface_v1 : bool;
  created : bool;
  dirty : bool;
  width : Z;
  height : Z;
  scale : Z;
  subpixel : Z
}.

(** What [calloc] followed by the assignments of [handle_global] gives. *)
Definition new_surface (name : Z) : swaylock_surface :=
  {| output_global_name := name; output_name := None; image := None;
     wl_surface := false; child := false; subsurface := false;
     ext_session_lock_surface_v1 := false; created := false; dirty := false;
     width := 0; height := 0; scale := 0; subpixel := 0 |}.

Definition set_subpixel (v : Z) (s : swaylock_surface) : swaylock_surface :=
  {| output_global_name := output_global_name s; output_name := output_name s;
     image := image s; wl_surface := wl_surface s; child := child s;
     subsurface := subsurface s;
     ext_session_lock_surface_v1 := ext_session_lock_surface_v1 s;
     created := created s; dirty := dirty s; width := width s;
     height := height s; scale := scale s; subpixel := v |}.

Definition set_scale (v : Z) (s : swaylock_surface) : swaylock_surface :=
  {| output_global_name := output_global_name s; output_name := output_name s;
     image := image s; wl_surface := wl_surface s; child := child s;
     subsurface := subsurface s;
     ext_session_lock_surface_v1 := ext_session_lock_surface_v1 s;
     created := created s; dirty := dirty s; width := width s;
     height := height s; scale := v; subpixel := subpixel s |}.

Definition set_output_name (n : string) (s : swaylock_surface)
  : swaylock_surface :=
  {| output_global_name := output_global_name s; output_name := Some n;
     image := image s; wl_surface := wl_surface s; child := child s;
     subsurface := subsurface s;
     ext_session_lock_surface_v1 := ext_session_lock_surface_v1 s;
     created := created s; dirty := dirty s; width := width s;
     height := height s; scale := scale s; subpixel := subpixel s |}.

Definition set_size (w h : Z) (s : swaylock_surface) : swaylock_surface :=
  {| output_global_name := output_global_name s; output_name := output_name s;
     image := image s; wl_surface := wl_surface s; child := child s;
     subsurface := subsurface s;
     ext_session_lock_surface_v1 := ext_session_lock_surface_v1 s;
     created := created s; dirty := dirty s; width := w;
     height := h; scale := scale s; subpixel := subpixel s |}.

Definition set_dirty (b : bool) (s : swaylock_surface) : swaylock_surface :=
  {| output_global_name := output_global_name s; output_name := output_name s;
     image := image s; wl_surface := wl_surface s; child := child s;
     subsurface := subsurface s;
     ext_session_lock_surface_v1 := ext_session_lock_surface_v1 s;
     created := created s; dirty := b; width := width s;
     height := height s; scale := scale s; subpixel := subpixel s |}.

(** The assignments of [create_surface]. *)
Definition set_created (img : option swaylock_image) (s : swaylock_surface)
  : swaylock_surface :=
  {| output_global_name := output_global_name s; output_name := output_name s;
     image := img; wl_surface := true; child := true; subsurface := true;
     ext_session_lock_surface_v1 := true;
     created := true; dirty := dirty s; width := width s;
     height := height s; scale := scale s; subpixel := subpixel s |}.

(** A surface is known by its address; an address is never handed out
    twice, so it also names the output the surface was allocated for. *)
Definition ptr := nat.

(** The fields of [struct swaylock_state] that [main.c] works on.  The
    list of surfaces is the [wl_list], first element first. *)
Record swaylock_state := {
  surfaces : list (ptr * swaylock_surface);
  images : list swaylock_image;
  args : swaylock_args;
  password : string;
  compositor : bool;
  subcompositor : bool;
  shm : bool;
  ext_session_lock_manager_v1 : bool;
  ext_session_lock_v1 : bool;
  auth : auth_state;
  failed_attempts : Z;
  run_display : bool;
  locked : bool
}.

(** The boolean fields, and the assignment of one of them. *)
Inductive field :=
| F_compositor | F_subcompositor | F_shm | F_lock_manager | F_lock
| F_run_display | F_locked.

Definition set_flag (f : field) (b : bool) (s : swaylock_state)
  : swaylock_state :=
  let pick (g old : bool) := if g then b else old in
  {| surfaces := surfaces s; images := images s; args := args s;
     password := password s;
     compositor :=
       pick (match f with F_compositor => true | _ => false end) (compositor s);
     subcompositor :=
       pick (match f with F_subcompositor => true | _ => false end)
            (subcompositor s);
     shm := pick (match f with F_shm => true | _ => false end) (shm s);
     ext_session_lock_manager_v1 :=
       pick (match f with F_lock_manager => true | _ => false end)
            (ext_session_lock_manager_v1 s);
     ext_session_lock_v1 :=
       pick (match f with F_lock => true | _ => false end)
            (ext_session_lock_v1 s);
     auth := auth s; failed_attempts := failed_attempts s;
     run_display :=
       pick (match f with F_run_display => true | _ => false end)
            (run_display s);
     locked :=
       pick (match f with F_locked => true | _ => false end) (locked s) |}.

Definition set_surfaces (l : list (ptr * swaylock_surface))
  (s : swaylock_state) : swaylock_state :=
  {| surfaces := l; images := images s; args := args s;
     password := password s; compositor := compositor s;
     subcompositor := subcompositor s; shm := shm s;
     ext_session_lock_manager_v1 := ext_session_lock_manager_v1 s;
     ext_session_lock_v1 := ext_session_lock_v1 s;
     auth := auth s; failed_attempts := failed_attempts s;
     run_display := run_display s; locked := locked s |}.

Definition set_auth (a : auth_state) (s : swaylock_state) : swaylock_state :=
  {| surfaces := surfaces s; images := images s; args := args s;
     password := password s; compositor := compositor s;
     subcompositor := subcompositor s; shm := shm s;
     ext_session_lock_manager_v1 := ext_session_lock_manager_v1 s;
     ext_session_lock_v1 := ext_session_lock_v1 s;
     auth := a; failed_attempts := failed_attempts s;
     run_display := run_display s; locked := locked s |}.

Definition set_failed_attempts (n : Z) (s : swaylock_state) : swaylock_state :=
  {| surfaces := surfaces s; images := images s; args := args s;
     password := password s; compositor := compositor s;
     subcompositor := subcompositor s; shm := shm s;
     ext_session_lock_manager_v1 := ext_session_lock_manager_v1 s;
     ext_session_lock_v1 := ext_session_lock_v1 s;
     auth := auth s; failed_attempts := n;
     run_display := run_display s; locked := locked s |}.

Definition set_ready_fd (fd : Z) (s : swaylock_state) : swaylock_state :=
  {| surfaces := surfaces s; images := images s;
     args := {| mode := mode (args s); background := background (args s);
                ignore_empty := ignore_empty (args s);
                show_failed_attempts := show_failed_attempts (args s);
                daemonize_flag := daemonize_flag (args s);
                ready_fd := fd |};
     password := password s; compositor := compositor s;
     subcompositor := subcompositor s; shm := shm s;
     ext_session_lock_manager_v1 := ext_session_lock_manager_v1 s;
     ext_session_lock_v1 := ext_session_lock_v1 s;
     auth := auth s; failed_attempts := failed_attempts s;
     run_display := run_display s; locked := locked s |}.

(** ** Events, requests and the log *)

(** What the display server can send.  An output or lock-surface event
    names the surface whose listener data it carries. *)
Inductive event :=
| EvGlobal (name : Z) (interface : string)
| EvGlobalRemove (name : Z)
| EvOutputGeometry (o : ptr) (subpixel : Z)
| EvOutputMode (o : ptr)
| EvOutputDone (o : ptr)
| EvOutputScale (o : ptr) (factor : Z)
| EvOutputName (o : ptr) (name : string)
| EvOutputDescription (o : ptr)
| EvLocked
| EvFinished
| EvConfigure (o : ptr) (serial width height : Z).

(** A return value of [wl_display_dispatch] or [wl_display_roundtrip]:
    -1, or the events handed to the listeners. *)
Inductive dispatch :=
| DispatchError
| Dispatch (evs : list event).

(** A callback of the event loop that poll found ready, with what it will
    read: the events on the display socket, or the poll mask and the
    result of [read_comm_reply] ([None] when it returns false). *)
Inductive ready :=
| DisplayIn (d : dispatch)
| CommIn (mask : Z) (reply : option bool)
| TermIn.

(** The three callbacks [main] registers with the event loop. *)
Inductive callback :=
| display_in_cb
| comm_in_cb
| term_in_cb.

Inductive action :=
| Recv (e : event)
| Ready (r : ready)
| BindOutput (p : ptr) (name : Z)
| BindSeat (name : Z)
| CreateSurface (p : ptr)
| GetLockSurface (p : ptr)
| SetOpaqueRegion (p : ptr)
| AckConfigure (p : ptr) (serial : Z)
| Render (p : ptr) (s : swaylock_surface)
| DestroyLockSurface (p : ptr)
| DestroySubsurface (p : ptr)
| DestroyChild (p : ptr)
| DestroyWlSurface (p : ptr)
| ReleaseOutput (p : ptr)
| Free (p : ptr)
| LockRequest
| UnlockAndDestroy
| Roundtrip
| DispatchFailed
| Flush (fatal : bool)
| WriteFd (fd : Z) (data : string) (ret : Z)
| CloseFd (fd : Z)
| Daemonize
| LoopAddFd (cb : callback)
| ScheduleAuthIdle.

(** The program state, the next free address and the log, newest first. *)
Record world := {
  st : swaylock_state;
  next_ptr : ptr;
  log : list action
}.

Inductive halt :=
| Exited (code : Z)
| Undefined
| Waiting.

Inductive result (A : Type) :=
| Go (a : A) (w : world)
| Halt (h : halt) (w : world).
Arguments Go {A} a w.
Arguments Halt {A} h w.

Definition M (A : Type) : Type := world -> result A.

Definition ret {A} (a : A) : M A := fun w => Go a w.

Definition bind {A B} (m : M A) (k : A -> M B) : M B :=
  fun w => match m w with
           | Go a w' => k a w'
           | Halt h w' => Halt h w'
           end.

Notation "x <- m ;; k" := (bind m (fun x => k))
  (at level 61, m at next level, right associativity).
Notation "m ;; k" := (bind m (fun _ => k))
  (at level 61, right associativity).

Definition get : M swaylock_state := fun w => Go (st w) w.

Definition modify (f : swaylock_state -> swaylock_state) : M unit :=
  fun w => Go tt {| st := f (st w); next_ptr := next_ptr w; log := log w |}.

Definition emit (a : action) : M unit :=
  fun w => Go tt {| st := st w; next_ptr := next_ptr w; log := a :: log w |}.

Definition exit {A} (code : Z) : M A := fun w => Halt (Exited code) w.

Definition stop {A} (h : halt) : M A := fun w => Halt h w.

(** [calloc]: a fresh address. *)
Definition alloc : M ptr :=
  fun w => Go (next_ptr w)
              {| st := st w; next_ptr := S (next_ptr w); log := log w |}.

Definition when (b : bool) (m : M unit) : M unit := if b then m else ret tt.

Definition guard (b : bool) (code : Z) : M unit :=
  if b then ret tt else exit code.

(** ** The surface list *)

Fixpoint find_surface (p : ptr) (l : list (ptr * swaylock_surface))
  : option swaylock_surface :=
  match l with
  | [] => None
  | (q, s) :: l' => if Nat.eqb q p then Some s else find_surface p l'
  end.

Fixpoint update_surface (p : ptr) (f : swaylock_surface -> swaylock_surface)
  (l : list (ptr * swaylock_surface)) : list (ptr * swaylock_surface) :=
  match l with
  | [] => []
  | (q, s) :: l' =>
      if Nat.eqb q p then (q, f s) :: l' else (q, s) :: update_surface p f l'
  end.

(** [wl_list_remove(&surface->link)] *)
Fixpoint remove_surface (p : ptr) (l : list (ptr * swaylock_surface))
  : list (ptr * swaylock_surface) :=
  match l with
  | [] => []
  | (q, s) :: l' => if Nat.eqb q p then l' else (q, s) :: remove_surface p l'
  end.

(** The first surface of the list bound to the global [name]. *)
Fixpoint find_output (name : Z) (l : list (ptr * swaylock_surface))
  : option ptr :=
  match l with
  | [] => None
  | (q, s) :: l' =>
      if output_global_name s =? name then Some q else find_output name l'
  end.

(** ** Image selection *)

Definition strcmp (a b : string) : Z :=
  match String.compare a b with
  | Eq => 0
  | Lt => -1
  | Gt => 1
  end.

Definition lenient_strcmp (a b : option string) : Z :=
  match a, b with
  | None, None => 0
  | None, Some _ => -1
  | Some _, None => 1
  | Some x, Some y => strcmp x y
  end.

Fixpoint select_image_from (default_image : option swaylock_image)
  (imgs : list swaylock_image) (name : option string)
  : option swaylock_image :=
  match imgs with
  | [] => default_image
  | i :: imgs' =>
      if lenient_strcmp (image_output_name i) name =? 0 then Some i
      else match image_output_name i with
           | None => select_image_from (Some i) imgs' name
           | Some _ => select_image_from default_image imgs' name
           end
  end.

Definition select_image (s : swaylock_state) (sf : swaylock_surface)
  : option swaylock_image :=
  select_image_from None (images s) (output_name sf).

Definition surface_is_opaque (s : swaylock_state) (sf : swaylock_surface)
  : bool :=
  match image sf with
  | Some i => image_opaque i
  | None => Z.land (background (args s)) 0xff =? 0xff
  end.

(** ** poll.h *)

Definition POLLIN : Z := 0x001.
Definition POLLERR : Z := 0x008.
Definition POLLHUP : Z := 0x010.

(** ** What the environment decides *)

(** How [daemonize] goes for the process that is followed: [pipe] fails,
    or it is the child (with the results of [chdir] and of its [write]),
    or it is the parent (which exits, with the byte it read). *)
Inductive daemon_result :=
| DaemonPipeFails
| DaemonChild (chdir_ok write_ok : bool)
| DaemonParent (success : bool).

(** One turn of the event loop: whether [wl_display_flush] fails for
    good, and the callbacks that [loop_poll] then finds ready. *)
Record iteration := {
  flush_fatal : bool;
  ready_fds : list ready
}.

Record env := {
  connect_ok : bool;
  globals : dispatch;
  lock_reply : dispatch;
  lock_wait : list dispatch;
  ready_write : Z;
  daemon : daemon_result;
  polls : list iteration;
  last_roundtrip : dispatch
}.

Definition newline : string := String (ascii_of_nat 10) EmptyString.

Definition initial_state (a : swaylock_args) (imgs : list swaylock_image)
  : swaylock_state :=
  {| surfaces := []; images := imgs; args := a; password := "";
     compositor := false; subcompositor := false; shm := false;
     ext_session_lock_manager_v1 := false; ext_session_lock_v1 := false;
     auth := AUTH_STATE_IDLE; failed_attempts := 0;
     run_display := false; locked := false |}.

Definition initial_world (a : swaylock_args) (imgs : list swaylock_image)
  : world :=
  {| st := initial_state a imgs; next_ptr := O; log := [] |}.

(** ** Listeners, callbacks and main *)

Section Session.

(** [render] belongs to [render.c], which is not part of [main.c]: it
    draws the surface it is given.  Of the fields modelled here it may
    consume the [dirty] flag; the flag it leaves behind is this function of
    the state and the surface, a parameter of everything below. *)
Variable render_dirty : swaylock_state -> swaylock_surface -> bool.

(** Dereferencing a surface pointer; a freed one is undefined. *)
Definition surface_at (p : ptr) : M swaylock_surface :=
  s <- get ;;
  match find_surface p (surfaces s) with
  | Some sf => ret sf
  | None => stop Undefined
  end.

Definition with_surface (p : ptr)
  (f : swaylock_surface -> swaylock_surface) : M unit :=
  modify (fun s => set_surfaces (update_surface p f (surfaces s)) s).

Definition render (p : ptr) : M unit :=
  sf <- surface_at p ;;
  s <- get ;;
  emit (Render p sf) ;;
  with_surface p (set_dirty (render_dirty s sf)).

Definition destroy_surface (p : ptr) : M unit :=
  sf <- surface_at p ;;
  modify (fun s => set_surfaces (remove_surface p (surfaces s)) s) ;;
  when (ext_session_lock_surface_v1 sf) (emit (DestroyLockSurface p)) ;;
  when (subsurface sf) (emit (DestroySubsurface p)) ;;
  when (child sf) (emit (DestroyChild p)) ;;
  when (wl_surface sf) (emit (DestroyWlSurface p)) ;;
  emit (ReleaseOutput p) ;;
  emit (Free p).

Definition create_surface (p : ptr) : M unit :=
  sf <- surface_at p ;;
  s <- get ;;
  let img := select_image s sf in
  emit (CreateSurface p) ;;
  emit (GetLockSurface p) ;;
  when (surface_is_opaque s (set_created img sf)
        && negb (background_mode_eqb (mode (args s)) BACKGROUND_MODE_CENTER)
        && negb (background_mode_eqb (mode (args s)) BACKGROUND_MODE_FIT))
       (emit (SetOpaqueRegion p)) ;;
  with_surface p (set_created img).

Definition ext_session_lock_surface_v1_handle_configure (p : ptr)
  (serial width height : Z) : M unit :=
  with_surface p (set_size width height) ;;
  emit (AckConfigure p serial) ;;
  with_surface p (set_dirty true) ;;
  render p.

Fixpoint damage_each (ps : list ptr) : M unit :=
  match ps with
  | [] => ret tt
  | p :: ps' =>
      with_surface p (set_dirty true) ;;
      render p ;;
      damage_each ps'
  end.

Definition damage_state : M unit :=
  s <- get ;;
  damage_each (map fst (surfaces s)).

Definition handle_wl_output_geometry (p : ptr) (subpixel : Z) : M unit :=
  with_surface p (set_subpixel subpixel) ;;
  s <- get ;;
  when (run_display s) (with_surface p (set_dirty true) ;; render p).

Definition handle_wl_output_mode (p : ptr) : M unit := ret tt.

Definition handle_wl_output_done (p : ptr) : M unit :=
  sf <- surface_at p ;;
  s <- get ;;
  when (negb (created sf) && run_display s) (create_surface p).

Definition handle_wl_output_scale (p : ptr) (factor : Z) : M unit :=
  with_surface p (set_scale factor) ;;
  s <- get ;;
  when (run_display s) (with_surface p (set_dirty true) ;; render p).

Definition handle_wl_output_name (p : ptr) (name : string) : M unit :=
  with_surface p (set_output_name name).

Definition handle_wl_output_description (p : ptr) : M unit := ret tt.

Definition ext_session_lock_v1_handle_locked : M unit :=
  modify (set_flag F_locked true).

Definition ext_session_lock_v1_handle_finished : M unit :=
  exit 2.

Definition handle_global (name : Z) (interface : string) : M unit :=
  if String.eqb interface "wl_compositor" then
    modify (set_flag F_compositor true)
  else if String.eqb interface "wl_subcompositor" then
    modify (set_flag F_subcompositor true)
  else if String.eqb interface "wl_shm" then
    modify (set_flag F_shm true)
  else if String.eqb interface "wl_seat" then
    emit (BindSeat name)
  else if String.eqb interface "wl_output" then
    p <- alloc ;;
    emit (BindOutput p name) ;;
    modify (fun s => set_surfaces ((p, new_surface name) :: surfaces s) s)
  else if String.eqb interface "ext_session_lock_manager_v1" then
    modify (set_flag F_lock_manager true)
  else ret tt.

Definition handle_global_remove (name : Z) : M unit :=
  s <- get ;;
  match find_output name (surfaces s) with
  | Some p => destroy_surface p
  | None => ret tt
  end.

(** An event reaches a listener only while the object it is sent on
    exists: the registry always, an output until [wl_output_release], the
    lock until [unlock_and_destroy], a lock surface from
    [get_lock_surface] until it is destroyed. *)
Definition listening (e : event) (s : swaylock_state) : bool :=
  let alive p :=
    match find_surface p (surfaces s) with Some _ => true | None => false end in
  match e with
  | EvGlobal _ _ | EvGlobalRemove _ => true
  | EvOutputGeometry p _ | EvOutputMode p | EvOutputDone p
  | EvOutputScale p _ | EvOutputName p _ | EvOutputDescription p => alive p
  | EvLocked | EvFinished => ext_session_lock_v1 s
  | EvConfigure p _ _ _ =>
      match find_surface p (surfaces s) with
      | Some sf => ext_session_lock_surface_v1 sf
      | None => false
      end
  end.

Definition handle (e : event) : M unit :=
  match e with
  | EvGlobal name interface => handle_global name interface
  | EvGlobalRemove name => handle_global_remove name
  | EvOutputGeometry p subpixel => handle_wl_output_geometry p subpixel
  | EvOutputMode p => handle_wl_output_mode p
  | EvOutputDone p => handle_wl_output_done p
  | EvOutputScale p factor => handle_wl_output_scale p factor
  | EvOutputName p name => handle_wl_output_name p name
  | EvOutputDescription p => handle_wl_output_description p
  | EvLocked => ext_session_lock_v1_handle_locked
  | EvFinished => ext_session_lock_v1_handle_finished
  | EvConfigure p serial w h =>
      ext_session_lock_surface_v1_handle_configure p serial w h
  end.

Definition deliver (e : event) : M unit :=
  s <- get ;;
  when (listening e s) (emit (Recv e) ;; handle e).

Fixpoint dispatch_events (evs : list event) : M unit :=
  match evs with
  | [] => ret tt
  | e :: evs' => deliver e ;; dispatch_events evs'
  end.

(** [wl_display_dispatch(...) != -1] *)
Definition wl_display_dispatch (d : dispatch) : M bool :=
  match d with
  | DispatchError => emit DispatchFailed ;; ret false
  | Dispatch evs => dispatch_events evs ;; ret true
  end.

(** [wl_display_roundtrip(...) != -1] *)
Definition wl_display_roundtrip (d : dispatch) : M bool :=
  emit Roundtrip ;;
  wl_display_dispatch d.

Definition display_in (d : dispatch) : M unit :=
  ok <- wl_display_dispatch d ;;
  when (negb ok) (modify (set_flag F_run_display false)).

(** Modelled from the spec: [schedule_auth_idle] belongs to [password.c],
    which is not part of [main.c].  It arms the timer that ends the display
    of the invalid state; by the data model the SecretBuffer is written
    only by the input collector and by the submit path, so the password is
    out of its reach. *)
Definition schedule_auth_idle : M unit := emit ScheduleAuthIdle.

Definition comm_in (mask : Z) (reply : option bool) : M unit :=
  if negb (Z.land mask POLLIN =? 0) then
    match reply with
    | None => exit EXIT_FAILURE
    | Some auth_success =>
        if auth_success then modify (set_flag F_run_display false)
        else
          modify (set_auth AUTH_STATE_INVALID) ;;
          schedule_auth_idle ;;
          s <- get ;;
          (if failed_attempts s <? INT_MAX
           then modify (set_failed_attempts (failed_attempts s + 1))
           else stop Undefined) ;;
          damage_state
    end
  else if negb (Z.land mask (Z.lor POLLHUP POLLERR) =? 0) then
    exit EXIT_FAILURE
  else ret tt.

Definition term_in : M unit :=
  modify (set_flag F_run_display false).

Definition daemonize (d : daemon_result) : M unit :=
  emit Daemonize ;;
  match d with
  | DaemonPipeFails => exit 1
  | DaemonChild chdir_ok write_ok =>
      if chdir_ok then (if write_ok then ret tt else exit 1) else exit 1
  | DaemonParent success => if success then exit 0 else exit 1
  end.

Definition callback_of (r : ready) : M unit :=
  match r with
  | DisplayIn d => display_in d
  | CommIn mask reply => comm_in mask reply
  | TermIn => term_in
  end.

(** Modelled from the spec: [loop_poll] belongs to [loop.c], which is not
    part of [main.c].  One turn of the loop calls every callback found
    ready once, in the order the readiness call reports them. *)
Fixpoint loop_poll (rs : list ready) : M unit :=
  match rs with
  | [] => ret tt
  | r :: rs' => emit (Ready r) ;; callback_of r ;; loop_poll rs'
  end.

Fixpoint create_each (ps : list ptr) : M unit :=
  match ps with
  | [] => ret tt
  | p :: ps' => create_surface p ;; create_each ps'
  end.

(** [while (!state.locked)]: the process waits when the server sends
    nothing more. *)
Fixpoint wait_locked (ds : list dispatch) : M unit :=
  s <- get ;;
  if locked s then ret tt
  else match ds with
       | [] => stop Waiting
       | d :: ds' =>
           ok <- wl_display_dispatch d ;;
           guard ok 2 ;;
           wait_locked ds'
       end.

(** [while (state.run_display)] *)
Fixpoint event_loop (its : list iteration) : M unit :=
  s <- get ;;
  if run_display s then
    match its with
    | [] => stop Waiting
    | it :: its' =>
        emit (Flush (flush_fatal it)) ;;
        if flush_fatal it then ret tt
        else loop_poll (ready_fds it) ;; event_loop its'
    end
  else ret tt.

Definition notify_ready (ret_write : Z) : M unit :=
  s <- get ;;
  when (0 <=? ready_fd (args s))
    (emit (WriteFd (ready_fd (args s)) newline ret_write) ;;
     guard (ret_write =? 1) 2 ;;
     emit (CloseFd (ready_fd (args s))) ;;
     modify (set_ready_fd (-1))).

(** [main], from [wl_list_init(&state.surfaces)] to its end, in the four
    parts it is written in; returning from [main] ends the process like
    [exit]. *)

(** Connecting, and the globals the program cannot do without. *)
Definition connect (e : env) : M unit :=
  modify (set_surfaces []) ;;
  guard (connect_ok e) EXIT_FAILURE ;;
  ok <- wl_display_roundtrip (globals e) ;;
  guard ok EXIT_FAILURE ;;
  s <- get ;;
  guard (compositor s) 1 ;;
  guard (subcompositor s) 1 ;;
  guard (shm s) 1 ;;
  guard (ext_session_lock_manager_v1 s) 1.

(** Requesting the lock, creating the surfaces of the outputs known so
    far, waiting for the lock. *)
Definition lock_session (e : env) : M unit :=
  emit LockRequest ;;
  modify (set_flag F_lock true) ;;
  ok <- wl_display_roundtrip (lock_reply e) ;;
  guard ok 1 ;;
  s <- get ;;
  create_each (map fst (surfaces s)) ;;
  wait_locked (lock_wait e).

Definition detach (e : env) : M unit :=
  s <- get ;;
  when (daemonize_flag (args s)) (daemonize (daemon e)).

(** Registering the callbacks and running the event loop. *)
Definition serve (e : env) : M unit :=
  emit (LoopAddFd display_in_cb) ;;
  emit (LoopAddFd comm_in_cb) ;;
  emit (LoopAddFd term_in_cb) ;;
  modify (set_flag F_run_display true) ;;
  event_loop (polls e).

Definition unlock (e : env) : M unit :=
  emit UnlockAndDestroy ;;
  modify (set_flag F_lock false) ;;
  wl_display_roundtrip (last_roundtrip e) ;;
  exit 0.

Definition main (e : env) : M unit :=
  connect e ;;
  lock_session e ;;
  notify_ready (ready_write e) ;;
  detach e ;;
  serve e ;;
  unlock e.

Definition run_main (e : env) (a : swaylock_args)
  (imgs : list swaylock_image) : result unit :=
  main e (initial_world a imgs).

End Session.

(** A [render] that always draws, and so leaves no surface dirty. *)
Definition render_draws (_ : swaylock_state) (_ : swaylock_surface) : bool :=
  false.

(** ** Options *)

(** The cases of the [switch] of [parse_options] that set the fields
    modelled in [swaylock_args]; [-R] carries the value of [strtol]. *)
Inductive option_code :=
| Opt_c (color : string)
| Opt_e
| Opt_F
| Opt_f
| Opt_R (fd : Z)
| Opt_t.

(** One turn of the [while] loop; [state] is NULL on the first pass of
    [main] over the command line. *)
Definition parse_option (c : option_code) (state : option swaylock_args)
  : option swaylock_args :=
  match state with
  | None => None
  | Some a =>
      Some
        match c with
        | Opt_c color =>
            {| mode := mode a; background := Color.parse_color color;
               ignore_empty := ignore_empty a;
               show_failed_attempts := show_failed_attempts a;
               daemonize_flag := daemonize_flag a; ready_fd := ready_fd a |}
        | Opt_e =>
            {| mode := mode a; background := background a;
               ignore_empty := true;
               show_failed_attempts := show_failed_attempts a;
               daemonize_flag := daemonize_flag a; ready_fd := ready_fd a |}
        | Opt_F =>
            {| mode := mode a; background := background a;
               ignore_empty := ignore_empty a;
               show_failed_attempts := true;
               daemonize_flag := daemonize_flag a; ready_fd := ready_fd a |}
        | Opt_f =>
            {| mode := mode a; background := background a;
               ignore_empty := ignore_empty a;
               show_failed_attempts := show_failed_attempts a;
               daemonize_flag := true; ready_fd := ready_fd a |}
        | Opt_R fd =>
            {| mode := mode a; background := background a;
               ignore_empty := ignore_empty a;
               show_failed_attempts := show_failed_attempts a;
               daemonize_flag := daemonize_flag a; ready_fd := fd |}
        | Opt_t =>
            {| mode := BACKGROUND_MODE_TILE; background := background a;
               ignore_empty := ignore_empty a;
               show_failed_attempts := show_failed_attempts a;
               daemonize_flag := daemonize_flag a; ready_fd := ready_fd a |}
        end
  end.

Definition parse_options (opts : list option_code)
  (state : option swaylock_args) : option swaylock_args :=
  fold_left (fun st c => parse_option c st) opts state.

(** [main] starts from these arguments ([colors.background] as set by
    [set_default_colors]). *)
Definition default_args : swaylock_args :=
  {| mode := BACKGROUND_MODE_FILL; background := 0xA3A3A3FF;
     ignore_empty := false; show_failed_attempts := false;
     daemonize_flag := false; ready_fd := -1 |}.

(** ** The authentication channel *)

Module AuthChannel.

Inductive channel_state :=
| Idle
| AwaitingVerdict
| ChannelBroken.

Inductive submit_outcome :=
| Sent
| Rejected
| LocalFailure.

(** Modelled from the spec: the framing of a request is left open there
    but for its shape, a length prefix and the payload.  Here: four bytes
    of length, least significant first, then the secret. *)
Definition frame (secret : string) : list Z :=
  let n := Z.of_nat (String.length secret) in
  [n mod 256; (n / 256) mod 256; (n / 65536) mod 256; (n / 16777216) mod 256]
  ++ map (fun c => Z.of_nat (nat_of_ascii c)) (list_ascii_of_string secret).

(** Modelled from the spec: the submit path ([password.c], [comm.c]) is
    not part of [main.c].  An empty secret under [ignore_empty] is
    answered locally with a failure; a submit while a verdict is awaited,
    or on a broken channel, is rejected; otherwise the framed request is
    written to the pipe and the channel awaits the verdict.  The result is
    the new channel state, the outcome and the bytes written. *)
Definition submit (ch : channel_state) (secret : string)
  (ignore_empty : bool) : channel_state * submit_outcome * list Z :=
  if (ignore_empty && Nat.eqb (String.length secret) 0)%bool then
    (ch, LocalFailure, [])
  else
    match ch with
    | Idle => (AwaitingVerdict, Sent, frame secret)
    | AwaitingVerdict => (AwaitingVerdict, Rejected, [])
    | ChannelBroken => (ChannelBroken, Rejected, [])
    end.

End AuthChannel.

(** ** Reading results and logs *)

Definition final {A} (r : result A) : world :=
  match r with
  | Go _ w => w
  | Halt _ w => w
  end.

Definition halted {A} (r : result A) : option halt :=
  match r with
  | Go _ _ => None
  | Halt h _ => Some h
  end.

(** The serials acknowledged on surface [p], newest first. *)
Fixpoint acks_of (p : ptr) (l : list action) : list Z :=
  match l with
  | [] => []
  | AckConfigure q serial :: l' =>
      if Nat.eqb q p then serial :: acks_of p l' else acks_of p l'
  | _ :: l' => acks_of p l'
  end.

(** The serials of the configure events received on [p], newest first. *)
Fixpoint configures_of (p : ptr) (l : list action) : list Z :=
  match l with
  | [] => []
  | Recv (EvConfigure q serial _ _) :: l' =>
      if Nat.eqb q p then serial :: configures_of p l' else configures_of p l'
  | _ :: l' => configures_of p l'
  end.

Definition is_get_lock_surface (p : ptr) (a : action) : bool :=
  match a with
  | GetLockSurface q => Nat.eqb q p
  | _ => false
  end.

Definition is_write (a : action) : bool :=
  match a with
  | WriteFd _ _ _ => true
  | _ => false
  end.




(** The part of a surface list that the protocol depends on: which
    surfaces there are, and for each whether it was created and has its
    lock surface. *)
Definition skeleton (l : list (ptr * swaylock_surface))
  : list (ptr * (bool * bool)) :=
  map (fun ps => (fst ps, (created (snd ps),
                           ext_session_lock_surface_v1 (snd ps)))) l.

(** Two worlds that differ at most in what is drawn and counted: sizes,
    scales, names, dirty flags, the authentication state. *)
Definition cosmetic (w w' : world) : Prop :=
  next_ptr w' = next_ptr w
  /\ skeleton (surfaces (st w')) = skeleton (surfaces (st w))
  /\ locked (st w') = locked (st w)
  /\ ext_session_lock_v1 (st w') = ext_session_lock_v1 (st w)
  /\ run_display (st w') = run_display (st w)
  /\ args (st w') = args (st w)
  /\ password (st w') = password (st w).

(** Actions on which no ordering property below depends. *)
Definition minor (a : action) : bool :=
  match a with
  | Render _ _ | SetOpaqueRegion _ | DestroyLockSurface _
  | DestroySubsurface _ | DestroyChild _ | DestroyWlSurface _
  | ReleaseOutput _ | BindSeat _ | BindOutput _ _ | DispatchFailed
  | ScheduleAuthIdle | Roundtrip | LockRequest => true
  | _ => false
  end.

(** The requests of [destroy_surface] that depend on the surface. *)
Definition destroy_requests (p : ptr) (sf : swaylock_surface) : list action :=
  (if wl_surface sf then [DestroyWlSurface p] else [])
  ++ (if child sf then [DestroyChild p] else [])
  ++ (if subsurface sf then [DestroySubsurface p] else [])
  ++ (if ext_session_lock_surface_v1 sf then [DestroyLockSurface p] else []).

(** A world after some state change and some logged actions. *)
Definition upd (f : swaylock_state -> swaylock_state) (acts : list action)
  (w : world) : world :=
  {| st := f (st w); next_ptr := next_ptr w; log := acts ++ log w |}.

(** Events whose receipt no property below counts. *)
Definition quiet_event (e : event) : bool :=
  match e with
  | EvConfigure _ _ _ _ | EvLocked | EvFinished => false
  | _ => true
  end.

Definition all_minor (acts : list action) : Prop :=
  Forall (fun a => minor a = true) acts.

(** What delivering one event does to a world: the cases of the
    listeners, as relations between the world before and the result. *)
Inductive delivery (w : world) : event -> result unit -> Prop :=
| Dropped e :
    listening e (st w) = false ->
    delivery w e (Go tt w)
| Quiet e w' acts :
    listening e (st w) = true ->
    quiet_event e = true ->
    cosmetic w w' ->
    log w' = acts ++ Recv e :: log w ->
    all_minor acts ->
    delivery w e (Go tt w')
| Configured p serial wd ht sf w' :
    find_surface p (surfaces (st w)) = Some sf ->
    ext_session_lock_surface_v1 sf = true ->
    cosmetic w w' ->
    log w' = Render p (set_dirty true (set_size wd ht sf))
             :: AckConfigure p serial
             :: Recv (EvConfigure p serial wd ht) :: log w ->
    delivery w (EvConfigure p serial wd ht) (Go tt w')
| Created p sf img acts :
    find_surface p (surfaces (st w)) = Some sf ->
    created sf = false ->
    run_display (st w) = true ->
    all_minor acts ->
    delivery w (EvOutputDone p)
      (Go tt (upd (fun s => set_surfaces
                              (update_surface p (set_created img) (surfaces s)) s)
                  (acts ++ [GetLockSurface p; CreateSurface p;
                            Recv (EvOutputDone p)]) w))
| Added name :
    delivery w (EvGlobal name "wl_output")
      (Go tt {| st := set_surfaces
                        ((next_ptr w, new_surface name) :: surfaces (st w))
                        (st w);
                next_ptr := S (next_ptr w);
                log := BindOutput (next_ptr w) name
                       :: Recv (EvGlobal name "wl_output") :: log w |})
| Removed name p sf :
    find_output name (surfaces (st w)) = Some p ->
    find_surface p (surfaces (st w)) = Some sf ->
    delivery w (EvGlobalRemove name)
      (Go tt (upd (fun s => set_surfaces (remove_surface p (surfaces s)) s)
                  (Free p :: ReleaseOutput p
                   :: destroy_requests p sf ++ [Recv (EvGlobalRemove name)])
                  w))
| Locked :
    ext_session_lock_v1 (st w) = true ->
    delivery w EvLocked (Go tt (upd (set_flag F_locked true) [Recv EvLocked] w))
| Finished :
    ext_session_lock_v1 (st w) = true ->
    delivery w EvFinished
      (Halt (Exited 2) (upd (fun s => s) [Recv EvFinished] w)).

(** A computation that, from [w], returns and changes the world only
    cosmetically, logging minor actions. *)
Definition quiet_at {A} (m : M A) (w : world) : Prop :=
  exists a w' acts,
    m w = Go a w' /\ cosmetic w w'
    /\ log w' = acts ++ log w /\ all_minor acts.

(** A change of a surface that keeps what [skeleton] shows. *)
Definition flag_preserving (f : swaylock_surface -> swaylock_surface) : Prop :=
  forall s, created (f s) = created s
            /\ ext_session_lock_surface_v1 (f s)
               = ext_session_lock_surface_v1 s.

(** ** Steps of a run *)

(** Actions of [main] and of the event loop, as opposed to those of the
    listeners. *)
Definition special (a : action) : bool :=
  match a with
  | WriteFd _ _ _ | CloseFd _ | Daemonize | LoopAddFd _ | UnlockAndDestroy
  | Flush _ | Ready _ => true
  | _ => false
  end.

Definition inert (a : action) : bool := (minor a || special a)%bool.


(** Two worlds with the same surfaces, as far as [skeleton] shows, the
    same addresses handed out and the same [locked] flag. *)
Definition frame (w w' : world) : Prop :=
  next_ptr w' = next_ptr w
  /\ skeleton (surfaces (st w')) = skeleton (surfaces (st w))
  /\ locked (st w') = locked (st w).

Section Run.

Variable rd : swaylock_state -> swaylock_surface -> bool.

(** One step of a run: something that leaves the surfaces alone and
    logs actions allowed by [S]; the delivery of an event; the creation
    of a surface by [main] before the event loop is set up. *)
Inductive step (S : action -> bool) (w : world) : world -> Prop :=
| step_other w' acts :
    frame w w' ->
    log w' = acts ++ log w ->
    Forall (fun a => S a = true) acts ->
    step S w w'
| step_deliver e :
    step S w (final (deliver rd e w))
| step_create p sf img acts :
    find_surface p (surfaces (st w)) = Some sf ->
    created sf = false ->
    Forall (fun a => special a = false) (log w) ->
    all_minor acts ->
    step S w (upd (fun s => set_surfaces
                              (update_surface p (set_created img) (surfaces s)) s)
                  (acts ++ [GetLockSurface p; CreateSurface p]) w).

Inductive reach (S : action -> bool) (w : world) : world -> Prop :=
| reach_refl : reach S w w
| reach_step w' w'' : reach S w w' -> step S w' w'' -> reach S w w''.

End Run.

(** ** Invariants of a run *)

(** Addresses in the list are distinct and were handed out. *)
Definition heap_ok (w : world) : Prop :=
  NoDup (map fst (surfaces (st w)))
  /\ forall p, In p (map fst (surfaces (st w))) -> (p < next_ptr w)%nat.

(** Every configure received was acknowledged, with its serial, in order. *)
Definition acks_match (w : world) : Prop :=
  forall p, acks_of p (log w) = configures_of p (log w).

(** A lock surface was requested at most once per surface, and only for
    surfaces that are marked created. *)
Definition created_once (w : world) : Prop :=
  heap_ok w
  /\ forall p,
       (List.length (filter (is_get_lock_surface p) (log w)) <= 1)%nat
       /\ (In (GetLockSurface p) (log w) ->
           (p < next_ptr w)%nat
           /\ forall sf, find_surface p (surfaces (st w)) = Some sf ->
                         created sf = true).

(** Once the event loop is set up, a lock surface is requested only in
    answer to the done event of its output. *)
Fixpoint done_guarded (l : list action) : Prop :=
  match l with
  | [] => True
  | a :: older =>
      match a with
      | GetLockSurface p =>
          In (LoopAddFd display_in_cb) older ->
          exists pre, older = CreateSurface p :: Recv (EvOutputDone p) :: pre
      | _ => True
      end
      /\ done_guarded older
  end.

(** No acknowledgment is logged above the [Free] of its surface. *)
Fixpoint no_ack_after_free (l : list action) : Prop :=
  match l with
  | [] => True
  | a :: older =>
      match a with
      | AckConfigure p _ => ~ In (Free p) older
      | _ => True
      end
      /\ no_ack_after_free older
  end.

Definition freed_gone (w : world) : Prop :=
  heap_ok w
  /\ no_ack_after_free (log w)
  /\ forall p, In (Free p) (log w) ->
               (p < next_ptr w)%nat
               /\ find_surface p (surfaces (st w)) = None.


(** Before the event loop: it does not run, nothing is created, and
    [main] has logged nothing of its later parts. *)
Definition starting (w : world) : Prop :=
  run_display (st w) = false
  /\ Forall (fun x => fst (snd x) = false) (skeleton (surfaces (st w)))
  /\ Forall (fun a => special a = false) (log w).


(** Classes of actions that leave one of the invariants alone. *)
Definition ack_neutral (a : action) : bool :=
  match a with
  | AckConfigure _ _ | Recv (EvConfigure _ _ _ _) => false
  | _ => true
  end.

Definition lock_neutral (a : action) : bool :=
  match a with
  | Recv EvLocked => false
  | _ => true
  end.

Definition create_neutral (a : action) : bool :=
  match a with
  | GetLockSurface _ => false
  | _ => true
  end.

Definition free_neutral (a : action) : bool :=
  match a with
  | AckConfigure _ _ | Free _ => false
  | _ => true
  end.

(** Neutral for all of them. *)
Definition plain (a : action) : bool :=
  (ack_neutral a && lock_neutral a && create_neutral a && free_neutral a)%bool.


Section Sound.

Variable rd : swaylock_state -> swaylock_surface -> bool.

(** [w'] is reached from [w] by steps, with the arguments untouched. *)
Definition sound (S : action -> bool) (w w' : world) : Prop :=
  reach rd S w w' /\ args (st w') = args (st w).

(** The same, for the part of [main] that keeps the starting state. *)
Definition early (S : action -> bool) (w w' : world) : Prop :=
  sound S w w' /\ (starting w -> starting w').

End Sound.

(** [main] up to the moment the lock is held, and from there on. *)
Definition startup (rd : swaylock_state -> swaylock_surface -> bool)
  (e : env) : M unit :=
  connect rd e ;; lock_session rd e.

Definition session (rd : swaylock_state -> swaylock_surface -> bool)
  (e : env) : M unit :=
  detach e ;; serve rd e ;; unlock rd e.

(** What [notify_ready] does, case by case. *)
Definition notified (n : Z) (w : world) : result unit :=
  let fd := ready_fd (args (st w)) in
  if 0 <=? fd then
    if n =? 1 then
      Go tt (upd (set_ready_fd (-1)) [CloseFd fd; WriteFd fd newline n] w)
    else Halt (Exited 2) (upd (fun s => s) [WriteFd fd newline n] w)
  else Go tt w.

(** ** Sample worlds and runs *)

(** The lock was requested and is not granted yet. *)
Definition awaiting_grant : world :=
  upd (set_flag F_lock true) [LockRequest] (initial_world default_args []).

Definition sample_args : swaylock_args :=
  {| mode := BACKGROUND_MODE_FILL; background := 0xA3A3A3FF;
     ignore_empty := false; show_failed_attempts := false;
     daemonize_flag := true; ready_fd := 3 |}.

(** One output at start-up, a second one plugged in while locked, the
    first one unplugged with a configure still on its way, a wrong
    password, then the termination signal. *)
Definition sample_env : env :=
  {| connect_ok := true;
     globals :=
       Dispatch [EvGlobal 1 "wl_compositor"; EvGlobal 2 "wl_subcompositor";
                 EvGlobal 3 "wl_shm";
                 EvGlobal 4 "ext_session_lock_manager_v1";
                 EvGlobal 5 "wl_output"; EvOutputDone 0%nat];
     lock_reply := Dispatch [EvLocked];
     lock_wait := [];
     ready_write := 1;
     daemon := DaemonChild true true;
     polls :=
       [{| flush_fatal := false;
           ready_fds :=
             [DisplayIn
                (Dispatch [EvConfigure 0%nat 11 800 600;
                           EvGlobal 6 "wl_output";
                           EvOutputDone 1%nat; EvOutputDone 1%nat;
                           EvConfigure 1%nat 12 640 480;
                           EvConfigure 0%nat 13 1024 768;
                           EvGlobalRemove 5;
                           EvConfigure 0%nat 14 1 1])] |};
        {| flush_fatal := false;
           ready_fds := [CommIn POLLIN (Some false); TermIn] |}];
     last_roundtrip := Dispatch [] |}.

(** Another locker holds the session: the request is answered with
    [finished]. *)
Definition denied_env : env :=
  {| connect_ok := true;
     globals :=
       Dispatch [EvGlobal 1 "wl_compositor"; EvGlobal 2 "wl_subcompositor";
                 EvGlobal 3 "wl_shm";
                 EvGlobal 4 "ext_session_lock_manager_v1";
                 EvGlobal 5 "wl_output"; EvOutputDone 0%nat];
     lock_reply := Dispatch [EvFinished; EvLocked];
     lock_wait := [Dispatch [EvLocked]];
     ready_write := 1;
     daemon := DaemonChild true true;
     polls := [];
     last_roundtrip := Dispatch [] |}.











(** ** Images given with [-i] *)

Module Images.

(** [strchr(arg, ':')]: the text before the first colon and the text after
    it, if there is a colon. *)
Fixpoint split_colon (arg : string) : option (string * string) :=
  match arg with
  | EmptyString => None
  | String c rest =>
      if Ascii.eqb c ":" then Some (EmptyString, rest)
      else match split_colon rest with
           | Some (before, after) => Some (String c before, after)
           | None => None
           end
  end.

(** The head of [load_image]: the argument is [[<output>]:]<path>; the
    output name is NULL when the separator is missing or comes first. *)
Definition image_arg (arg : string) : option string * string :=
  match split_colon arg with
  | Some (EmptyString, path) => (None, path)
  | Some (output, path) => (Some output, path)
  | None => (None, arg)
  end.

(** The [wl_list_for_each_safe] loop of [load_image]: the first image
    defined for the same output is unlinked, then the loop breaks. *)
Fixpoint remove_image (name : option string) (imgs : list swaylock_image)
  : list swaylock_image :=
  match imgs with
  | [] => []
  | i :: imgs' =>
      if lenient_strcmp (image_output_name i) name =? 0 then imgs'
      else i :: remove_image name imgs'
  end.

(** One turn of the loop [while (strstr(path, "  "))]: [strstr] finds the
    first two adjacent spaces and a backslash is put between them.  [None]
    when [strstr] finds nothing. *)
Fixpoint escape_first (path : string) : option string :=
  match path with
  | EmptyString => None
  | String a tl =>
      match tl with
      | EmptyString => None
      | String b _ =>
          if (Ascii.eqb a " " && Ascii.eqb b " ")%bool
          then Some (String a (String "\" tl))
          else option_map (String a) (escape_first tl)
      end
  end.

(** The loop itself, for at most [fuel] turns. *)
Fixpoint escape_loop (fuel : nat) (path : string) : string :=
  match fuel with
  | O => path
  | S fuel' =>
      match escape_first path with
      | Some path' => escape_loop fuel' path'
      | None => path
      end
  end.

(** A path has fewer pairs of adjacent spaces than characters, and every
    turn removes one pair. *)
Definition escape_double_spaces (path : string) : string :=
  escape_loop (String.length path) path.

(** The second loop of [join_args]: every argument followed by a space. *)
Fixpoint spaced (argv : list string) : string :=
  match argv with
  | [] => EmptyString
  | a :: argv' => a ++ " " ++ spaced argv'
  end.

(** [res[len - 1] = '\0'] *)
Fixpoint drop_last (s : string) : string :=
  match s with
  | EmptyString => EmptyString
  | String c EmptyString => EmptyString
  | String c s' => String c (drop_last s')
  end.

(** [None] when [assert(argc > 0)] fails. *)
Definition join_args (argv : list string) : option string :=
  match argv with
  | [] => None
  | _ => Some (drop_last (spaced argv))
  end.

Section LoadImage.

(** [wordexp]: the words of the expansion, or [None] when it fails. *)
Variable wordexp : string -> option (list string).

(** [load_background_image] of [background-image.c]: NULL, or a surface,
    of which [swaylock_image] keeps the content type. *)
Variable load_background_image : string -> option bool.

Definition expand (path : string) : option string :=
  match wordexp path with
  | Some we_wordv => join_args we_wordv
  | None => Some path
  end.

(** [None] when the assertion of [join_args] fails; an image that cannot
    be loaded is not inserted. *)
Definition load_image (arg : string) (images : list swaylock_image)
  : option (list swaylock_image) :=
  let (output_name, path) := image_arg arg in
  let images := remove_image output_name images in
  match expand (escape_double_spaces path) with
  | None => None
  | Some path =>
      match load_background_image path with
      | None => Some images
      | Some opaque =>
          Some ({| image_output_name := output_name;
                   image_opaque := opaque |} :: images)
      end
  end.

End LoadImage.

(** Every output has at most one image, and there is at most one default
    image. *)
Definition names_unique (imgs : list swaylock_image) : Prop :=
  NoDup (map image_output_name imgs).

(** The image is defined for the output [name]; NULL names the default
    image, and a surface that has not learnt its output's name yet. *)
Definition named (name : option string) (i : swaylock_image) : bool :=
  match image_output_name i, name with
  | Some a, Some b => String.eqb a b
  | None, None => true
  | _, _ => false
  end.

(** The first image defined for [name], else the last default image. *)
Definition image_for (name : option string) (imgs : list swaylock_image)
  : option swaylock_image :=
  match find (named name) imgs with
  | Some i => Some i
  | None => find (named None) (rev imgs)
  end.

(** One left-to-right pass that puts a backslash after every space that is
    followed by a space. *)
Fixpoint escape_pass (path : string) : string :=
  match path with
  | EmptyString => EmptyString
  | String a tl =>
      match tl with
      | EmptyString => path
      | String b _ =>
          if (Ascii.eqb a " " && Ascii.eqb b " ")%bool
          then String a (String "\" (escape_pass tl))
          else String a (escape_pass tl)
      end
  end.

(** Number of places where two spaces are adjacent. *)
Fixpoint double_spaces (path : string) : nat :=
  match path with
  | EmptyString => O
  | String a tl =>
      match tl with
      | EmptyString => O
      | String b _ =>
          if (Ascii.eqb a " " && Ascii.eqb b " ")%bool
          then S (double_spaces tl)
          else double_spaces tl
      end
  end.

End Images.

(** ** Options and the configuration file *)

Module Options.

Inductive line_mode :=
| LM_LINE
| LM_INSIDE
| LM_RING.

(** [struct swaylock_args] in full.  Its fields are grouped by type and
    named by constructors: [cs_] the fields of a [swaylock_colorset],
    [c_] the colours of [swaylock_colors], [b_] the booleans, [n_] the
    numbers. *)
Inductive colorset_field :=
| cs_input
| cs_cleared
| cs_caps_lock
| cs_verifying
| cs_wrong.

Inductive color_field :=
| c_background
| c_bs_highlight
| c_key_highlight
| c_caps_lock_bs_highlight
| c_caps_lock_key_highlight
| c_separator
| c_layout_background
| c_layout_border
| c_layout_text
| c_inside (f : colorset_field)
| c_line (f : colorset_field)
| c_ring (f : colorset_field)
| c_text (f : colorset_field).

Inductive flag_field :=
| b_ignore_empty
| b_show_indicator
| b_show_caps_lock_indicator
| b_show_caps_lock_text
| b_show_keyboard_layout
| b_hide_keyboard_layout
| b_show_failed_attempts
| b_daemonize
| b_indicator_idle_visible
| b_override_indicator_x_position
| b_override_indicator_y_position.

Inductive number_field :=
| n_font_size
| n_radius
| n_thickness
| n_indicator_x_position
| n_indicator_y_position
| n_ready_fd.

Record all_args := {
  arg_mode : background_mode;
  arg_font : string;
  flag : flag_field -> bool;
  number : number_field -> Z;
  color : color_field -> Z
}.

Definition colorset_field_eq_dec (a b : colorset_field) : {a = b} + {a <> b}.
Proof. decide equality. Defined.

Definition color_field_eq_dec (a b : color_field) : {a = b} + {a <> b}.
Proof. decide equality; apply colorset_field_eq_dec. Defined.

Definition flag_field_eq_dec (a b : flag_field) : {a = b} + {a <> b}.
Proof. decide equality. Defined.

Definition number_field_eq_dec (a b : number_field) : {a = b} + {a <> b}.
Proof. decide equality. Defined.

Definition assign_mode (v : background_mode) (a : all_args) : all_args :=
  {| arg_mode := v; arg_font := arg_font a; flag := flag a;
     number := number a; color := color a |}.

Definition assign_font (v : string) (a : all_args) : all_args :=
  {| arg_mode := arg_mode a; arg_font := v; flag := flag a;
     number := number a; color := color a |}.

Definition assign_flag (f : flag_field) (v : bool) (a : all_args)
  : all_args :=
  {| arg_mode := arg_mode a; arg_font := arg_font a;
     flag := fun f' => if flag_field_eq_dec f' f then v else flag a f';
     number := number a; color := color a |}.

Definition assign_number (n : number_field) (v : Z) (a : all_args)
  : all_args :=
  {| arg_mode := arg_mode a; arg_font := arg_font a; flag := flag a;
     number := fun n' => if number_field_eq_dec n' n then v else number a n';
     color := color a |}.

Definition assign_color (k : color_field) (v : Z) (a : all_args)
  : all_args :=
  {| arg_mode := arg_mode a; arg_font := arg_font a; flag := flag a;
     number := number a;
     color := fun k' => if color_field_eq_dec k' k then v else color a k' |}.

(** [colors.line = colors.inside] and [colors.line = colors.ring]. *)
Definition assign_line (from : colorset_field -> color_field) (a : all_args)
  : all_args :=
  {| arg_mode := arg_mode a; arg_font := arg_font a; flag := flag a;
     number := number a;
     color := fun k => match k with
                       | c_line f => color a (from f)
                       | _ => color a k
                       end |}.

Definition set_default_colors (k : color_field) : Z :=
  match k with
  | c_background => 0xA3A3A3FF
  | c_bs_highlight => 0xDB3300FF
  | c_key_highlight => 0x33DB00FF
  | c_caps_lock_bs_highlight => 0xDB3300FF
  | c_caps_lock_key_highlight => 0x33DB00FF
  | c_separator => 0x000000FF
  | c_layout_background => 0x000000C0
  | c_layout_border => 0x00000000
  | c_layout_text => 0xFFFFFFFF
  | c_inside cs_input => 0x000000C0
  | c_inside cs_cleared => 0xE5A445C0
  | c_inside cs_caps_lock => 0x000000C0
  | c_inside cs_verifying => 0x0072FFC0
  | c_inside cs_wrong => 0xFA0000C0
  | c_line _ => 0x000000FF
  | c_ring cs_input => 0x337D00FF
  | c_ring cs_cleared => 0xE5A445FF
  | c_ring cs_caps_lock => 0xE5A445FF
  | c_ring cs_verifying => 0x3300FFFF
  | c_ring cs_wrong => 0x7D3300FF
  | c_text cs_input => 0xE5A445FF
  | c_text cs_cleared => 0x000000FF
  | c_text cs_caps_lock => 0xE5A445FF
  | c_text cs_verifying => 0x000000FF
  | c_text cs_wrong => 0x000000FF
  end.

(** The compound literal of [main]; [daemonize] is not listed there and so
    is zero. *)
Definition initial_args : all_args :=
  {| arg_mode := BACKGROUND_MODE_FILL;
     arg_font := "sans-serif";
     flag := fun f => match f with
                      | b_show_indicator | b_show_caps_lock_text => true
                      | _ => false
                      end;
     number := fun n => match n with
                        | n_radius => 50
                        | n_thickness => 10
                        | n_ready_fd => -1
                        | _ => 0
                        end;
     color := set_default_colors |}.

(** What [getopt_long] returns: an option character (['?'] for what it
    does not know) or the code of a long option, with [optarg]. *)
Inductive long_option_codes :=
| LO_BS_HL_COLOR
| LO_CAPS_LOCK_BS_HL_COLOR
| LO_CAPS_LOCK_KEY_HL_COLOR
| LO_FONT
| LO_FONT_SIZE
| LO_IND_IDLE_VISIBLE
| LO_IND_RADIUS
| LO_IND_X_POSITION
| LO_IND_Y_POSITION
| LO_IND_THICKNESS
| LO_INSIDE_COLOR
| LO_INSIDE_CLEAR_COLOR
| LO_INSIDE_CAPS_LOCK_COLOR
| LO_INSIDE_VER_COLOR
| LO_INSIDE_WRONG_COLOR
| LO_KEY_HL_COLOR
| LO_LAYOUT_TXT_COLOR
| LO_LAYOUT_BG_COLOR
| LO_LAYOUT_BORDER_COLOR
| LO_LINE_COLOR
| LO_LINE_CLEAR_COLOR
| LO_LINE_CAPS_LOCK_COLOR
| LO_LINE_VER_COLOR
| LO_LINE_WRONG_COLOR
| LO_RING_COLOR
| LO_RING_CLEAR_COLOR
| LO_RING_CAPS_LOCK_COLOR
| LO_RING_VER_COLOR
| LO_RING_WRONG_COLOR
| LO_SEP_COLOR
| LO_TEXT_COLOR
| LO_TEXT_CLEAR_COLOR
| LO_TEXT_CAPS_LOCK_COLOR
| LO_TEXT_VER_COLOR
| LO_TEXT_WRONG_COLOR.

Inductive getopt_code :=
| Short (c : ascii)
| Long (o : long_option_codes).

Record getopt_result := {
  opt : getopt_code;
  optarg : string
}.

(** The part of [struct swaylock_state] that the options write. *)
Record option_state := {
  opt_args : all_args;
  opt_images : list swaylock_image
}.

(** The three variables [parse_options] is given pointers to: the global
    [state] and the locals [line_mode] and [config_path] of [main]. *)
Record memory := {
  state : option_state;
  line_mode_var : line_mode;
  config_path_var : option string
}.

(** The pointer arguments of [parse_options]; [false] is NULL. *)
Record pointers := {
  to_state : bool;
  to_line_mode : bool;
  to_config_path : bool
}.

(** How a call ends: it returns, or the process exits, or an assertion
    fails. *)
Inductive ending :=
| Return (result : Z)
| Exit (status : Z)
| Abort.

Definition set_state (s : option_state) (m : memory) : memory :=
  {| state := s; line_mode_var := line_mode_var m;
     config_path_var := config_path_var m |}.

Definition set_line_mode (v : line_mode) (m : memory) : memory :=
  {| state := state m; line_mode_var := v;
     config_path_var := config_path_var m |}.

Definition set_config_path (v : option string) (m : memory) : memory :=
  {| state := state m; line_mode_var := line_mode_var m;
     config_path_var := v |}.

Definition set_args (a : all_args) (s : option_state) : option_state :=
  {| opt_args := a; opt_images := opt_images s |}.

Definition set_images (l : list swaylock_image) (s : option_state)
  : option_state :=
  {| opt_args := opt_args s; opt_images := l |}.

(** [if (state) { state->args... = ...; }] *)
Definition on_args (p : pointers) (f : all_args -> all_args) (m : memory)
  : memory :=
  if to_state p then set_state (set_args (f (opt_args (state m))) (state m)) m
  else m.

(** The cases of the [switch] that assign [parse_color(optarg)]. *)
Definition color_case (c : getopt_code) : option color_field :=
  match c with
  | Short "c" => Some c_background
  | Long LO_BS_HL_COLOR => Some c_bs_highlight
  | Long LO_CAPS_LOCK_BS_HL_COLOR => Some c_caps_lock_bs_highlight
  | Long LO_CAPS_LOCK_KEY_HL_COLOR => Some c_caps_lock_key_highlight
  | Long LO_INSIDE_COLOR => Some (c_inside cs_input)
  | Long LO_INSIDE_CLEAR_COLOR => Some (c_inside cs_cleared)
  | Long LO_INSIDE_CAPS_LOCK_COLOR => Some (c_inside cs_caps_lock)
  | Long LO_INSIDE_VER_COLOR => Some (c_inside cs_verifying)
  | Long LO_INSIDE_WRONG_COLOR => Some (c_inside cs_wrong)
  | Long LO_KEY_HL_COLOR => Some c_key_highlight
  | Long LO_LAYOUT_BG_COLOR => Some c_layout_background
  | Long LO_LAYOUT_BORDER_COLOR => Some c_layout_border
  | Long LO_LAYOUT_TXT_COLOR => Some c_layout_text
  | Long LO_LINE_COLOR => Some (c_line cs_input)
  | Long LO_LINE_CLEAR_COLOR => Some (c_line cs_cleared)
  | Long LO_LINE_CAPS_LOCK_COLOR => Some (c_line cs_caps_lock)
  | Long LO_LINE_VER_COLOR => Some (c_line cs_verifying)
  | Long LO_LINE_WRONG_COLOR => Some (c_line cs_wrong)
  | Long LO_RING_COLOR => Some (c_ring cs_input)
  | Long LO_RING_CLEAR_COLOR => Some (c_ring cs_cleared)
  | Long LO_RING_CAPS_LOCK_COLOR => Some (c_ring cs_caps_lock)
  | Long LO_RING_VER_COLOR => Some (c_ring cs_verifying)
  | Long LO_RING_WRONG_COLOR => Some (c_ring cs_wrong)
  | Long LO_SEP_COLOR => Some c_separator
  | Long LO_TEXT_COLOR => Some (c_text cs_input)
  | Long LO_TEXT_CLEAR_COLOR => Some (c_text cs_cleared)
  | Long LO_TEXT_CAPS_LOCK_COLOR => Some (c_text cs_caps_lock)
  | Long LO_TEXT_VER_COLOR => Some (c_text cs_verifying)
  | Long LO_TEXT_WRONG_COLOR => Some (c_text cs_wrong)
  | _ => None
  end.

(** The cases that assign a constant to one boolean. *)
Definition flag_case (c : getopt_code) : option (flag_field * bool) :=
  match c with
  | Short "e" => Some (b_ignore_empty, true)
  | Short "F" => Some (b_show_failed_attempts, true)
  | Short "f" => Some (b_daemonize, true)
  | Short "k" => Some (b_show_keyboard_layout, true)
  | Short "K" => Some (b_hide_keyboard_layout, true)
  | Short "L" => Some (b_show_caps_lock_text, false)
  | Short "l" => Some (b_show_caps_lock_indicator, true)
  | Short "u" => Some (b_show_indicator, false)
  | Long LO_IND_IDLE_VISIBLE => Some (b_indicator_idle_visible, true)
  | _ => None
  end.

Section Parse.

(** [parse_background_mode] of [background-image.c]. *)
Variable parse_background_mode : string -> background_mode.

(** [strtol(optarg, NULL, base)] and [atoi(optarg)]; the conversion to the
    type of the field is left to them. *)
Variable strtol : string -> Z -> Z.
Variable atoi : string -> Z.

Variable wordexp : string -> option (list string).
Variable load_background_image : string -> option bool.

(** The sequence of results [getopt_long] gives for an argument vector,
    up to the [-1] that ends it. *)
Variable getopt_long : list string -> list getopt_result.

(** One turn of the [while] loop of [parse_options]: the [switch].  The
    second component is [None] after [break], and how the function ends
    otherwise.  [-d] sets the log level only, which is not part of the
    memory; the usage text and the version are printed and not kept. *)
Definition option_case (p : pointers) (r : getopt_result) (m : memory)
  : memory * option ending :=
  match color_case (opt r) with
  | Some k => (on_args p (assign_color k (Color.parse_color (optarg r))) m,
               None)
  | None =>
  match flag_case (opt r) with
  | Some (f, v) => (on_args p (assign_flag f v) m, None)
  | None =>
  match opt r with
  | Short "C" =>
      (if to_config_path p then set_config_path (Some (optarg r)) m else m,
       None)
  | Short "d" => (m, None)
  | Short "R" =>
      (on_args p (assign_number n_ready_fd (strtol (optarg r) 10)) m, None)
  | Short "i" =>
      if to_state p then
        match Images.load_image wordexp load_background_image (optarg r)
                (opt_images (state m)) with
        | Some imgs => (set_state (set_images imgs (state m)) m, None)
        | None => (m, Some Abort)
        end
      else (m, None)
  | Short "n" =>
      (if to_line_mode p then set_line_mode LM_INSIDE m else m, None)
  | Short "r" =>
      (if to_line_mode p then set_line_mode LM_RING m else m, None)
  | Short "s" =>
      if to_state p then
        let v := parse_background_mode (optarg r) in
        (on_args p (assign_mode v) m,
         if background_mode_eqb v BACKGROUND_MODE_INVALID
         then Some (Return 1) else None)
      else (m, None)
  | Short "t" => (on_args p (assign_mode BACKGROUND_MODE_TILE) m, None)
  | Short "v" => (m, Some (Exit EXIT_SUCCESS))
  | Long LO_FONT => (on_args p (assign_font (optarg r)) m, None)
  | Long LO_FONT_SIZE =>
      (on_args p (assign_number n_font_size (atoi (optarg r))) m, None)
  | Long LO_IND_RADIUS =>
      (on_args p (assign_number n_radius (strtol (optarg r) 0)) m, None)
  | Long LO_IND_THICKNESS =>
      (on_args p (assign_number n_thickness (strtol (optarg r) 0)) m, None)
  | Long LO_IND_X_POSITION =>
      (on_args p
         (fun a =>
            assign_number n_indicator_x_position (atoi (optarg r))
              (assign_flag b_override_indicator_x_position true a)) m,
       None)
  | Long LO_IND_Y_POSITION =>
      (on_args p
         (fun a =>
            assign_number n_indicator_y_position (atoi (optarg r))
              (assign_flag b_override_indicator_y_position true a)) m,
       None)
  | _ => (m, Some (Return 1))
  end
  end
  end.

Fixpoint parse_options (p : pointers) (rs : list getopt_result) (m : memory)
  : memory * ending :=
  match rs with
  | [] => (m, Return 0)
  | r :: rs' =>
      match option_case p r m with
      | (m', None) => parse_options p rs' m'
      | (m', Some e) => (m', e)
      end
  end.

(** [if (line[nread - 1] == '\n') line[--nread] = '\0';] *)
Fixpoint chomp (line : string) : string :=
  match line with
  | EmptyString => EmptyString
  | String c EmptyString => if Ascii.eqb c "010" then EmptyString else line
  | String c rest => String c (chomp rest)
  end.

(** [if (!*line || line[0] == '#') continue;] *)
Definition skipped (line : string) : bool :=
  match line with
  | EmptyString => true
  | String c _ => Ascii.eqb c "#"
  end.

(** What the body of a loop does to the loop. *)
Inductive turn :=
| Continue
| Break
| Leave (e : ending).

(** The pointers [load_config] and the second pass of [main] hand to
    [parse_options], and those of the first pass of [main]. *)
Definition to_settings : pointers :=
  {| to_state := true; to_line_mode := true; to_config_path := false |}.

Definition to_path_only : pointers :=
  {| to_state := false; to_line_mode := false; to_config_path := true |}.

(** The body of the [getline] loop of [load_config]. *)
Definition config_line (raw : string) (m : memory) : memory * turn :=
  let line := chomp raw in
  if skipped line then (m, Continue)
  else
    match parse_options to_settings
            (getopt_long ["swaylock"; ("--" ++ line)%string]) m with
    | (m', Return result) =>
        (m', if negb (result =? 0) then Break else Continue)
    | (m', e) => (m', Leave e)
    end.

Fixpoint read_config (lines : list string) (m : memory) : memory * ending :=
  match lines with
  | [] => (m, Return 0)
  | raw :: rest =>
      match config_line raw m with
      | (m', Continue) => read_config rest m'
      | (m', Break) => (m', Return 0)
      | (m', Leave e) => (m', e)
      end
  end.

(** [file] is what [fopen] and [getline] give: NULL, or the lines. *)
Definition load_config (file : option (list string)) (m : memory)
  : memory * ending :=
  match file with
  | None => (m, Return 0)
  | Some lines => read_config lines m
  end.

Variable XDG_CONFIG_HOME : option string.
Variable SYSCONFDIR : string.

(** [access(path, R_OK) != -1] *)
Variable readable : string -> bool.

Variable fopen : string -> option (list string).

Definition file_exists (path : option string) : bool :=
  match path with
  | Some p => readable p
  | None => false
  end.

Definition config_paths : list string :=
  [ "$HOME/.swaylock/config";
    match XDG_CONFIG_HOME with
    | None | Some EmptyString => "$HOME/.config/swaylock/config"
    | Some _ => "$XDG_CONFIG_HOME/swaylock/config"
    end;
    (SYSCONFDIR ++ "/swaylock/config")%string ].

(** The [for] loop of [get_config_path].  The outer [None] stands for
    [strdup(p.we_wordv[0])] with no word, which reads through NULL. *)
Fixpoint first_existing (paths : list string) : option (option string) :=
  match paths with
  | [] => Some None
  | p :: rest =>
      match wordexp p with
      | Some [] => None
      | Some (path :: _) =>
          if file_exists (Some path) then Some (Some path)
          else first_existing rest
      | None => first_existing rest
      end
  end.

Definition get_config_path : option (option string) :=
  first_existing config_paths.

(** The end of the option handling of [main]. *)
Definition apply_line_mode (m : memory) : option_state :=
  match line_mode_var m with
  | LM_INSIDE => set_args (assign_line c_inside (opt_args (state m))) (state m)
  | LM_RING => set_args (assign_line c_ring (opt_args (state m))) (state m)
  | LM_LINE => state m
  end.

Definition initial_memory : memory :=
  {| state := {| opt_args := initial_args; opt_images := [] |};
     line_mode_var := LM_LINE;
     config_path_var := None |}.

(** What the option handling of [main] comes to: [main] goes on with a
    state, or has ended. *)
Inductive configured :=
| Configured (s : option_state)
| Ended (e : ending).

(** [if (result != 0) return result;] after a call. *)
Definition checked (r : memory * ending) (k : memory -> configured)
  : configured :=
  match r with
  | (m, Return result) =>
      if negb (result =? 0) then Ended (Return result) else k m
  | (_, e) => Ended e
  end.

(** [main] from its first call of [parse_options] to the line mode. *)
Definition configure (argv : list string) : configured :=
  checked (parse_options to_path_only (getopt_long argv) initial_memory)
    (fun m =>
       match match config_path_var m with
             | Some path => Some (Some path)
             | None => get_config_path
             end with
       | None => Ended Abort
       | Some config_path =>
           checked match config_path with
                   | Some path => load_config (fopen path) m
                   | None => (m, Return 0)
                   end
             (fun m =>
                checked (if (1 <? List.length argv)%nat
                         then parse_options to_settings (getopt_long argv) m
                         else (m, Return 0))
                  (fun m => Configured (apply_line_mode m)))
       end).

End Parse.

(** The line mode the options of a sequence ask for last, if any does. *)
Fixpoint last_line_mode (rs : list getopt_result) : option line_mode :=
  match rs with
  | [] => None
  | r :: rs' =>
      match last_line_mode rs' with
      | Some v => Some v
      | None =>
          match opt r with
          | Short "n" => Some LM_INSIDE
          | Short "r" => Some LM_RING
          | _ => None
          end
      end
  end.

(** The argument of the last option of a sequence that assigns the
    colour [k], if there is one. *)
Fixpoint last_color (k : color_field) (rs : list getopt_result)
  : option string :=
  match rs with
  | [] => None
  | r :: rs' =>
      match last_color k rs' with
      | Some v => Some v
      | None =>
          match color_case (opt r) with
          | Some k' => if color_field_eq_dec k k' then Some (optarg r)
                       else None
          | None => None
          end
      end
  end.


(** The value the options give a boolean: two can only be switched off,
    the others only on. *)
Definition switched (f : flag_field) : bool :=
  match f with
  | b_show_indicator | b_show_caps_lock_text => false
  | _ => true
  end.

End Options.

(** A sample environment for the options: the mode parser knows [tile]
    only, numbers read as 0, words expand to themselves, every image
    loads; the command line is [-c 112233 -n --ring-color 445566 -C
    /etc/swaylock.conf]; the configuration file at that path holds a
    comment, a background colour and the ring line mode. *)
Module OptionSamples.

Import Options.

Definition modes (s : string) : background_mode :=
  if String.eqb s "tile" then BACKGROUND_MODE_TILE
  else BACKGROUND_MODE_INVALID.

Definition numbers (_ : string) (_ : Z) : Z := 0.

Definition number (_ : string) : Z := 0.

Definition words (s : string) : option (list string) := Some [s].

Definition loads (_ : string) : option bool := Some true.

Definition command_line : list getopt_result :=
  [ {| opt := Short "c"; optarg := "112233" |};
    {| opt := Short "n"; optarg := "" |};
    {| opt := Long LO_RING_COLOR; optarg := "445566" |};
    {| opt := Short "C"; optarg := "/etc/swaylock.conf" |} ].

Definition argv : list string :=
  [ "swaylock"; "-c"; "112233"; "-n"; "--ring-color"; "445566";
    "-C"; "/etc/swaylock.conf" ].

Definition getopt (args : list string) : list getopt_result :=
  match args with
  | [_; flag] =>
      if String.eqb flag "--color=000000"
      then [ {| opt := Short "c"; optarg := "000000" |} ]
      else if String.eqb flag "--line-uses-ring"
      then [ {| opt := Short "r"; optarg := "" |} ]
      else if String.eqb flag "--scaling=zoom"
      then [ {| opt := Short "s"; optarg := "zoom" |} ]
      else [ {| opt := Short "?"; optarg := "" |} ]
  | _ => command_line
  end.

Definition config_file : list string :=
  [ ("# colours" ++ newline)%string;
    ("color=000000" ++ newline)%string;
    "line-uses-ring" ].

Definition files (path : string) : option (list string) :=
  if String.eqb path "/etc/swaylock.conf" then Some config_file else None.

Definition unreadable (_ : string) : bool := false.

(** [initial_memory] after [-e]. *)
Definition ignoring_empty : memory :=
  set_state
    (set_args (assign_flag b_ignore_empty true initial_args)
       (state initial_memory))
    initial_memory.

End OptionSamples.

(** ** Relations kept along a computation *)

(** From every world, [m] ends in a world that [R] relates to it, and
    when it halts, the way it halts and the world it halts in satisfy
    [H]. *)
Definition within (R : world -> world -> Prop) (H : halt -> world -> Prop)
  {A} (m : M A) : Prop :=
  forall w, match m w with
            | Go _ w' => R w w'
            | Halt h w' => R w w' /\ H h w'
            end.

(** The log has grown. *)
Definition extends (w w' : world) : Prop :=
  exists acts, log w' = acts ++ log w.

(** The globals bound are the same. *)
Definition same_globals (w w' : world) : Prop :=
  compositor (st w') = compositor (st w)
  /\ subcompositor (st w') = subcompositor (st w)
  /\ shm (st w') = shm (st w)
  /\ ext_session_lock_manager_v1 (st w')
     = ext_session_lock_manager_v1 (st w).

Definition any_halt (_ : halt) (_ : world) : Prop := True.

(** The exit statuses of the process: 1 and 2 for failures, and 0 only
    with the lock released or in the parent that [daemonize] leaves. *)
Definition status_ok (h : halt) (w : world) : Prop :=
  match h with
  | Exited code =>
      code = 1 \/ code = 2
      \/ (code = 0
          /\ (In UnlockAndDestroy (log w) \/ In Daemonize (log w)))
  | Undefined | Waiting => True
  end.

(** The interfaces [main] tests for after its first round trip. *)
Definition required_globals : list string :=
  ["wl_compositor"; "wl_subcompositor"; "wl_shm";
   "ext_session_lock_manager_v1"].

Definition is_global (interface : string) (e : event) : bool :=
  match e with
  | EvGlobal _ i => String.eqb i interface
  | _ => false
  end.

Definition advertised (interface : string) (evs : list event) : bool :=
  existsb (is_global interface) evs.

(** The world in which the events of the first round trip arrive. *)
Definition connected (a : swaylock_args) (imgs : list swaylock_image)
  : world :=
  {| st := initial_state a imgs; next_ptr := O; log := [Roundtrip] |}.

(** A display server without the session lock protocol. *)
Definition unsupporting_env : env :=
  {| connect_ok := true;
     globals :=
       Dispatch [EvGlobal 1 "wl_compositor"; EvGlobal 2 "wl_subcompositor";
                 EvGlobal 3 "wl_shm"; EvGlobal 5 "wl_output"];
     lock_reply := Dispatch [EvLocked];
     lock_wait := [];
     ready_write := 1;
     daemon := DaemonChild true true;
     polls := [];
     last_roundtrip := Dispatch [] |}.

(** * Properties *)

(** ** parse_color *)

Module ColorFacts.
Import Color.

Lemma hex_digit_range (c : ascii) (d : Z) :
  hex_digit c = Some d -> 0 <= d < 16.
Proof.
  unfold hex_digit.
  set (n := Z.of_nat (nat_of_ascii c)).
  destruct ((48 <=? n) && (n <=? 57))%bool eqn:E1.
  - intros [= <-]. apply andb_prop in E1 as [? ?]. lia.
  - destruct ((97 <=? n) && (n <=? 102))%bool eqn:E2.
    + intros [= <-]. apply andb_prop in E2 as [? ?]. lia.
    + destruct ((65 <=? n) && (n <=? 70))%bool eqn:E3; [|discriminate].
      intros [= <-]. apply andb_prop in E3 as [? ?]. lia.
Qed.

(** The digit loop adds at most one base-16 digit per character. *)
Lemma strtoul_digits_bound (s : string) :
  forall acc, 0 <= acc ->
    acc <= strtoul_digits acc s < (acc + 1) * 16 ^ Z.of_nat (String.length s).
Proof.
  induction s as [|c s IH]; intros acc Hacc.
  - simpl. lia.
  - cbn [strtoul_digits String.length].
    rewrite Nat2Z.inj_succ, Z.pow_succ_r by lia.
    assert (Hp : 0 < 16 ^ Z.of_nat (String.length s)) by (apply Z.pow_pos_nonneg; lia).
    destruct (hex_digit c) as [d|] eqn:Hd.
    + apply hex_digit_range in Hd.
      specialize (IH (acc * 16 + d) ltac:(lia)). nia.
    + nia.
Qed.

Lemma skip_space_length (s : string) :
  (String.length (skip_space s) <= String.length s)%nat.
Proof.
  induction s as [|c s IH]; simpl; [lia|].
  destruct (isspace c); simpl; lia.
Qed.

Lemma skip_0x_length (s : string) :
  (String.length (skip_0x s) <= String.length s)%nat.
Proof.
  unfold skip_0x.
  destruct s as [|a [|x [|d rest]]]; [cbn; lia| | |];
    try (destruct a as [[] [] [] [] [] [] [] []]; cbn; lia).
  destruct a as [[] [] [] [] [] [] [] []]; try (cbn; lia).
  destruct (Ascii.eqb x "x" || Ascii.eqb x "X")%bool; [|lia].
  destruct (hex_digit d); simpl; lia.
Qed.

(** Without a minus sign [strtoul] returns a number of at most as many
    base-16 digits as the string has characters. *)
Lemma strtoul16_unsigned (s : string) :
  minus_signed s = false ->
  (String.length s <= 16)%nat ->
  0 <= strtoul16 s < 16 ^ Z.of_nat (String.length s).
Proof.
  unfold minus_signed, strtoul16. intros Hm Hlen.
  pose proof (skip_space_length s) as Hs.
  set (t := skip_space s) in *.
  assert (Hgen : forall u, (String.length u <= String.length s)%nat ->
    0 <= strtoul_digits 0 (skip_0x u) < 16 ^ Z.of_nat (String.length s)
    /\ (ULONG_MAX <? strtoul_digits 0 (skip_0x u)) = false).
  { intros u Hu.
    pose proof (skip_0x_length u) as H0.
    pose proof (strtoul_digits_bound (skip_0x u) 0 ltac:(lia)) as Hb.
    assert (16 ^ Z.of_nat (String.length (skip_0x u))
            <= 16 ^ Z.of_nat (String.length s))
      by (apply Z.pow_le_mono_r; lia).
    assert (16 ^ Z.of_nat (String.length s) <= 16 ^ 16)
      by (apply Z.pow_le_mono_r; lia).
    split; [lia|].
    apply Z.ltb_ge. unfold ULONG_MAX.
    change (16 ^ 16) with (2 ^ 64) in *. lia. }
  destruct t as [|c t'] eqn:Et.
  - destruct (Hgen EmptyString ltac:(simpl; lia)) as [Hv Ho].
    rewrite Ho. exact Hv.
  - assert (Hcase : (c = "-"%char) \/
              (c = "+"%char /\ True) \/ (c <> "-"%char /\ c <> "+"%char)).
    { destruct (Ascii.eqb_spec c "-"); [left; trivial|].
      destruct (Ascii.eqb_spec c "+"); [right; left; auto|right; right; auto]. }
    destruct Hcase as [->|[[-> _]|[Hn1 Hn2]]].
    + discriminate Hm.
    + destruct (Hgen t' ltac:(simpl in Hs; lia)) as [Hv Ho].
      rewrite Ho. exact Hv.
    + destruct (Hgen (String c t') ltac:(simpl in *; lia)) as [Hv Ho].
      assert (Hsel :
        (match String c t' with
         | String "-" s' => (true, s')
         | String "+" s' => (false, s')
         | _ => (false, String c t')
         end) = (false, String c t')).
      { destruct c as [[] [] [] [] [] [] [] []]; try reflexivity;
          exfalso; auto. }
      rewrite Hsel, Ho. exact Hv.
Qed.

Lemma lor_alpha (v : Z) :
  0 <= v -> Z.lor (v * 256) 0xFF = v * 256 + 255.
Proof.
  intros Hv.
  rewrite <- Z.lxor_lor, <- Z.add_nocarry_lxor; try reflexivity.
  - change 0xFF with (Z.ones 8). rewrite Z.land_ones by lia.
    change (2 ^ 8) with 256. apply Z.mod_mul. lia.
  - change 0xFF with (Z.ones 8). rewrite Z.land_ones by lia.
    change (2 ^ 8) with 256. apply Z.mod_mul. lia.
Qed.

End ColorFacts.

Example parse_color_rgb : Color.parse_color "#A3A3A3" = 0xA3A3A3FF.
Proof. reflexivity. Qed.

Example parse_color_rgba : Color.parse_color "000000C0" = 0x000000C0.
Proof. reflexivity. Qed.

Example parse_color_short : Color.parse_color "#fff" = 0xFFFFFFFF.
Proof. reflexivity. Qed.

Example parse_color_two_hashes : Color.parse_color "##123456" = 0xFFFFFFFF.
Proof. reflexivity. Qed.

Example parse_color_prefixed : Color.parse_color "0x1234" = 0x001234FF.
Proof. reflexivity. Qed.

(** C10, as stated, fails: a string of length 6 that starts with a minus
    sign is negated by [strtoul] within [unsigned long], so the parsed
    value is not a 24-bit value, and the colour is not that value followed
    by alpha 0xFF.  At "-12345" the parsed value is 0xFFFEDCBB and the
    result 0xFEDCBBFF. *)
Lemma parse_color_minus_not_24_bit :
  ~ (forall color : string,
       String.length (Color.strip_hash color) = 6%nat ->
       exists v, 0 <= v < 2 ^ 24
                 /\ to_uint32 (Color.strtoul16 (Color.strip_hash color)) = v
                 /\ Color.parse_color color = v * 256 + 255).
Proof.
  intros H.
  destruct (H "-12345" eq_refl) as (v & Hv & Hp & _).
  vm_compute in Hp. subst v. lia.
Qed.

(** C10 (amended): for every input string, [parse_color] strips at most
    one leading '#'; if the remaining length is neither 6 nor 8 it returns
    0xFFFFFFFF; if the length is 6 it returns the value parsed by [strtoul]
    in base 16, truncated to 32 bits, shifted left 8 bits within 32 bits,
    with 0xFF in the low byte, and if the length is 8 the parsed value
    truncated to 32 bits.  Unless the string carries a minus sign, the
    parsed value is a 24-bit value followed by alpha 0xFF in the first
    case, and a 32-bit value returned unchanged in the second. *)
Theorem parse_color_spec (color : string) :
  let c := Color.strip_hash color in
  let v := Color.strtoul16 c in
  (forall rest, color = String "#" rest -> c = rest)
  /\ ((forall rest, color <> String "#" rest) -> c = color)
  /\ (String.length c <> 6%nat -> String.length c <> 8%nat ->
      Color.parse_color color = 0xFFFFFFFF)
  /\ (String.length c = 6%nat ->
      Color.parse_color color
      = Z.lor (to_uint32 (Z.shiftl (to_uint32 v) 8)) 0xFF
      /\ (Color.minus_signed c = false ->
          0 <= v < 2 ^ 24 /\ Color.parse_color color = v * 256 + 255))
  /\ (String.length c = 8%nat ->
      Color.parse_color color = to_uint32 v
      /\ (Color.minus_signed c = false ->
          0 <= v < 2 ^ 32 /\ Color.parse_color color = v)).
Proof.
  intros c v.
  split; [intros rest ->; reflexivity|].
  split.
  { intros Hno. unfold c, Color.strip_hash.
    destruct color as [|a rest]; [reflexivity|].
    destruct (Ascii.eqb_spec a "#") as [->|Hne].
    - exfalso. apply (Hno rest). reflexivity.
    - destruct a as [[] [] [] [] [] [] [] []]; try reflexivity.
      exfalso. apply Hne. reflexivity. }
  split.
  { intros H6 H8. unfold Color.parse_color. fold c.
    apply Nat.eqb_neq in H6, H8. rewrite H6, H8. reflexivity. }
  split.
  - intros H6.
    assert (Hp : Color.parse_color color
                 = Z.lor (to_uint32 (Z.shiftl (to_uint32 v) 8)) 0xFF).
    { unfold Color.parse_color. fold c. rewrite H6. reflexivity. }
    split; [exact Hp|].
    intros Hm.
    pose proof (ColorFacts.strtoul16_unsigned c Hm ltac:(lia)) as Hv.
    fold v in Hv. rewrite H6 in Hv. change (16 ^ Z.of_nat 6) with (2 ^ 24) in Hv.
    split; [exact Hv|].
    rewrite Hp. unfold to_uint32, UINT32_MOD.
    rewrite (Z.mod_small v) by lia.
    rewrite Z.shiftl_mul_pow2 by lia. change (2 ^ 8) with 256.
    rewrite Z.mod_small by lia.
    apply ColorFacts.lor_alpha. lia.
  - intros H8.
    assert (Hp : Color.parse_color color = to_uint32 v).
    { unfold Color.parse_color. fold c. rewrite H8. reflexivity. }
    split; [exact Hp|].
    intros Hm.
    pose proof (ColorFacts.strtoul16_unsigned c Hm ltac:(lia)) as Hv.
    fold v in Hv. rewrite H8 in Hv. change (16 ^ Z.of_nat 8) with (2 ^ 32) in Hv.
    split; [exact Hv|].
    rewrite Hp. unfold to_uint32, UINT32_MOD. apply Z.mod_small. lia.
Qed.

Lemma parse_color_spec_witness :
  Color.parse_color "#33DB00" = 0x33DB00 * 256 + 255
  /\ Color.parse_color "0072FFC0" = 0x0072FFC0
  /\ Color.parse_color "red" = 0xFFFFFFFF.
Proof.
  split; [|split].
  - destruct (parse_color_spec "#33DB00") as (_ & _ & _ & H6 & _).
    destruct (H6 eq_refl) as [_ H].
    exact (proj2 (H eq_refl)).
  - destruct (parse_color_spec "0072FFC0") as (_ & _ & _ & _ & H8).
    destruct (H8 eq_refl) as [_ H].
    exact (proj2 (H eq_refl)).
  - destruct (parse_color_spec "red") as (_ & _ & Hd & _).
    apply Hd; simpl; lia.
Defined.

(** ** The surface list *)

Lemma find_update_same p f l :
  find_surface p (update_surface p f l) = option_map f (find_surface p l).
Proof.
  induction l as [|[q s] l IH]; simpl; [reflexivity|].
  destruct (Nat.eqb q p) eqn:E; simpl; rewrite E; auto.
Qed.

Lemma find_update_other p q f l :
  q <> p -> find_surface q (update_surface p f l) = find_surface q l.
Proof.
  intros Hne. induction l as [|[r s] l IH]; simpl; [reflexivity|].
  destruct (Nat.eqb r p) eqn:E; simpl.
  - apply Nat.eqb_eq in E. subst r.
    destruct (Nat.eqb p q) eqn:E'; [apply Nat.eqb_eq in E'; congruence|reflexivity].
  - rewrite IH. reflexivity.
Qed.

Lemma find_some_in p l sf :
  find_surface p l = Some sf -> In p (map fst l).
Proof.
  induction l as [|[q s] l IH]; simpl; [discriminate|].
  destruct (Nat.eqb q p) eqn:E.
  - apply Nat.eqb_eq in E. auto.
  - auto.
Qed.

Lemma find_in_some p l :
  In p (map fst l) -> exists sf, find_surface p l = Some sf.
Proof.
  induction l as [|[q s] l IH]; simpl; [tauto|].
  intros [->|Hin].
  - rewrite Nat.eqb_refl. eauto.
  - destruct (Nat.eqb q p); eauto.
Qed.

Lemma find_none_not_in p l :
  find_surface p l = None -> ~ In p (map fst l).
Proof.
  intros Hn Hin. apply find_in_some in Hin as [sf Hsf]. congruence.
Qed.

Lemma ptrs_skeleton l : map fst (skeleton l) = map fst l.
Proof.
  unfold skeleton. rewrite map_map. apply map_ext. reflexivity.
Qed.

Lemma skeleton_ptrs l l' :
  skeleton l = skeleton l' -> map fst l = map fst l'.
Proof.
  intros H. rewrite <- (ptrs_skeleton l), <- (ptrs_skeleton l'), H. reflexivity.
Qed.

Lemma find_skeleton l :
  forall l' p, skeleton l = skeleton l' ->
    match find_surface p l, find_surface p l' with
    | Some s, Some s' =>
        created s = created s'
        /\ ext_session_lock_surface_v1 s = ext_session_lock_surface_v1 s'
    | None, None => True
    | _, _ => False
    end.
Proof.
  induction l as [|[q s] l IH]; intros [|[q' s'] l'] p H; simpl in *;
    try discriminate; [exact I|].
  injection H as Hq Hc Hl Hrest. subst q'.
  destruct (Nat.eqb q p); [auto|].
  apply IH. exact Hrest.
Qed.

Lemma skeleton_update p f l :
  flag_preserving f -> skeleton (update_surface p f l) = skeleton l.
Proof.
  intros Hf. induction l as [|[q s] l IH]; simpl; [reflexivity|].
  destruct (Nat.eqb q p); simpl.
  - destruct (Hf s) as [-> ->]. reflexivity.
  - f_equal. exact IH.
Qed.

Lemma ptrs_update p f l : map fst (update_surface p f l) = map fst l.
Proof.
  induction l as [|[q s] l IH]; simpl; [reflexivity|].
  destruct (Nat.eqb q p); simpl; congruence.
Qed.

Lemma ptrs_remove p l : incl (map fst (remove_surface p l)) (map fst l).
Proof.
  induction l as [|[q s] l IH]; simpl; [apply incl_refl|].
  destruct (Nat.eqb q p); simpl.
  - apply incl_tl, incl_refl.
  - intros x [->|Hx]; [left; reflexivity|right; apply IH, Hx].
Qed.

Lemma nodup_remove p l :
  NoDup (map fst l) -> NoDup (map fst (remove_surface p l)).
Proof.
  induction l as [|[q s] l IH]; simpl; intros H; [exact H|].
  inversion H as [|? ? Hq Hl]; subst.
  destruct (Nat.eqb q p); simpl; [exact Hl|].
  constructor; [|auto].
  intros Hin. apply Hq. apply (ptrs_remove p l), Hin.
Qed.

Lemma find_remove_same p l :
  NoDup (map fst l) -> find_surface p (remove_surface p l) = None.
Proof.
  induction l as [|[q s] l IH]; simpl; intros H; [reflexivity|].
  inversion H as [|? ? Hq Hl]; subst.
  destruct (Nat.eqb q p) eqn:E; simpl.
  - apply Nat.eqb_eq in E. subst q.
    destruct (find_surface p l) eqn:F; [|reflexivity].
    exfalso. apply Hq. eapply find_some_in; eauto.
  - rewrite E. auto.
Qed.

Lemma find_remove_other p q l :
  q <> p -> find_surface q (remove_surface p l) = find_surface q l.
Proof.
  intros Hne. induction l as [|[r s] l IH]; simpl; [reflexivity|].
  destruct (Nat.eqb r p) eqn:E; simpl.
  - apply Nat.eqb_eq in E. subst r.
    destruct (Nat.eqb p q) eqn:E'; [apply Nat.eqb_eq in E'; congruence|reflexivity].
  - rewrite IH. reflexivity.
Qed.

Lemma find_output_some name l p :
  find_output name l = Some p -> exists sf, find_surface p l = Some sf.
Proof.
  intros H. apply find_in_some.
  induction l as [|[q s] l IH]; simpl in *; [discriminate|].
  destruct (output_global_name s =? name).
  - injection H as ->. auto.
  - auto.
Qed.

(** ** Worlds that differ cosmetically *)

Lemma cosmetic_refl w : cosmetic w w.
Proof. unfold cosmetic. tauto. Qed.

Lemma cosmetic_trans w1 w2 w3 :
  cosmetic w1 w2 -> cosmetic w2 w3 -> cosmetic w1 w3.
Proof.
  unfold cosmetic. intros (a1 & a2 & a3 & a4 & a5 & a6 & a7)
                          (b1 & b2 & b3 & b4 & b5 & b6 & b7).
  repeat split; congruence.
Qed.

Section Steps.

Variable rd : swaylock_state -> swaylock_surface -> bool.

Lemma with_surface_cosmetic p f w :
  flag_preserving f ->
  exists w', with_surface p f w = Go tt w'
             /\ cosmetic w w' /\ log w' = log w
             /\ find_surface p (surfaces (st w'))
                = option_map f (find_surface p (surfaces (st w))).
Proof.
  intros Hf. eexists. split; [reflexivity|].
  split; [|split; [reflexivity|apply find_update_same]].
  unfold cosmetic; simpl. rewrite skeleton_update by exact Hf. tauto.
Qed.

Lemma render_spec p w sf :
  find_surface p (surfaces (st w)) = Some sf ->
  exists w', render rd p w = Go tt w'
             /\ cosmetic w w' /\ log w' = Render p sf :: log w
             /\ find_surface p (surfaces (st w'))
                = Some (set_dirty (rd (st w) sf) sf).
Proof.
  intros Hf. unfold render, surface_at, bind, get. rewrite Hf.
  eexists. split; [reflexivity|].
  split; [|split; [reflexivity|]].
  - unfold cosmetic; simpl.
    rewrite skeleton_update by (intros s; split; reflexivity). tauto.
  - simpl. rewrite find_update_same, Hf. reflexivity.
Qed.

(** Marking a surface dirty and rendering it, as every handler does. *)
Lemma damage_one_spec p w sf :
  find_surface p (surfaces (st w)) = Some sf ->
  exists w', (with_surface p (set_dirty true) ;; render rd p) w = Go tt w'
             /\ cosmetic w w'
             /\ log w' = Render p (set_dirty true sf) :: log w
             /\ find_surface p (surfaces (st w'))
                = Some (set_dirty
                          (rd (st (final (with_surface p (set_dirty true) w)))
                              (set_dirty true sf))
                          (set_dirty true sf)).
Proof.
  intros Hf.
  destruct (with_surface_cosmetic p (set_dirty true) w) as (w1 & E1 & C1 & L1 & F1);
    [intros s; split; reflexivity|].
  rewrite Hf in F1. simpl in F1.
  destruct (render_spec p w1 _ F1) as (w2 & E2 & C2 & L2 & F2).
  exists w2. unfold bind at 1. rewrite E1, E2.
  split; [reflexivity|].
  split; [eapply cosmetic_trans; eauto|].
  split; [congruence|exact F2].
Qed.

End Steps.

(** ** Quiet computations *)

Lemma all_minor_app a b : all_minor a -> all_minor b -> all_minor (a ++ b).
Proof. unfold all_minor. intros. apply Forall_app. auto. Qed.

Lemma quiet_ret {A} (a : A) w : quiet_at (ret a) w.
Proof.
  exists a, w, [].
  split; [reflexivity|]. split; [apply cosmetic_refl|].
  split; [reflexivity|constructor].
Qed.

Lemma quiet_bind {A B} (m : M A) (k : A -> M B) w :
  quiet_at m w ->
  (forall a w', m w = Go a w' -> cosmetic w w' -> quiet_at (k a) w') ->
  quiet_at (bind m k) w.
Proof.
  intros (a & w1 & acts1 & E1 & C1 & L1 & M1) Hk.
  destruct (Hk a w1 E1 C1) as (b & w2 & acts2 & E2 & C2 & L2 & M2).
  exists b, w2, (acts2 ++ acts1). unfold bind. rewrite E1, E2.
  split; [reflexivity|].
  split; [eapply cosmetic_trans; eauto|].
  split; [rewrite L2, L1; apply app_assoc|].
  apply all_minor_app; assumption.
Qed.

Lemma quiet_ext {A} (m m' : M A) w :
  m w = m' w -> quiet_at m' w -> quiet_at m w.
Proof. unfold quiet_at. intros ->. trivial. Qed.

Lemma quiet_emit a w : minor a = true -> quiet_at (emit a) w.
Proof.
  intros Ha. exists tt, (upd (fun s => s) [a] w), [a].
  split; [reflexivity|]. split; [unfold cosmetic; simpl; tauto|].
  split; [reflexivity|]. constructor; [exact Ha|constructor].
Qed.

Lemma quiet_when (b : bool) (m : M unit) w :
  (b = true -> quiet_at m w) -> quiet_at (when b m) w.
Proof. destruct b; simpl; intros H; [auto|apply quiet_ret]. Qed.

Section Quiet.

Variable rd : swaylock_state -> swaylock_surface -> bool.

Lemma quiet_with_surface p f w :
  flag_preserving f -> quiet_at (with_surface p f) w.
Proof.
  intros Hf. destruct (with_surface_cosmetic p f w Hf) as (w' & E & C & L & _).
  exists tt, w', [].
  split; [exact E|]. split; [exact C|]. split; [exact L|constructor].
Qed.

Lemma quiet_render p w :
  In p (map fst (surfaces (st w))) -> quiet_at (render rd p) w.
Proof.
  intros Hin. apply find_in_some in Hin as [sf Hsf].
  destruct (render_spec rd p w sf Hsf) as (w' & E & C & L & _).
  exists tt, w', [Render p sf].
  split; [exact E|]. split; [exact C|]. split; [exact L|].
  constructor; [reflexivity|constructor].
Qed.

Lemma cosmetic_ptrs w w' :
  cosmetic w w' -> map fst (surfaces (st w')) = map fst (surfaces (st w)).
Proof. intros (_ & Hs & _). apply skeleton_ptrs. exact Hs. Qed.

Lemma quiet_damage_one p w :
  In p (map fst (surfaces (st w))) ->
  quiet_at (with_surface p (set_dirty true) ;; render rd p) w.
Proof.
  intros Hin. apply quiet_bind.
  - apply quiet_with_surface. intros s; split; reflexivity.
  - intros _ w' _ C. apply quiet_render.
    rewrite (cosmetic_ptrs _ _ C). exact Hin.
Qed.

Lemma quiet_damage_each ps :
  forall w, incl ps (map fst (surfaces (st w))) ->
            quiet_at (damage_each rd ps) w.
Proof.
  induction ps as [|p ps IH]; intros w Hincl; simpl.
  - apply quiet_ret.
  - apply quiet_bind.
    + apply quiet_with_surface. intros s; split; reflexivity.
    + intros _ w1 _ C1. apply quiet_bind.
      * apply quiet_render. rewrite (cosmetic_ptrs _ _ C1).
        apply Hincl. left. reflexivity.
      * intros _ w2 _ C2. apply IH.
        rewrite (cosmetic_ptrs _ _ C2), (cosmetic_ptrs _ _ C1).
        intros x Hx. apply Hincl. right. exact Hx.
Qed.

Lemma quiet_damage_state w : quiet_at (damage_state rd) w.
Proof.
  unfold damage_state. apply quiet_bind.
  - exists (st w), w, [].
    split; [reflexivity|]. split; [apply cosmetic_refl|].
    split; [reflexivity|constructor].
  - intros s w' E _. injection E as <- <-.
    apply quiet_damage_each. apply incl_refl.
Qed.

End Quiet.

(** ** Delivering one event *)

Section Deliver.

Variable rd : swaylock_state -> swaylock_surface -> bool.

Lemma quiet_get w : quiet_at get w.
Proof.
  exists (st w), w, [].
  split; [reflexivity|]. split; [apply cosmetic_refl|].
  split; [reflexivity|constructor].
Qed.

Lemma quiet_modify f w :
  cosmetic w (upd f [] w) -> quiet_at (modify f) w.
Proof.
  intros C. exists tt, (upd f [] w), [].
  split; [reflexivity|]. split; [exact C|].
  split; [reflexivity|constructor].
Qed.

Lemma quiet_delivery e w :
  listening e (st w) = true ->
  quiet_event e = true ->
  quiet_at (handle rd e) (upd (fun s => s) [Recv e] w) ->
  delivery w e (deliver rd e w).
Proof.
  intros L Q (a & w' & acts & E & C & Lg & Mn).
  unfold deliver, bind, get. rewrite L. simpl. unfold bind, emit.
  change {| st := st w; next_ptr := next_ptr w; log := Recv e :: log w |}
    with (upd (fun s => s) [Recv e] w).
  rewrite E. destruct a.
  apply Quiet with (acts := acts); auto.
Qed.

Lemma alive_in p (s : swaylock_state) :
  match find_surface p (surfaces s) with Some _ => true | None => false end
  = true ->
  In p (map fst (surfaces s)).
Proof.
  destruct (find_surface p (surfaces s)) eqn:F; [|discriminate].
  intros _. eapply find_some_in; eauto.
Qed.

Lemma quiet_redraw p f w :
  flag_preserving f ->
  In p (map fst (surfaces (st w))) ->
  quiet_at (with_surface p f ;;
            s <- get ;;
            when (run_display s)
                 (with_surface p (set_dirty true) ;; render rd p)) w.
Proof.
  intros Hf Hin. apply quiet_bind; [apply quiet_with_surface; exact Hf|].
  intros _ w1 _ C1. apply quiet_bind; [apply quiet_get|].
  intros s w2 _ C2. apply quiet_when. intros _.
  apply quiet_damage_one.
  rewrite (cosmetic_ptrs _ _ C2), (cosmetic_ptrs _ _ C1). exact Hin.
Qed.

Lemma deliver_global name interface w :
  delivery w (EvGlobal name interface)
           (deliver rd (EvGlobal name interface) w).
Proof.
  destruct (String.eqb_spec interface "wl_output") as [->|Hne].
  - apply Added.
  - apply quiet_delivery; try reflexivity.
    unfold handle, handle_global.
    repeat match goal with
           | |- context [String.eqb interface ?x] =>
               destruct (String.eqb_spec interface x)
           end;
      try (apply quiet_modify; unfold cosmetic; simpl; tauto);
      try (apply quiet_emit; reflexivity);
      try apply quiet_ret.
    contradiction.
Qed.

Lemma deliver_global_remove name w :
  delivery w (EvGlobalRemove name) (deliver rd (EvGlobalRemove name) w).
Proof.
  destruct (find_output name (surfaces (st w))) as [p|] eqn:Fo.
  - destruct (find_output_some _ _ _ Fo) as [sf Fs].
    pose proof (Removed w name p sf Fo Fs) as H.
    unfold deliver, handle, handle_global_remove, destroy_surface, surface_at,
      bind, get, emit, modify, when, ret. simpl.
    rewrite Fo. simpl. rewrite Fs.
    unfold upd, destroy_requests in H. simpl in H.
    destruct (ext_session_lock_surface_v1 sf), (subsurface sf), (child sf),
      (wl_surface sf); exact H.
  - apply quiet_delivery; try reflexivity.
    unfold handle, handle_global_remove. apply quiet_bind; [apply quiet_get|].
    intros s w' E _. injection E as <- <-. simpl. rewrite Fo.
    apply quiet_ret.
Qed.

Lemma deliver_done p w :
  delivery w (EvOutputDone p) (deliver rd (EvOutputDone p) w).
Proof.
  destruct (listening (EvOutputDone p) (st w)) eqn:L.
  2:{ unfold deliver, bind, get. rewrite L. apply Dropped. exact L. }
  pose proof L as L'. simpl in L'.
  destruct (find_surface p (surfaces (st w))) as [sf|] eqn:Fs; [|discriminate].
  destruct (negb (created sf) && run_display (st w))%bool eqn:Cond.
  - apply andb_prop in Cond as [Hc Hr]. apply negb_true_iff in Hc.
    set (img := select_image (st w) sf).
    set (opaque := (surface_is_opaque (st w) (set_created img sf)
        && negb (background_mode_eqb (mode (args (st w))) BACKGROUND_MODE_CENTER)
        && negb (background_mode_eqb (mode (args (st w))) BACKGROUND_MODE_FIT))%bool).
    pose proof (Created w p sf img (if opaque then [SetOpaqueRegion p] else [])
                  Fs Hc Hr) as H.
    unfold deliver, handle, handle_wl_output_done, create_surface, surface_at,
      with_surface, bind, get, emit, modify, when, ret. cbn.
    repeat (progress (rewrite ?Fs, ?Hc, ?Hr; cbn)).
    fold img. fold opaque.
    unfold upd in H.
    destruct opaque; simpl in *; apply H; repeat constructor.
  - apply quiet_delivery; [exact L|reflexivity|].
    apply (quiet_ext _ (ret tt)); [|apply quiet_ret].
    unfold handle, handle_wl_output_done, surface_at, bind, get, when, ret.
    cbn. rewrite Fs. cbn. rewrite Cond. reflexivity.
Qed.

Lemma deliver_configure p serial wd ht w :
  delivery w (EvConfigure p serial wd ht)
           (deliver rd (EvConfigure p serial wd ht) w).
Proof.
  destruct (listening (EvConfigure p serial wd ht) (st w)) eqn:L.
  2:{ unfold deliver, bind, get. rewrite L. apply Dropped. exact L. }
  pose proof L as L'. simpl in L'.
  destruct (find_surface p (surfaces (st w))) as [sf|] eqn:Fs; [|discriminate].
  unfold deliver, bind at 1, get. rewrite L. simpl. unfold bind at 1, emit.
  set (w0 := {| st := st w; next_ptr := next_ptr w;
                log := Recv (EvConfigure p serial wd ht) :: log w |}).
  unfold handle, ext_session_lock_surface_v1_handle_configure.
  destruct (with_surface_cosmetic p (set_size wd ht) w0) as (w1 & E1 & C1 & L1 & F1);
    [intros s; split; reflexivity|].
  unfold bind at 1. rewrite E1.
  unfold bind at 1, emit.
  set (w2 := {| st := st w1; next_ptr := next_ptr w1;
                log := AckConfigure p serial :: log w1 |}).
  assert (F2 : find_surface p (surfaces (st w2)) = Some (set_size wd ht sf)).
  { simpl. rewrite F1. simpl. rewrite Fs. reflexivity. }
  destruct (damage_one_spec rd p w2 _ F2) as (w3 & E3 & C3 & L3 & F3).
  rewrite E3.
  apply Configured with (sf := sf); auto.
  - eapply cosmetic_trans; [|exact C3].
    destruct C1 as (c1 & c2 & c3 & c4 & c5 & c6 & c7).
    unfold cosmetic. simpl in *. tauto.
  - rewrite L3. simpl. rewrite L1. reflexivity.
Qed.

(** Every delivery is one of the cases of [delivery]. *)
Lemma deliver_spec e w : delivery w e (deliver rd e w).
Proof.
  destruct e as [name interface|name|p sp|p|p|p factor|p name|p| | |p serial wd ht].
  - apply deliver_global.
  - apply deliver_global_remove.
  - destruct (listening (EvOutputGeometry p sp) (st w)) eqn:L.
    2:{ unfold deliver, bind, get. rewrite L. apply Dropped. exact L. }
    apply quiet_delivery; try reflexivity; [exact L|].
    apply quiet_redraw; [intros s; split; reflexivity|].
    apply alive_in. exact L.
  - destruct (listening (EvOutputMode p) (st w)) eqn:L.
    2:{ unfold deliver, bind, get. rewrite L. apply Dropped. exact L. }
    apply quiet_delivery; try reflexivity; [exact L|]. apply quiet_ret.
  - apply deliver_done.
  - destruct (listening (EvOutputScale p factor) (st w)) eqn:L.
    2:{ unfold deliver, bind, get. rewrite L. apply Dropped. exact L. }
    apply quiet_delivery; try reflexivity; [exact L|].
    apply quiet_redraw; [intros s; split; reflexivity|].
    apply alive_in. exact L.
  - destruct (listening (EvOutputName p name) (st w)) eqn:L.
    2:{ unfold deliver, bind, get. rewrite L. apply Dropped. exact L. }
    apply quiet_delivery; try reflexivity; [exact L|].
    apply quiet_with_surface. intros s; split; reflexivity.
  - destruct (listening (EvOutputDescription p) (st w)) eqn:L.
    2:{ unfold deliver, bind, get. rewrite L. apply Dropped. exact L. }
    apply quiet_delivery; try reflexivity; [exact L|]. apply quiet_ret.
  - destruct (listening EvLocked (st w)) eqn:L.
    2:{ unfold deliver, bind, get. rewrite L. apply Dropped. exact L. }
    unfold deliver, bind, get. rewrite L. apply Locked. exact L.
  - destruct (listening EvFinished (st w)) eqn:L.
    2:{ unfold deliver, bind, get. rewrite L. apply Dropped. exact L. }
    unfold deliver, bind, get. rewrite L. apply Finished. exact L.
  - apply deliver_configure.
Qed.

End Deliver.

(** ** Classes of actions *)

Lemma Forall_class (P Q : action -> bool) (acts : list action) :
  (forall a, P a = true -> Q a = true) ->
  Forall (fun a => P a = true) acts -> Forall (fun a => Q a = true) acts.
Proof. intros H. apply Forall_impl. exact H. Qed.

Lemma minor_inert a : minor a = true -> inert a = true.
Proof. unfold inert. intros ->. reflexivity. Qed.

Lemma inert_plain a : inert a = true -> plain a = true.
Proof. destruct a; simpl; try discriminate; reflexivity. Qed.

Lemma minor_plain a : minor a = true -> plain a = true.
Proof. intros H. apply inert_plain, minor_inert, H. Qed.

Lemma minor_not_special a : minor a = true -> special a = false.
Proof. destruct a; simpl; try discriminate; reflexivity. Qed.

Lemma plain_parts a :
  plain a = true ->
  ack_neutral a = true /\ lock_neutral a = true
  /\ create_neutral a = true /\ free_neutral a = true.
Proof.
  unfold plain. intros H.
  apply andb_prop in H as [H H4]. apply andb_prop in H as [H H3].
  apply andb_prop in H as [H1 H2]. auto.
Qed.

Lemma destroy_requests_minor p sf : all_minor (destroy_requests p sf).
Proof.
  unfold all_minor, destroy_requests.
  destruct (wl_surface sf), (child sf), (subsurface sf),
    (ext_session_lock_surface_v1 sf); simpl; repeat constructor.
Qed.

(** ** heap_ok *)

Lemma heap_ok_same w w' :
  map fst (surfaces (st w')) = map fst (surfaces (st w)) ->
  next_ptr w' = next_ptr w ->
  heap_ok w -> heap_ok w'.
Proof.
  unfold heap_ok. intros -> ->. trivial.
Qed.

Lemma heap_ok_added w name acts :
  heap_ok w ->
  heap_ok {| st := set_surfaces
                     ((next_ptr w, new_surface name) :: surfaces (st w)) (st w);
             next_ptr := S (next_ptr w); log := acts |}.
Proof.
  intros [Hn Hb]. split; simpl.
  - constructor; [|exact Hn]. intros Hin. apply Hb in Hin. lia.
  - intros p [<-|Hin]; [lia|]. apply Hb in Hin. lia.
Qed.

Lemma heap_ok_removed w p acts :
  heap_ok w ->
  heap_ok (upd (fun s => set_surfaces (remove_surface p (surfaces s)) s) acts w).
Proof.
  intros [Hn Hb]. split; simpl.
  - apply nodup_remove. exact Hn.
  - intros q Hin. apply Hb. eapply ptrs_remove. exact Hin.
Qed.

Lemma frame_ptrs w w' :
  frame w w' -> map fst (surfaces (st w')) = map fst (surfaces (st w)).
Proof. intros (_ & Hs & _). apply skeleton_ptrs. exact Hs. Qed.

Lemma cosmetic_frame w w' : cosmetic w w' -> frame w w'.
Proof. unfold cosmetic, frame. tauto. Qed.

Section HeapSteps.

Variable rd : swaylock_state -> swaylock_surface -> bool.

Lemma heap_ok_delivery e w r :
  delivery w e r -> heap_ok w -> heap_ok (final r).
Proof.
  intros D H. destruct D; simpl; auto.
  - eapply heap_ok_same; [apply cosmetic_ptrs| |]; eauto.
    match goal with C : cosmetic _ _ |- _ => apply C end.
  - eapply heap_ok_same; [apply cosmetic_ptrs| |]; eauto.
    match goal with C : cosmetic _ _ |- _ => apply C end.
  - eapply heap_ok_same; [| |exact H]; simpl; [apply ptrs_update|reflexivity].
  - apply heap_ok_added. exact H.
  - apply heap_ok_removed. exact H.
Qed.

Lemma heap_ok_step S w w' : step rd S w w' -> heap_ok w -> heap_ok w'.
Proof.
  intros St H. destruct St as [w' acts F _ _|e|p sf img acts _ _ _ _].
  - eapply heap_ok_same; [apply frame_ptrs| |]; eauto. apply F.
  - eapply heap_ok_delivery; [apply (deliver_spec rd)|exact H].
  - eapply heap_ok_same; [| |exact H]; simpl; [apply ptrs_update|reflexivity].
Qed.

End HeapSteps.

(** ** acks_match *)

Lemma acks_neutral p acts l :
  Forall (fun a => ack_neutral a = true) acts ->
  acks_of p (acts ++ l) = acks_of p l
  /\ configures_of p (acts ++ l) = configures_of p l.
Proof.
  induction 1 as [|a acts Ha _ [IH1 IH2]]; simpl; [auto|].
  destruct a; simpl in Ha; try discriminate; auto.
  match goal with e : event |- _ => destruct e end;
    simpl in Ha; try discriminate; auto.
Qed.

Lemma acks_match_neutral w w' acts :
  log w' = acts ++ log w ->
  Forall (fun a => ack_neutral a = true) acts ->
  acks_match w -> acks_match w'.
Proof.
  intros L N H p. rewrite L.
  destruct (acks_neutral p acts (log w) N) as [-> ->]. apply H.
Qed.

Lemma app_snoc {A} (acts : list A) (x : A) (l : list A) :
  acts ++ x :: l = (acts ++ [x]) ++ l.
Proof. rewrite <- app_assoc. reflexivity. Qed.

Lemma Forall_snoc (P : action -> bool) acts x :
  Forall (fun a => P a = true) acts -> P x = true ->
  Forall (fun a => P a = true) (acts ++ [x]).
Proof. intros H Hx. apply Forall_app. split; [exact H|repeat constructor; exact Hx]. Qed.

Lemma quiet_plain e : quiet_event e = true -> plain (Recv e) = true.
Proof. destruct e; simpl; try discriminate; reflexivity. Qed.

Lemma acks_match_delivery e w r :
  delivery w e r -> acks_match w -> acks_match (final r).
Proof.
  intros D H.
  destruct D as [e Hl|e w' acts Hl Hq C L M|p serial wd ht sf w' Fs Hk C L
                |p sf img acts Fs Hc Hr M|name|name p sf Fo Fs|Hl|Hl]; simpl.
  - exact H.
  - rewrite app_snoc in L.
    eapply acks_match_neutral; [exact L| |exact H].
    apply Forall_snoc.
    + eapply Forall_class; [|exact M].
      intros a Ha. apply minor_plain, plain_parts in Ha. tauto.
    + apply quiet_plain, plain_parts in Hq. tauto.
  - intros q. rewrite L. simpl.
    destruct (Nat.eqb p q); rewrite (H q); reflexivity.
  - eapply acks_match_neutral; [reflexivity| |exact H].
    apply Forall_app. split; [|repeat constructor].
    eapply Forall_class; [|exact M].
    intros a Ha. apply minor_plain, plain_parts in Ha. tauto.
  - eapply acks_match_neutral with (acts := [_; _]); [reflexivity| |exact H].
    repeat constructor.
  - eapply acks_match_neutral; [reflexivity| |exact H].
    constructor; [reflexivity|]. constructor; [reflexivity|].
    apply Forall_app. split; [|repeat constructor].
    eapply Forall_class; [|apply destroy_requests_minor].
    intros a Ha. apply minor_plain, plain_parts in Ha. tauto.
  - eapply acks_match_neutral with (acts := [_]); [reflexivity| |exact H].
    repeat constructor.
  - eapply acks_match_neutral with (acts := [_]); [reflexivity| |exact H].
    repeat constructor.
Qed.

Section AckSteps.

Variable rd : swaylock_state -> swaylock_surface -> bool.

Lemma acks_match_step w w' :
  step rd inert w w' -> acks_match w -> acks_match w'.
Proof.
  intros St H. destruct St as [w' acts F L N|e|p sf img acts Fs Hc Hs M].
  - eapply acks_match_neutral; [exact L| |exact H].
    eapply Forall_class; [|exact N].
    intros a Ha. apply inert_plain, plain_parts in Ha. tauto.
  - eapply acks_match_delivery; [apply (deliver_spec rd)|exact H].
  - eapply acks_match_neutral; [reflexivity| |exact H].
    apply Forall_app. split; [|repeat constructor].
    eapply Forall_class; [|exact M].
    intros a Ha. apply minor_plain, plain_parts in Ha. tauto.
Qed.

End AckSteps.

(** ** locked_logged *)




Section LockSteps.

Variable rd : swaylock_state -> swaylock_surface -> bool.


End LockSteps.

(** ** done_guarded *)

Lemma done_guarded_neutral acts l :
  Forall (fun a => create_neutral a = true) acts ->
  done_guarded l -> done_guarded (acts ++ l).
Proof.
  induction 1 as [|a acts Ha _ IH]; simpl; [auto|].
  intros H. split; [|auto].
  destruct a; simpl in Ha; try discriminate; exact I.
Qed.

Lemma done_guarded_delivery e w r :
  delivery w e r -> done_guarded (log w) -> done_guarded (log (final r)).
Proof.
  intros D H.
  destruct D as [e Hl|e w' acts Hl Hq C L M|p serial wd ht sf w' Fs Hk C L
                |p sf img acts Fs Hc Hr M|name|name p sf Fo Fs|Hl|Hl]; simpl.
  - exact H.
  - rewrite L, app_snoc. apply done_guarded_neutral; [|exact H].
    apply Forall_snoc.
    + eapply Forall_class; [|exact M].
      intros a Ha. apply minor_plain, plain_parts in Ha. tauto.
    + apply quiet_plain, plain_parts in Hq. tauto.
  - rewrite L. simpl. auto.
  - rewrite <- app_assoc. apply done_guarded_neutral.
    + eapply Forall_class; [|exact M].
      intros a Ha. apply minor_plain, plain_parts in Ha. tauto.
    + simpl. split; [eauto|]. auto.
  - auto.
  - split; [exact I|]. split; [exact I|].
    rewrite <- app_assoc. apply done_guarded_neutral.
    + eapply Forall_class; [|apply destroy_requests_minor].
      intros a Ha. apply minor_plain, plain_parts in Ha. tauto.
    + simpl. auto.
  - auto.
  - auto.
Qed.

Section DoneSteps.

Variable rd : swaylock_state -> swaylock_surface -> bool.

Lemma done_guarded_step w w' :
  step rd inert w w' -> done_guarded (log w) -> done_guarded (log w').
Proof.
  intros St H. destruct St as [w' acts F L N|e|p sf img acts Fs Hc Hs M].
  - rewrite L. apply done_guarded_neutral; [|exact H].
    eapply Forall_class; [|exact N].
    intros a Ha. apply inert_plain, plain_parts in Ha. tauto.
  - eapply done_guarded_delivery; [apply (deliver_spec rd)|exact H].
  - simpl. rewrite <- app_assoc. apply done_guarded_neutral.
    + eapply Forall_class; [|exact M].
      intros a Ha. apply minor_plain, plain_parts in Ha. tauto.
    + simpl. split; [|auto].
      intros [Hin|Hin]; [discriminate|].
      rewrite Forall_forall in Hs. apply Hs in Hin. discriminate.
Qed.

End DoneSteps.

(** ** created_once *)

Lemma not_in_find_none p l :
  ~ In p (map fst l) -> find_surface p l = None.
Proof.
  intros Hn. destruct (find_surface p l) eqn:F; [|reflexivity].
  exfalso. apply Hn. eapply find_some_in; eauto.
Qed.

Lemma count_neutral p acts l :
  Forall (fun a => create_neutral a = true) acts ->
  filter (is_get_lock_surface p) (acts ++ l) = filter (is_get_lock_surface p) l.
Proof.
  induction 1 as [|a acts Ha _ IH]; simpl; [reflexivity|].
  destruct a; simpl in Ha; try discriminate; simpl; exact IH.
Qed.

Lemma in_get_neutral p acts l :
  Forall (fun a => create_neutral a = true) acts ->
  In (GetLockSurface p) (acts ++ l) -> In (GetLockSurface p) l.
Proof.
  intros N Hin. apply in_app_or in Hin as [Hin|Hin]; [|exact Hin].
  rewrite Forall_forall in N. apply N in Hin. discriminate.
Qed.

Lemma count_zero p l :
  ~ In (GetLockSurface p) l -> filter (is_get_lock_surface p) l = [].
Proof.
  induction l as [|a l IH]; simpl; [reflexivity|].
  intros Hn. destruct a; simpl; try (apply IH; tauto).
  destruct (Nat.eqb_spec p0 p) as [->|Hne].
  - exfalso. apply Hn. left. reflexivity.
  - apply IH. tauto.
Qed.

Lemma created_once_neutral w w' acts :
  next_ptr w' = next_ptr w ->
  skeleton (surfaces (st w')) = skeleton (surfaces (st w)) ->
  log w' = acts ++ log w ->
  Forall (fun a => create_neutral a = true) acts ->
  created_once w -> created_once w'.
Proof.
  intros Hn Hs L N [Hh H]. split.
  - eapply heap_ok_same; [apply skeleton_ptrs; exact Hs|exact Hn|exact Hh].
  - intros p. destruct (H p) as [Hc Hi]. rewrite L, Hn. split.
    + rewrite count_neutral by exact N. exact Hc.
    + intros Hin. apply in_get_neutral in Hin; [|exact N].
      destruct (Hi Hin) as [Hlt Hcr]. split; [exact Hlt|].
      intros sf' Fs'.
      pose proof (find_skeleton _ _ p Hs) as Hk. rewrite Fs' in Hk.
      destruct (find_surface p (surfaces (st w))) as [sf|] eqn:Fs; [|contradiction].
      destruct Hk as [-> _]. apply Hcr. reflexivity.
Qed.

Lemma created_once_create w p sf img :
  find_surface p (surfaces (st w)) = Some sf ->
  created sf = false ->
  created_once w ->
  created_once
    (upd (fun s => set_surfaces
                     (update_surface p (set_created img) (surfaces s)) s)
         [GetLockSurface p] w).
Proof.
  intros Fs Hc [Hh H]. split.
  - eapply heap_ok_same; [| |exact Hh]; simpl; [apply ptrs_update|reflexivity].
  - intros q. destruct (H q) as [Hcnt Hi]. simpl.
    destruct (Nat.eqb_spec p q) as [<-|Hne].
    + assert (Hnot : ~ In (GetLockSurface p) (log w)).
      { intros Hin. destruct (H p) as [_ Hp]. destruct (Hp Hin) as [_ Hcr].
        rewrite (Hcr sf Fs) in Hc. discriminate. }
      split.
      * rewrite count_zero by exact Hnot. simpl. lia.
      * intros _. split.
        -- apply Hh. eapply find_some_in; eauto.
        -- intros sf'. rewrite find_update_same, Fs. simpl.
           intros [= <-]. reflexivity.
    + split; [exact Hcnt|].
      intros [Heq|Hin]; [congruence|].
      destruct (Hi Hin) as [Hlt Hcr]. split; [exact Hlt|].
      intros sf'. rewrite find_update_other by auto. apply Hcr.
Qed.

(** Creating a surface that is not yet created, with what is logged
    before and after the request. *)
Lemma created_once_creation w p sf img before after :
  find_surface p (surfaces (st w)) = Some sf ->
  created sf = false ->
  Forall (fun a => create_neutral a = true) before ->
  Forall (fun a => create_neutral a = true) after ->
  created_once w ->
  created_once
    (upd (fun s => set_surfaces
                     (update_surface p (set_created img) (surfaces s)) s)
         (after ++ GetLockSurface p :: before) w).
Proof.
  intros Fs Hc Nb Na H.
  assert (H1 : created_once (upd (fun s => s) before w)).
  { eapply created_once_neutral with (w := w) (acts := before);
      [reflexivity|reflexivity|reflexivity|exact Nb|exact H]. }
  pose proof (created_once_create (upd (fun s => s) before w) p sf img Fs Hc H1)
    as H2.
  eapply created_once_neutral with (acts := after);
    [| | |exact Na|exact H2]; try reflexivity.
  simpl. rewrite <- app_assoc. reflexivity.
Qed.

Lemma created_once_delivery e w r :
  delivery w e r -> created_once w -> created_once (final r).
Proof.
  intros D H.
  destruct D as [e Hl|e w' acts Hl Hq C L M|p serial wd ht sf w' Fs Hk C L
                |p sf img acts Fs Hc Hr M|name|name p sf Fo Fs|Hl|Hl]; simpl.
  - exact H.
  - rewrite app_snoc in L.
    eapply created_once_neutral with (w := w); [apply C|apply C|exact L| |exact H].
    apply Forall_snoc.
    + eapply Forall_class; [|exact M].
      intros a Ha. apply minor_plain, plain_parts in Ha. tauto.
    + apply quiet_plain, plain_parts in Hq. tauto.
  - eapply created_once_neutral with (w := w) (acts := [_; _; _]);
      [apply C|apply C|exact L| |exact H].
    repeat constructor.
  - apply (created_once_creation w p sf img
             [CreateSurface p; Recv (EvOutputDone p)] acts);
      [exact Fs|exact Hc|repeat constructor| |exact H].
    eapply Forall_class; [|exact M].
    intros a Ha. apply minor_plain, plain_parts in Ha. tauto.
  - destruct H as [Hh H]. split; [apply heap_ok_added; exact Hh|].
    intros p. destruct (H p) as [Hcnt Hi]. simpl. split; [exact Hcnt|].
    intros [Heq|[Heq|Hin]]; try discriminate.
    destruct (Hi Hin) as [Hlt Hcr]. split; [lia|].
    intros sf.
    destruct (Nat.eqb_spec (next_ptr w) p) as [Heq|Hne]; [lia|]. apply Hcr.
  - destruct H as [Hh H]. split; [apply heap_ok_removed; exact Hh|].
    intros q. destruct (H q) as [Hcnt Hi]. simpl.
    assert (N : Forall (fun a => create_neutral a = true)
                  (destroy_requests p sf ++ [Recv (EvGlobalRemove name)])).
    { apply Forall_snoc; [|reflexivity].
      eapply Forall_class; [|apply destroy_requests_minor].
      intros a Ha. apply minor_plain, plain_parts in Ha. tauto. }
    split.
    + rewrite count_neutral by exact N. exact Hcnt.
    + intros [Heq|[Heq|Hin]]; try discriminate.
      apply in_get_neutral in Hin; [|exact N].
      destruct (Hi Hin) as [Hlt Hcr]. split; [exact Hlt|].
      intros sf'. destruct (Nat.eq_dec q p) as [->|Hne].
      * rewrite find_remove_same by apply Hh. discriminate.
      * rewrite find_remove_other by exact Hne. apply Hcr.
  - eapply created_once_neutral with (w := w) (acts := [_]);
      [reflexivity|reflexivity|reflexivity| |exact H].
    repeat constructor.
  - eapply created_once_neutral with (w := w) (acts := [_]);
      [reflexivity|reflexivity|reflexivity| |exact H].
    repeat constructor.
Qed.

Section CreateSteps.

Variable rd : swaylock_state -> swaylock_surface -> bool.

Lemma created_once_step w w' :
  step rd inert w w' -> created_once w -> created_once w'.
Proof.
  intros St H. destruct St as [w' acts F L N|e|p sf img acts Fs Hc Hs M].
  - eapply created_once_neutral with (w := w); [apply F|apply F|exact L| |exact H].
    eapply Forall_class; [|exact N].
    intros a Ha. apply inert_plain, plain_parts in Ha. tauto.
  - eapply created_once_delivery; [apply (deliver_spec rd)|exact H].
  - apply (created_once_creation w p sf img [CreateSurface p] acts);
      [exact Fs|exact Hc|repeat constructor| |exact H].
    eapply Forall_class; [|exact M].
    intros a Ha. apply minor_plain, plain_parts in Ha. tauto.
Qed.

End CreateSteps.

(** ** freed_gone *)

Lemma in_free_neutral p acts l :
  Forall (fun a => free_neutral a = true) acts ->
  In (Free p) (acts ++ l) -> In (Free p) l.
Proof.
  intros N Hin. apply in_app_or in Hin as [Hin|Hin]; [|exact Hin].
  rewrite Forall_forall in N. apply N in Hin. discriminate.
Qed.

Lemma no_ack_neutral acts l :
  Forall (fun a => free_neutral a = true) acts ->
  no_ack_after_free l -> no_ack_after_free (acts ++ l).
Proof.
  induction 1 as [|a acts Ha _ IH]; simpl; [auto|].
  intros H. split; [|auto].
  destruct a; simpl in Ha; try discriminate; exact I.
Qed.

Lemma freed_gone_neutral w w' acts :
  next_ptr w' = next_ptr w ->
  map fst (surfaces (st w')) = map fst (surfaces (st w)) ->
  log w' = acts ++ log w ->
  Forall (fun a => free_neutral a = true) acts ->
  freed_gone w -> freed_gone w'.
Proof.
  intros Hn Hs L N (Hh & Ha & Hf). split; [|split].
  - eapply heap_ok_same; eauto.
  - rewrite L. apply no_ack_neutral; assumption.
  - intros p. rewrite L, Hn. intros Hin.
    apply in_free_neutral in Hin; [|exact N].
    destruct (Hf p Hin) as [Hlt Hnone]. split; [exact Hlt|].
    apply not_in_find_none. rewrite Hs.
    apply find_none_not_in. exact Hnone.
Qed.

Lemma freed_gone_delivery e w r :
  delivery w e r -> freed_gone w -> freed_gone (final r).
Proof.
  intros D H.
  destruct D as [e Hl|e w' acts Hl Hq C L M|p serial wd ht sf w' Fs Hk C L
                |p sf img acts Fs Hc Hr M|name|name p sf Fo Fs|Hl|Hl]; simpl.
  - exact H.
  - rewrite app_snoc in L.
    eapply freed_gone_neutral with (w := w);
      [apply C|apply cosmetic_ptrs; exact C|exact L| |exact H].
    apply Forall_snoc.
    + eapply Forall_class; [|exact M].
      intros a Ha. apply minor_plain, plain_parts in Ha. tauto.
    + apply quiet_plain, plain_parts in Hq. tauto.
  - destruct H as (Hh & Ha & Hf). split; [|split].
    + eapply heap_ok_same; [apply cosmetic_ptrs; exact C|apply C|exact Hh].
    + rewrite L. simpl. repeat split; try exact Ha.
      intros [Heq|Hin]; [discriminate|].
      destruct (Hf p Hin) as [_ Hnone]. congruence.
    + intros q. rewrite L. simpl.
      intros [Heq|[Heq|[Heq|Hin]]]; try discriminate.
      destruct (Hf q Hin) as [Hlt Hnone].
      pose proof (cosmetic_ptrs w w' C) as Hp.
      destruct C as (-> & _). split; [exact Hlt|].
      apply not_in_find_none. rewrite Hp.
      apply find_none_not_in. exact Hnone.
  - eapply freed_gone_neutral with (w := w);
      [reflexivity|simpl; apply ptrs_update|reflexivity| |exact H].
    apply Forall_app. split; [|repeat constructor].
    eapply Forall_class; [|exact M].
    intros a Ha. apply minor_plain, plain_parts in Ha. tauto.
  - destruct H as (Hh & Ha & Hf). split; [|split].
    + apply heap_ok_added. exact Hh.
    + simpl. auto.
    + intros q. simpl. intros [Heq|[Heq|Hin]]; try discriminate.
      destruct (Hf q Hin) as [Hlt Hnone]. split; [lia|].
      destruct (Nat.eqb_spec (next_ptr w) q) as [Heq|Hne]; [lia|exact Hnone].
  - destruct H as (Hh & Ha & Hf).
    assert (N : Forall (fun a => free_neutral a = true)
                  (destroy_requests p sf ++ [Recv (EvGlobalRemove name)])).
    { apply Forall_snoc; [|reflexivity].
      eapply Forall_class; [|apply destroy_requests_minor].
      intros a Ha'. apply minor_plain, plain_parts in Ha'. tauto. }
    split; [|split].
    + apply heap_ok_removed. exact Hh.
    + simpl. split; [exact I|]. split; [exact I|].
      apply no_ack_neutral; assumption.
    + intros q. simpl. intros [Heq|[Heq|Hin]]; try discriminate.
      * injection Heq as <-. split.
        -- apply Hh. eapply find_some_in; eauto.
        -- apply find_remove_same. apply Hh.
      * apply in_free_neutral in Hin; [|exact N].
        destruct (Hf q Hin) as [Hlt Hnone]. split; [exact Hlt|].
        apply not_in_find_none. intros Hin'.
        apply (ptrs_remove p) in Hin'.
        revert Hin'. apply find_none_not_in. exact Hnone.
  - eapply freed_gone_neutral with (w := w) (acts := [_]);
      [reflexivity|reflexivity|reflexivity| |exact H].
    repeat constructor.
  - eapply freed_gone_neutral with (w := w) (acts := [_]);
      [reflexivity|reflexivity|reflexivity| |exact H].
    repeat constructor.
Qed.

Section FreeSteps.

Variable rd : swaylock_state -> swaylock_surface -> bool.

Lemma freed_gone_step w w' :
  step rd inert w w' -> freed_gone w -> freed_gone w'.
Proof.
  intros St H. destruct St as [w' acts F L N|e|p sf img acts Fs Hc Hs M].
  - eapply freed_gone_neutral with (w := w);
      [apply F|apply frame_ptrs; exact F|exact L| |exact H].
    eapply Forall_class; [|exact N].
    intros a Ha. apply inert_plain, plain_parts in Ha. tauto.
  - eapply freed_gone_delivery; [apply (deliver_spec rd)|exact H].
  - eapply freed_gone_neutral with (w := w);
      [reflexivity|simpl; apply ptrs_update|reflexivity| |exact H].
    apply Forall_app. split; [|repeat constructor].
    eapply Forall_class; [|exact M].
    intros a Ha. apply minor_plain, plain_parts in Ha. tauto.
Qed.

(** ** Invariants along a run *)

Lemma reach_invariant (I : world -> Prop) S w w' :
  (forall a, S a = true -> inert a = true) ->
  (forall u u', step rd inert u u' -> I u -> I u') ->
  reach rd S w w' -> I w -> I w'.
Proof.
  intros HS Hstep R Hw. induction R as [|w1 w2 R IH St]; [exact Hw|].
  apply (Hstep w1 w2); [|exact IH].
  destruct St as [w2 acts F L N|e|p sf img acts Fs Hc Hs M].
  - eapply step_other; eauto. eapply Forall_class; [exact HS|exact N].
  - apply step_deliver.
  - eapply step_create; eauto.
Qed.

Lemma reach_trans S w1 w2 w3 :
  reach rd S w1 w2 -> reach rd S w2 w3 -> reach rd S w1 w3.
Proof.
  intros R1 R2. induction R2 as [|w3 w4 R2 IH St]; [exact R1|].
  eapply reach_step; eauto.
Qed.

End FreeSteps.

(** ** What a delivery leaves alone *)



Section DeliverFacts.

Variable rd : swaylock_state -> swaylock_surface -> bool.




Lemma fields_delivery e w r :
  delivery w e r ->
  args (st (final r)) = args (st w)
  /\ run_display (st (final r)) = run_display (st w)
  /\ ext_session_lock_v1 (st (final r)) = ext_session_lock_v1 (st w)
  /\ password (st (final r)) = password (st w).
Proof.
  intros D.
  destruct D as [e Hl|e w' acts Hl Hq C L M|p serial wd ht sf w' Fs Hk C L
                |p sf img acts Fs Hc Hr M|name|name p sf Fo Fs|Hl|Hl]; simpl;
    try tauto.
  - unfold cosmetic in C. tauto.
  - unfold cosmetic in C. tauto.
Qed.

Lemma starting_neutral w w' acts :
  run_display (st w') = run_display (st w) ->
  skeleton (surfaces (st w')) = skeleton (surfaces (st w)) ->
  log w' = acts ++ log w ->
  Forall (fun a => special a = false) acts ->
  starting w -> starting w'.
Proof.
  intros Hr Hs L N (H1 & H2 & H3). split; [congruence|split].
  - rewrite Hs. exact H2.
  - rewrite L. apply Forall_app. split; assumption.
Qed.

Lemma minor_all_not_special acts :
  all_minor acts -> Forall (fun a => special a = false) acts.
Proof. apply Forall_impl. apply minor_not_special. Qed.

Lemma uncreated_remove p l :
  Forall (fun x : ptr * (bool * bool) => fst (snd x) = false) (skeleton l) ->
  Forall (fun x : ptr * (bool * bool) => fst (snd x) = false)
         (skeleton (remove_surface p l)).
Proof.
  induction l as [|[q s] l IH]; simpl; intros H; [exact H|].
  inversion H as [|? ? Hq Hl]; subst.
  destruct (Nat.eqb q p); simpl; [exact Hl|].
  constructor; [exact Hq|auto].
Qed.

Lemma uncreated_find p l sf :
  Forall (fun x : ptr * (bool * bool) => fst (snd x) = false) (skeleton l) ->
  find_surface p l = Some sf -> created sf = false.
Proof.
  induction l as [|[q s] l IH]; simpl; intros H; [discriminate|].
  inversion H as [|? ? Hq Hl]; subst.
  destruct (Nat.eqb q p); [intros [= <-]; exact Hq|auto].
Qed.

Lemma starting_delivery e w r :
  delivery w e r -> starting w -> starting (final r).
Proof.
  intros D H.
  destruct D as [e Hl|e w' acts Hl Hq C L M|p serial wd ht sf w' Fs Hk C L
                |p sf img acts Fs Hc Hr M|name|name p sf Fo Fs|Hl|Hl]; simpl.
  - exact H.
  - rewrite app_snoc in L.
    eapply starting_neutral with (w := w); [apply C|apply C|exact L| |exact H].
    apply Forall_app. split; [apply minor_all_not_special; exact M|].
    repeat constructor.
  - eapply starting_neutral with (w := w) (acts := [_; _; _]);
      [apply C|apply C|exact L| |exact H].
    repeat constructor.
  - destruct H as (H1 & _). congruence.
  - destruct H as (H1 & H2 & H3). split; [exact H1|split].
    + simpl. constructor; [reflexivity|exact H2].
    + simpl. repeat constructor. exact H3.
  - destruct H as (H1 & H2 & H3). split; [exact H1|split].
    + simpl. apply uncreated_remove. exact H2.
    + simpl. constructor; [reflexivity|]. constructor; [reflexivity|].
      apply Forall_app. split; [|exact H3].
      apply Forall_app. split; [|repeat constructor].
      apply minor_all_not_special, destroy_requests_minor.
  - eapply starting_neutral with (w := w) (acts := [_]);
      [reflexivity|reflexivity|reflexivity| |exact H].
    repeat constructor.
  - eapply starting_neutral with (w := w) (acts := [_]);
      [reflexivity|reflexivity|reflexivity| |exact H].
    repeat constructor.
Qed.

End DeliverFacts.

(** ** Computations as sequences of steps *)

Section Reach.

Variable rd : swaylock_state -> swaylock_surface -> bool.
Variable S : action -> bool.
Hypothesis S_minor : forall a, minor a = true -> S a = true.

Lemma sound_refl w : sound rd S w w.
Proof. split; [apply reach_refl|reflexivity]. Qed.

Lemma sound_trans w1 w2 w3 :
  sound rd S w1 w2 -> sound rd S w2 w3 -> sound rd S w1 w3.
Proof.
  intros [R1 A1] [R2 A2]. split; [eapply reach_trans; eauto|congruence].
Qed.

Lemma sound_bind {A B} (m : M A) (k : A -> M B) w :
  sound rd S w (final (m w)) ->
  (forall a w', m w = Go a w' -> sound rd S w' (final (k a w'))) ->
  sound rd S w (final (bind m k w)).
Proof.
  intros Hm Hk. unfold bind. destruct (m w) as [a w'|h w'] eqn:E; simpl in *.
  - eapply sound_trans; [exact Hm|]. apply Hk. reflexivity.
  - exact Hm.
Qed.

Lemma sound_other w w' acts :
  frame w w' -> args (st w') = args (st w) ->
  log w' = acts ++ log w ->
  Forall (fun a => S a = true) acts ->
  sound rd S w w'.
Proof.
  intros F A L N. split; [|exact A].
  eapply reach_step; [apply reach_refl|]. eapply step_other; eauto.
Qed.

Lemma sound_quiet {A} (m : M A) w :
  quiet_at m w -> sound rd S w (final (m w)).
Proof.
  intros (a & w' & acts & E & C & L & M). rewrite E. simpl.
  eapply sound_other; [apply cosmetic_frame; exact C|apply C|exact L|].
  eapply Forall_class; [exact S_minor|exact M].
Qed.

Lemma sound_emit a w : S a = true -> sound rd S w (final (emit a w)).
Proof.
  intros Ha. apply sound_other with (acts := [a]);
    [unfold frame; simpl; tauto|reflexivity|reflexivity|].
  constructor; [exact Ha|constructor].
Qed.

Lemma sound_flag f b w :
  f <> F_locked -> sound rd S w (final (modify (set_flag f b) w)).
Proof.
  intros Hf. apply sound_other with (acts := []);
    [|reflexivity|reflexivity|constructor].
  unfold frame; simpl. destruct f; first [tauto|congruence].
Qed.

Lemma sound_guard b code w : sound rd S w (final (guard b code w)).
Proof. destruct b; apply sound_refl. Qed.

Lemma sound_when (b : bool) (m : M unit) w :
  sound rd S w (final (m w)) -> sound rd S w (final (when b m w)).
Proof. destruct b; simpl; [auto|intros _; apply sound_refl]. Qed.

Lemma sound_deliver e w : sound rd S w (final (deliver rd e w)).
Proof.
  split.
  - eapply reach_step; [apply reach_refl|apply step_deliver].
  - apply (fields_delivery e w _ (deliver_spec rd e w)).
Qed.

Lemma sound_dispatch_events evs :
  forall w, sound rd S w (final (dispatch_events rd evs w)).
Proof.
  induction evs as [|e evs IH]; intros w; simpl.
  - apply sound_refl.
  - apply sound_bind; [apply sound_deliver|]. intros _ w' _. apply IH.
Qed.

Lemma sound_wl_display_dispatch d w :
  sound rd S w (final (wl_display_dispatch rd d w)).
Proof.
  destruct d as [|evs]; unfold wl_display_dispatch.
  - apply sound_bind; [apply sound_emit, S_minor; reflexivity|].
    intros _ w' _. apply sound_refl.
  - apply sound_bind; [apply sound_dispatch_events|].
    intros _ w' _. apply sound_refl.
Qed.

Lemma sound_wl_display_roundtrip d w :
  sound rd S w (final (wl_display_roundtrip rd d w)).
Proof.
  unfold wl_display_roundtrip.
  apply sound_bind; [apply sound_emit, S_minor; reflexivity|].
  intros _ w' _. apply sound_wl_display_dispatch.
Qed.

Lemma sound_display_in d w : sound rd S w (final (display_in rd d w)).
Proof.
  unfold display_in. apply sound_bind; [apply sound_wl_display_dispatch|].
  intros ok w' _. apply sound_when. apply sound_flag. discriminate.
Qed.

Lemma sound_comm_in mask reply w :
  sound rd S w (final (comm_in rd mask reply w)).
Proof.
  unfold comm_in.
  destruct (negb (Z.land mask POLLIN =? 0)).
  - destruct reply as [[|]|].
    + apply sound_flag. discriminate.
    + apply sound_bind.
      { apply sound_other with (acts := []);
          [unfold frame; simpl; tauto|reflexivity|reflexivity|constructor]. }
      intros _ w1 _. apply sound_bind.
      { apply sound_emit, S_minor. reflexivity. }
      intros _ w2 _. apply sound_bind; [apply sound_refl|].
      intros s w3 _. apply sound_bind.
      { destruct (failed_attempts s <? INT_MAX); [|apply sound_refl].
        apply sound_other with (acts := []);
          [unfold frame; simpl; tauto|reflexivity|reflexivity|constructor]. }
      intros _ w4 _. apply sound_quiet. apply quiet_damage_state.
    + apply sound_refl.
  - destruct (negb (Z.land mask (Z.lor POLLHUP POLLERR) =? 0)); apply sound_refl.
Qed.

Lemma sound_term_in w : sound rd S w (final (term_in w)).
Proof. apply sound_flag. discriminate. Qed.

Lemma sound_wait_locked ds :
  forall w, sound rd S w (final (wait_locked rd ds w)).
Proof.
  induction ds as [|d ds IH]; intros w; simpl.
  - apply sound_bind; [apply sound_refl|].
    intros s w' _. destruct (locked s); apply sound_refl.
  - apply sound_bind; [apply sound_refl|].
    intros s w' _. destruct (locked s); [apply sound_refl|].
    apply sound_bind; [apply sound_wl_display_dispatch|].
    intros ok w1 _. apply sound_bind; [apply sound_guard|].
    intros _ w2 _. apply IH.
Qed.

Section Loop.

Hypothesis S_ready : forall r, S (Ready r) = true.
Hypothesis S_flush : forall b, S (Flush b) = true.

Lemma sound_loop_poll rs :
  forall w, sound rd S w (final (loop_poll rd rs w)).
Proof.
  induction rs as [|r rs IH]; intros w; simpl.
  - apply sound_refl.
  - apply sound_bind; [apply sound_emit, S_ready|].
    intros _ w1 _. apply sound_bind.
    + destruct r as [d|mask reply|]; simpl.
      * apply sound_display_in.
      * apply sound_comm_in.
      * apply sound_term_in.
    + intros _ w2 _. apply IH.
Qed.

Lemma sound_event_loop its :
  forall w, sound rd S w (final (event_loop rd its w)).
Proof.
  induction its as [|it its IH]; intros w; simpl.
  - apply sound_bind; [apply sound_refl|].
    intros s w' _. destruct (run_display s); apply sound_refl.
  - apply sound_bind; [apply sound_refl|].
    intros s w' _. destruct (run_display s); [|apply sound_refl].
    apply sound_bind; [apply sound_emit, S_flush|].
    intros _ w1 _. destruct (flush_fatal it); [apply sound_refl|].
    apply sound_bind; [apply sound_loop_poll|].
    intros _ w2 _. apply IH.
Qed.

End Loop.

End Reach.

(** ** What a run logs *)


Section RunLog.

Variable rd : swaylock_state -> swaylock_surface -> bool.



Lemma starting_dispatch_events evs :
  forall w, starting w -> starting (final (dispatch_events rd evs w)).
Proof.
  induction evs as [|e evs IH]; intros w H; simpl; [exact H|].
  pose proof (starting_delivery e w _ (deliver_spec rd e w) H) as Hd.
  unfold bind. destruct (deliver rd e w) as [[] w1|h w1]; simpl in *; auto.
Qed.

Lemma starting_roundtrip d w :
  starting w -> starting (final (wl_display_roundtrip rd d w)).
Proof.
  intros H. unfold wl_display_roundtrip, wl_display_dispatch, bind, emit.
  set (w1 := {| st := st w; next_ptr := next_ptr w; log := Roundtrip :: log w |}).
  assert (H1 : starting w1).
  { eapply starting_neutral with (w := w) (acts := [_]);
      [reflexivity|reflexivity|reflexivity|repeat constructor|exact H]. }
  destruct d as [|evs].
  - simpl. eapply starting_neutral with (w := w1) (acts := [_]);
      [reflexivity|reflexivity|reflexivity|repeat constructor|exact H1].
  - pose proof (starting_dispatch_events evs w1 H1) as H2.
    destruct (dispatch_events rd evs w1); exact H2.
Qed.

(** [create_surface] on a live surface. *)
Lemma create_surface_eq p w sf :
  find_surface p (surfaces (st w)) = Some sf ->
  exists acts,
    all_minor acts
    /\ create_surface p w
       = Go tt (upd (fun s => set_surfaces
                                (update_surface p
                                   (set_created (select_image (st w) sf))
                                   (surfaces s)) s)
                    (acts ++ [GetLockSurface p; CreateSurface p]) w).
Proof.
  intros Fs.
  set (img := select_image (st w) sf).
  set (opaque := (surface_is_opaque (st w) (set_created img sf)
      && negb (background_mode_eqb (mode (args (st w))) BACKGROUND_MODE_CENTER)
      && negb (background_mode_eqb (mode (args (st w))) BACKGROUND_MODE_FIT))%bool).
  exists (if opaque then [SetOpaqueRegion p] else []). split.
  - destruct opaque; repeat constructor.
  - unfold create_surface, surface_at, with_surface, bind, get, emit, modify,
      when, ret. cbn. rewrite Fs. cbn. fold img. fold opaque.
    destruct opaque; reflexivity.
Qed.

End RunLog.

(** ** The parts of main *)

Section Phases.

Variable rd : swaylock_state -> swaylock_surface -> bool.
Variable S : action -> bool.
Hypothesis S_minor : forall a, minor a = true -> S a = true.

Lemma heap_ok_reach w w' : reach rd S w w' -> heap_ok w -> heap_ok w'.
Proof.
  induction 1 as [|w1 w2 R IH St]; [auto|].
  intros H. eapply heap_ok_step; eauto.
Qed.

Lemma sound_create p w sf :
  find_surface p (surfaces (st w)) = Some sf ->
  created sf = false ->
  Forall (fun a => special a = false) (log w) ->
  sound rd S w (final (create_surface p w)).
Proof.
  intros Fs Hc Hs.
  destruct (create_surface_eq p w sf Fs) as (acts & M & ->). simpl.
  split; [|reflexivity].
  eapply reach_step; [apply reach_refl|].
  eapply step_create; eauto.
Qed.

Lemma sound_create_each ps :
  forall w,
    NoDup ps ->
    (forall p, In p ps ->
       exists sf, find_surface p (surfaces (st w)) = Some sf
                  /\ created sf = false) ->
    Forall (fun a => special a = false) (log w) ->
    sound rd S w (final (create_each ps w)).
Proof.
  induction ps as [|p ps IH]; intros w Hnd Hall Hs; simpl.
  - apply sound_refl.
  - destruct (Hall p (or_introl eq_refl)) as (sf & Fs & Hc).
    apply sound_bind; [eapply sound_create; eauto|].
    intros [] w1 E.
    destruct (create_surface_eq p w sf Fs) as (acts & M & E').
    rewrite E' in E. injection E as <-.
    inversion Hnd as [|? ? Hp Hnd']; subst.
    apply IH; [exact Hnd'| |].
    + intros q Hq. destruct (Hall q (or_intror Hq)) as (sq & Fq & Hcq).
      exists sq. split; [|exact Hcq]. simpl.
      rewrite find_update_other; [exact Fq|]. intros ->. contradiction.
    + simpl. apply Forall_app. split; [|exact Hs].
      apply Forall_app. split; [apply minor_all_not_special; exact M|].
      repeat constructor.
Qed.


Lemma early_refl w : early rd S w w.
Proof. split; [apply sound_refl|auto]. Qed.

Lemma early_bind {A B} (m : M A) (k : A -> M B) w :
  early rd S w (final (m w)) ->
  (forall a w', m w = Go a w' -> early rd S w' (final (k a w'))) ->
  early rd S w (final (bind m k w)).
Proof.
  intros [Sm Tm] Hk. unfold bind.
  destruct (m w) as [a w'|h w'] eqn:E; simpl in *.
  - destruct (Hk a w' eq_refl) as [Sk Tk].
    split; [eapply sound_trans; eauto|auto].
  - split; assumption.
Qed.

Lemma early_emit a w : minor a = true -> early rd S w (final (emit a w)).
Proof.
  intros Ha. split; [apply sound_emit; auto|].
  intros H. eapply starting_neutral with (w := w) (acts := [a]);
    [reflexivity|reflexivity|reflexivity| |exact H].
  constructor; [apply minor_not_special; exact Ha|constructor].
Qed.

Lemma early_guard b code w : early rd S w (final (guard b code w)).
Proof. destruct b; apply early_refl. Qed.

Lemma early_roundtrip d w :
  early rd S w (final (wl_display_roundtrip rd d w)).
Proof.
  split; [apply sound_wl_display_roundtrip; exact S_minor|].
  apply starting_roundtrip.
Qed.

Lemma early_flag f b w :
  f <> F_locked -> f <> F_run_display ->
  early rd S w (final (modify (set_flag f b) w)).
Proof.
  intros H1 H2. split; [apply sound_flag; exact H1|].
  intros H. eapply starting_neutral with (w := w) (acts := []);
    [|reflexivity|reflexivity|constructor|exact H].
  simpl. destruct f; first [reflexivity|congruence].
Qed.

Lemma early_then {A B} (m : M A) (k : A -> M B) w :
  early rd S w (final (m w)) -> starting w -> heap_ok w ->
  (forall a w', starting w' -> heap_ok w' -> sound rd S w' (final (k a w'))) ->
  sound rd S w (final (bind m k w)).
Proof.
  intros [Sm Tm] Hst Hh Hk. unfold bind.
  destruct (m w) as [a w'|h w'] eqn:E; simpl in *; [|exact Sm].
  eapply sound_trans; [exact Sm|].
  apply Hk; [auto|]. eapply heap_ok_reach; [apply Sm|exact Hh].
Qed.

(** Connecting keeps the program in its starting state. *)
Lemma connect_early e w :
  surfaces (st w) = [] -> early rd S w (final (connect rd e w)).
Proof.
  intros Hnil. unfold connect.
  apply early_bind.
  { split.
    - apply sound_other with (acts := []);
        [|reflexivity|reflexivity|constructor].
      unfold frame. simpl. rewrite Hnil. tauto.
    - intros (H1 & H2 & H3).
      split; [exact H1|split; [constructor|exact H3]]. }
  intros _ w0 _. apply early_bind; [apply early_guard|].
  intros _ w1 _. apply early_bind; [apply early_roundtrip|].
  intros ok w2 _. apply early_bind; [apply early_guard|].
  intros _ w3 _. apply early_bind; [apply early_refl|].
  intros s w4 _. apply early_bind; [apply early_guard|].
  intros _ w5 _. apply early_bind; [apply early_guard|].
  intros _ w6 _. apply early_bind; [apply early_guard|].
  intros _ w7 _. apply early_guard.
Qed.

(** Requesting the lock: until the surfaces are created the program is
    in its starting state, so each surface is created once. *)
Lemma lock_session_sound e w :
  starting w -> heap_ok w ->
  sound rd S w (final (lock_session rd e w)).
Proof.
  intros Hst Hh. unfold lock_session.
  apply early_then; [apply early_emit; reflexivity|exact Hst|exact Hh|].
  intros _ w1 T1 H1.
  apply early_then; [apply early_flag; discriminate|exact T1|exact H1|].
  intros _ w2 T2 H2.
  apply early_then; [apply early_roundtrip|exact T2|exact H2|].
  intros ok w3 T3 H3.
  apply early_then; [apply early_guard|exact T3|exact H3|].
  intros _ w4 T4 H4.
  apply sound_bind; [apply sound_refl|].
  intros s w5 E. injection E as <- <-.
  apply sound_bind.
  - apply sound_create_each.
    + apply H4.
    + intros p Hin. apply find_in_some in Hin as [sf Fs].
      exists sf. split; [exact Fs|].
      eapply uncreated_find; [apply T4|exact Fs].
    + apply T4.
  - intros _ w6 _. apply sound_wait_locked. exact S_minor.
Qed.

End Phases.

Lemma initial_starting a imgs : starting (initial_world a imgs).
Proof. split; [reflexivity|split; constructor]. Qed.

Lemma initial_heap_ok a imgs : heap_ok (initial_world a imgs).
Proof. split; [constructor|intros p []]. Qed.

Lemma notify_ready_eq n w : notify_ready n w = notified n w.
Proof.
  unfold notify_ready, notified, bind, get, when, guard, emit, modify, ret, exit.
  destruct (0 <=? ready_fd (args (st w))); [|reflexivity].
  cbn. destruct (n =? 1); reflexivity.
Qed.

Section MainPhases.

Variable rd : swaylock_state -> swaylock_surface -> bool.

(** [main] is its start-up, then the readiness report, then the session. *)
Lemma main_split e w :
  main rd e w
  = match startup rd e w with
    | Go _ w1 =>
        match notified (ready_write e) w1 with
        | Go _ w2 => session rd e w2
        | Halt h w2 => Halt h w2
        end
    | Halt h w1 => Halt h w1
    end.
Proof.
  unfold main, startup, session. unfold bind at 1 2 6.
  destruct (connect rd e w) as [[] w0|h w0]; [|reflexivity].
  unfold bind at 1 4.
  destruct (lock_session rd e w0) as [[] w1|h w1]; [|reflexivity].
  unfold bind at 1. rewrite notify_ready_eq.
  destruct (notified (ready_write e) w1) as [[] w2|h w2]; reflexivity.
Qed.


Section Generic.

Variable S : action -> bool.
Hypothesis S_minor : forall a, minor a = true -> S a = true.

Lemma startup_sound e a imgs :
  sound rd S (initial_world a imgs) (final (startup rd e (initial_world a imgs))).
Proof.
  unfold startup.
  apply early_then;
    [apply connect_early; [exact S_minor|reflexivity]
    |apply initial_starting|apply initial_heap_ok|].
  intros _ w' T H. apply lock_session_sound; assumption.
Qed.


Hypothesis S_ready : forall r, S (Ready r) = true.
Hypothesis S_flush : forall b, S (Flush b) = true.
Hypothesis S_add : forall cb, S (LoopAddFd cb) = true.

Lemma sound_detach e w :
  (daemonize_flag (args (st w)) = true -> S Daemonize = true) ->
  sound rd S w (final (detach e w)).
Proof.
  intros Hd. unfold detach. apply sound_bind; [apply sound_refl|].
  intros s w' E. injection E as <- <-.
  destruct (daemonize_flag (args (st w))) eqn:F; simpl; [|apply sound_refl].
  unfold daemonize. apply sound_bind; [apply sound_emit; auto|].
  intros _ w1 _.
  destruct (daemon e) as [|c wr|ok]; try apply sound_refl.
  - destruct c; [destruct wr|]; apply sound_refl.
  - destruct ok; apply sound_refl.
Qed.

Lemma sound_serve e w : sound rd S w (final (serve rd e w)).
Proof.
  unfold serve.
  apply sound_bind; [apply sound_emit, S_add|]. intros _ w1 _.
  apply sound_bind; [apply sound_emit, S_add|]. intros _ w2 _.
  apply sound_bind; [apply sound_emit, S_add|]. intros _ w3 _.
  apply sound_bind; [apply sound_flag; discriminate|]. intros _ w4 _.
  apply sound_event_loop; assumption.
Qed.

Lemma sound_unlock e w :
  S UnlockAndDestroy = true -> sound rd S w (final (unlock rd e w)).
Proof.
  intros Hu. unfold unlock.
  apply sound_bind; [apply sound_emit, Hu|]. intros _ w1 _.
  apply sound_bind; [apply sound_flag; discriminate|]. intros _ w2 _.
  apply sound_bind; [apply sound_wl_display_roundtrip; exact S_minor|].
  intros _ w3 _. apply sound_refl.
Qed.

Lemma sound_session e w :
  (daemonize_flag (args (st w)) = true -> S Daemonize = true) ->
  S UnlockAndDestroy = true ->
  sound rd S w (final (session rd e w)).
Proof.
  intros Hd Hu. unfold session.
  apply sound_bind; [apply sound_detach; exact Hd|]. intros _ w1 _.
  apply sound_bind; [apply sound_serve|]. intros _ w2 _.
  apply sound_unlock. exact Hu.
Qed.

End Generic.

Lemma notified_reach n w :
  reach rd inert w (final (notified n w)).
Proof.
  unfold notified.
  destruct (0 <=? ready_fd (args (st w))); [|apply reach_refl].
  destruct (n =? 1); simpl.
  - eapply reach_step; [apply reach_refl|].
    apply step_other with (acts := [CloseFd (ready_fd (args (st w)));
                                    WriteFd (ready_fd (args (st w))) newline n]);
      [unfold frame; simpl; tauto|reflexivity|repeat constructor].
  - eapply reach_step; [apply reach_refl|].
    apply step_other with (acts := [WriteFd (ready_fd (args (st w))) newline n]);
      [unfold frame; simpl; tauto|reflexivity|repeat constructor].
Qed.

(** A whole run is a sequence of steps. *)
Lemma main_reach e a imgs :
  reach rd inert (initial_world a imgs) (final (run_main rd e a imgs)).
Proof.
  unfold run_main. rewrite main_split.
  pose proof (startup_sound inert minor_inert e a imgs) as [R1 _].
  destruct (startup rd e (initial_world a imgs)) as [[] w1|h w1];
    simpl in R1; [|exact R1].
  pose proof (notified_reach (ready_write e) w1) as R2.
  destruct (notified (ready_write e) w1) as [[] w2|h w2]; simpl in R2.
  - eapply reach_trans; [exact R1|]. eapply reach_trans; [exact R2|].
    apply sound_session; auto using minor_inert.
  - eapply reach_trans; eauto.
Qed.

End MainPhases.

(** ** Invariants of a whole run *)

Section RunInvariants.

Variable rd : swaylock_state -> swaylock_surface -> bool.

Lemma run_acks_match e a imgs :
  acks_match (final (run_main rd e a imgs)).
Proof.
  apply (reach_invariant rd acks_match inert (initial_world a imgs));
    [auto|apply acks_match_step|apply main_reach|].
  intros p. reflexivity.
Qed.

Lemma run_created_once e a imgs :
  created_once (final (run_main rd e a imgs)).
Proof.
  apply (reach_invariant rd created_once inert (initial_world a imgs));
    [auto|apply created_once_step|apply main_reach|].
  split; [apply initial_heap_ok|].
  intros p. simpl. split; [lia|tauto].
Qed.

Lemma run_done_guarded e a imgs :
  done_guarded (log (final (run_main rd e a imgs))).
Proof.
  apply (reach_invariant rd (fun w => done_guarded (log w)) inert
           (initial_world a imgs));
    [auto|apply done_guarded_step|apply main_reach|exact I].
Qed.

Lemma run_freed_gone e a imgs :
  freed_gone (final (run_main rd e a imgs)).
Proof.
  apply (reach_invariant rd freed_gone inert (initial_world a imgs));
    [auto|apply freed_gone_step|apply main_reach|].
  split; [apply initial_heap_ok|]. split; [exact I|]. intros p [].
Qed.




End RunInvariants.

Lemma done_guarded_split post :
  forall pre p,
    done_guarded (post ++ GetLockSurface p :: pre) ->
    In (LoopAddFd display_in_cb) pre ->
    exists pre', pre = CreateSurface p :: Recv (EvOutputDone p) :: pre'.
Proof.
  induction post as [|a post IH]; intros pre p; simpl.
  - intros [H _]. exact H.
  - intros [_ H]. apply IH. exact H.
Qed.

Lemma no_ack_after_free_split post :
  forall pre p serial,
    no_ack_after_free (post ++ AckConfigure p serial :: pre) ->
    ~ In (Free p) pre.
Proof.
  induction post as [|a post IH]; intros pre p serial; simpl.
  - intros [H _]. exact H.
  - intros [_ H]. eapply IH. exact H.
Qed.

(** * The claims *)



Example denied_run :
  halted (run_main render_draws denied_env sample_args [])
  = Some (Exited 2)
  /\ locked (st (final (run_main render_draws denied_env sample_args [])))
     = false
  /\ existsb special
       (log (final (run_main render_draws denied_env sample_args [])))
     = false.
Proof. vm_compute. auto. Qed.

(** C2: for every configure event received on a lock surface, the
    handler stores the width and the height on the surface, acknowledges
    the configure with the serial received, marks the surface dirty and
    renders it; over a whole run, the serials acknowledged on a surface are
    the serials of the configures received on it, in the same order. *)
Theorem configure_acked (rd : swaylock_state -> swaylock_surface -> bool) :
  (forall p serial wd ht w sf,
     find_surface p (surfaces (st w)) = Some sf ->
     exists w' b,
       ext_session_lock_surface_v1_handle_configure rd p serial wd ht w
       = Go tt w'
       /\ log w' = Render p (set_dirty true (set_size wd ht sf))
                   :: AckConfigure p serial :: log w
       /\ find_surface p (surfaces (st w'))
          = Some (set_dirty b (set_size wd ht sf))
       /\ width (set_dirty true (set_size wd ht sf)) = wd
       /\ height (set_dirty true (set_size wd ht sf)) = ht
       /\ dirty (set_dirty true (set_size wd ht sf)) = true)
  /\ (forall e a imgs p,
        acks_of p (log (final (run_main rd e a imgs)))
        = configures_of p (log (final (run_main rd e a imgs)))).
Proof.
  split.
  - intros p serial wd ht w sf Fs.
    unfold ext_session_lock_surface_v1_handle_configure.
    destruct (with_surface_cosmetic p (set_size wd ht) w)
      as (w1 & E1 & C1 & L1 & F1); [intros s; split; reflexivity|].
    rewrite Fs in F1. simpl in F1.
    unfold bind at 1. rewrite E1. unfold bind at 1, emit.
    set (w2 := {| st := st w1; next_ptr := next_ptr w1;
                  log := AckConfigure p serial :: log w1 |}).
    destruct (damage_one_spec rd p w2 _ F1) as (w3 & E3 & C3 & L3 & F3).
    exists w3. eexists. split; [exact E3|].
    split; [rewrite L3; simpl; rewrite L1; reflexivity|].
    split; [exact F3|]. repeat split.
  - intros e a imgs p. apply run_acks_match.
Qed.

Lemma configure_acked_witness :
  acks_of 0%nat (log (final (run_main render_draws sample_env sample_args [])))
  = [13; 11]
  /\ exists w' b,
       ext_session_lock_surface_v1_handle_configure render_draws 0%nat 11 800 600
         {| st := set_surfaces [(0%nat, new_surface 5)]
                    (st awaiting_grant);
            next_ptr := 1%nat; log := [] |}
       = Go tt w'
       /\ find_surface 0%nat (surfaces (st w'))
          = Some (set_dirty b (set_size 800 600 (new_surface 5))).
Proof.
  split.
  - rewrite (proj2 (configure_acked render_draws)). vm_compute. reflexivity.
  - destruct (proj1 (configure_acked render_draws) 0%nat 11 800 600
                {| st := set_surfaces [(0%nat, new_surface 5)]
                           (st awaiting_grant);
                   next_ptr := 1%nat; log := [] |}
                (new_surface 5) eq_refl) as (w' & b & E & _ & F & _).
    exists w', b. split; assumption.
Defined.

Lemma done_when_created p w sf :
  find_surface p (surfaces (st w)) = Some sf ->
  created sf = true ->
  handle_wl_output_done p w = Go tt w.
Proof.
  intros Fs Hc. unfold handle_wl_output_done, surface_at, bind, get.
  rewrite Fs. unfold ret. rewrite Hc. reflexivity.
Qed.

(** C7: over a whole run a lock surface is requested at most once for
    each surface, that is for each output as long as it lives; once the
    event loop is set up, every such request directly follows the receipt
    of the done event of that output; and a done event for a surface that
    is marked created changes nothing. *)
Theorem surface_created_once
  (rd : swaylock_state -> swaylock_surface -> bool) :
  (forall e a imgs p,
     let l := log (final (run_main rd e a imgs)) in
     (List.length (filter (is_get_lock_surface p) l) <= 1)%nat
     /\ forall post pre,
          l = post ++ GetLockSurface p :: pre ->
          In (LoopAddFd display_in_cb) pre ->
          exists pre',
            pre = CreateSurface p :: Recv (EvOutputDone p) :: pre')
  /\ (forall p w sf,
        find_surface p (surfaces (st w)) = Some sf ->
        created sf = true ->
        handle_wl_output_done p w = Go tt w).
Proof.
  split.
  - intros e a imgs p l. split.
    + apply (run_created_once rd e a imgs).
    + intros post pre E Hin.
      pose proof (run_done_guarded rd e a imgs) as H. fold l in H.
      rewrite E in H. eapply done_guarded_split; eauto.
  - apply done_when_created.
Qed.

Lemma surface_created_once_witness :
  let l := log (final (run_main render_draws sample_env sample_args [])) in
  exists pre',
    skipn 23 l = CreateSurface 1%nat :: Recv (EvOutputDone 1%nat) :: pre'.
Proof.
  intros l.
  destruct (proj1 (surface_created_once render_draws)
              sample_env sample_args [] 1%nat) as [_ H].
  apply (H (firstn 22 l) (skipn 23 l)).
  - vm_compute. reflexivity.
  - vm_compute. repeat (first [left; reflexivity|right]).
Defined.

Lemma handle_global_remove_eq name w p sf :
  find_output name (surfaces (st w)) = Some p ->
  find_surface p (surfaces (st w)) = Some sf ->
  handle_global_remove name w
  = Go tt (upd (fun s => set_surfaces (remove_surface p (surfaces s)) s)
               (Free p :: ReleaseOutput p :: destroy_requests p sf) w).
Proof.
  intros Fo Fs.
  unfold handle_global_remove, destroy_surface, surface_at,
    bind, get, emit, modify, when, ret. cbn.
  rewrite Fo. cbn. rewrite Fs. unfold upd, destroy_requests.
  destruct (ext_session_lock_surface_v1 sf), (subsurface sf), (child sf),
    (wl_surface sf); reflexivity.
Qed.

Lemma destroy_requests_no_ack p sf q serial :
  ~ In (AckConfigure q serial)
       (Free p :: ReleaseOutput p :: destroy_requests p sf).
Proof.
  unfold destroy_requests.
  destruct (ext_session_lock_surface_v1 sf), (subsurface sf), (child sf),
    (wl_surface sf); simpl; intuition discriminate.
Qed.

(** C8: when the server withdraws the global of an output, the first
    surface bound to it is taken off the list and destroyed at once, its
    lock surface included, whatever configure may still be on its way; no
    request of the removal is an acknowledgment, a configure event that
    arrives later for that surface finds no listener, and over a whole run
    no acknowledgment for a surface is logged after it was freed. *)
Theorem output_removed (rd : swaylock_state -> swaylock_surface -> bool) :
  (forall name w p sf,
     find_output name (surfaces (st w)) = Some p ->
     find_surface p (surfaces (st w)) = Some sf ->
     handle_global_remove name w
     = Go tt (upd (fun s => set_surfaces (remove_surface p (surfaces s)) s)
                  (Free p :: ReleaseOutput p :: destroy_requests p sf) w)
     /\ (ext_session_lock_surface_v1 sf = true ->
         In (DestroyLockSurface p) (destroy_requests p sf))
     /\ (forall q serial,
           ~ In (AckConfigure q serial)
                (Free p :: ReleaseOutput p :: destroy_requests p sf))
     /\ (NoDup (map fst (surfaces (st w))) ->
         find_surface p (remove_surface p (surfaces (st w))) = None
         /\ forall serial wd ht,
              listening (EvConfigure p serial wd ht)
                (st (final (handle_global_remove name w))) = false))
  /\ (forall e a imgs post pre p serial,
        log (final (run_main rd e a imgs))
        = post ++ AckConfigure p serial :: pre ->
        ~ In (Free p) pre).
Proof.
  split.
  - intros name w p sf Fo Fs.
    pose proof (handle_global_remove_eq name w p sf Fo Fs) as E.
    split; [exact E|]. split; [|split].
    + intros Hl. unfold destroy_requests. rewrite Hl.
      apply in_or_app. right. apply in_or_app. right.
      apply in_or_app. right. left. reflexivity.
    + intros q serial. apply destroy_requests_no_ack.
    + intros Hnd.
      pose proof (find_remove_same p _ Hnd) as Hn.
      split; [exact Hn|].
      intros serial wd ht. rewrite E. simpl. rewrite Hn. reflexivity.
  - intros e a imgs post pre p serial E.
    destruct (run_freed_gone rd e a imgs) as (_ & H & _).
    rewrite E in H. eapply no_ack_after_free_split. exact H.
Qed.

Lemma output_removed_witness :
  let l := log (final (run_main render_draws sample_env sample_args [])) in
  In (Free 0%nat) l
  /\ ~ In (Free 0%nat) (skipn 16 l)
  /\ ~ In (AckConfigure 0%nat 14) l.
Proof.
  intros l. split; [|split].
  - vm_compute. repeat (first [left; reflexivity|right]).
  - apply (proj2 (output_removed render_draws)
             sample_env sample_args [] (firstn 15 l) (skipn 16 l) 0%nat 13).
    vm_compute. reflexivity.
  - vm_compute. intuition discriminate.
Defined.

Section Verdicts.

Variable rd : swaylock_state -> swaylock_surface -> bool.








End Verdicts.







Lemma parse_options_ignore_empty opts :
  forall a,
    exists a',
      parse_options opts (Some a) = Some a'
      /\ (ignore_empty a = true -> ignore_empty a' = true)
      /\ (In Opt_e opts -> ignore_empty a' = true).
Proof.
  unfold parse_options.
  induction opts as [|c opts IH]; intros a; simpl.
  - exists a. split; [reflexivity|]. split; [auto|tauto].
  - destruct c; simpl;
      match goal with
      | |- context [fold_left _ opts (Some ?x)] =>
          destruct (IH x) as (a' & E & Hk & Hi)
      end;
      exists a'; (split; [exact E|]); simpl in Hk;
      (split; [auto|]); intros [Hc|Hin]; try discriminate; auto.
Qed.

(** C9: once [-e] was given, [ignore_empty] is set, and every submit of a
    zero-length secret is then answered locally with a failure: nothing is
    written to the pipe of the checker and the channel stays in the state
    it was in. *)
Theorem empty_secret_short_circuit
  (opts : list option_code) (a : swaylock_args)
  (ch : AuthChannel.channel_state) :
  In Opt_e opts ->
  exists a',
    parse_options opts (Some a) = Some a'
    /\ ignore_empty a' = true
    /\ AuthChannel.submit ch "" (ignore_empty a')
       = (ch, AuthChannel.LocalFailure, []).
Proof.
  intros Hin.
  destruct (parse_options_ignore_empty opts a) as (a' & E & _ & Hi).
  exists a'. split; [exact E|]. specialize (Hi Hin).
  split; [exact Hi|]. rewrite Hi. reflexivity.
Qed.

Lemma empty_secret_short_circuit_witness :
  exists a',
    parse_options [Opt_c "000000"; Opt_e; Opt_F] (Some default_args) = Some a'
    /\ ignore_empty a' = true
    /\ AuthChannel.submit AuthChannel.Idle "" (ignore_empty a')
       = (AuthChannel.Idle, AuthChannel.LocalFailure, []).
Proof.
  apply (empty_secret_short_circuit [Opt_c "000000"; Opt_e; Opt_F]
           default_args AuthChannel.Idle).
  simpl. auto.
Defined.

(** ** The readiness report *)

Section Readiness.

Variable rd : swaylock_state -> swaylock_surface -> bool.





End Readiness.

Example sample_run :
  halted (run_main render_draws sample_env sample_args []) = Some (Exited 0)
  /\ filter is_write
       (log (final (run_main render_draws sample_env sample_args [])))
     = [WriteFd 3 newline 1]
  /\ acks_of 1%nat
       (log (final (run_main render_draws sample_env sample_args [])))
     = [12]
  /\ map fst (surfaces (st (final (run_main render_draws sample_env
                                     sample_args []))))
     = [1%nat].
Proof. vm_compute. auto. Qed.



(** ** The end of the event loop *)

Section Unlocking.

Variable rd : swaylock_state -> swaylock_surface -> bool.






Lemma dispatch_events_unlocked evs :
  forall w, ext_session_lock_v1 (st w) = false ->
            exists u, dispatch_events rd evs w = Go tt u.
Proof.
  induction evs as [|e evs IH]; intros w L; simpl; [eauto|].
  pose proof (deliver_spec rd e w) as D.
  pose proof (fields_delivery e w _ D) as (_ & _ & F & _).
  unfold bind.
  destruct D; simpl in *; try (apply IH; simpl; congruence).
  congruence.
Qed.

End Unlocking.

Section UnlockRun.

Variable rd : swaylock_state -> swaylock_surface -> bool.








End UnlockRun.




(** ** Images *)

Module ImageFacts.
Import Images.

Lemma strcmp_zero (a b : string) : strcmp a b = 0 <-> a = b.
Proof.
  unfold strcmp. split.
  - destruct (String.compare a b) eqn:E; try discriminate.
    intros _. apply String.compare_eq_iff. exact E.
  - intros ->.
    pose proof (String.compare_antisym b b) as A.
    destruct (String.compare b b); simpl in A;
      [reflexivity|discriminate A|discriminate A].
Qed.

Lemma lenient_strcmp_zero (a b : option string) :
  lenient_strcmp a b = 0 <-> a = b.
Proof.
  destruct a as [x|], b as [y|]; simpl.
  - rewrite strcmp_zero. split; [intros ->; reflexivity|congruence].
  - split; discriminate.
  - split; discriminate.
  - split; reflexivity.
Qed.

Lemma lenient_strcmp_named (name : option string) (i : swaylock_image) :
  (lenient_strcmp (image_output_name i) name =? 0) = named name i.
Proof.
  unfold named.
  destruct (lenient_strcmp (image_output_name i) name =? 0) eqn:E.
  - apply Z.eqb_eq, lenient_strcmp_zero in E. rewrite E.
    destruct name as [n|]; [symmetry; apply String.eqb_refl|reflexivity].
  - apply Z.eqb_neq in E.
    destruct (image_output_name i) as [a|], name as [b|]; try reflexivity.
    + destruct (String.eqb_spec a b) as [->|]; [|reflexivity].
      exfalso. apply E. apply lenient_strcmp_zero. reflexivity.
    + exfalso. apply E. reflexivity.
Qed.

Lemma named_eq (name : option string) (i : swaylock_image) :
  named name i = true <-> image_output_name i = name.
Proof.
  rewrite <- lenient_strcmp_named, Z.eqb_eq. apply lenient_strcmp_zero.
Qed.

Lemma find_snoc {A} (f : A -> bool) (l : list A) (x : A) :
  find f (l ++ [x])
  = match find f l with
    | Some y => Some y
    | None => if f x then Some x else None
    end.
Proof.
  induction l as [|y l IH]; simpl; [reflexivity|].
  destruct (f y); [reflexivity|exact IH].
Qed.

Lemma select_image_from_spec (imgs : list swaylock_image)
  (name : option string) (d : option swaylock_image) :
  select_image_from d imgs name
  = match find (named name) imgs with
    | Some i => Some i
    | None => match find (named None) (rev imgs) with
              | Some j => Some j
              | None => d
              end
    end.
Proof.
  revert d. induction imgs as [|i imgs IH]; intros d; simpl; [reflexivity|].
  rewrite lenient_strcmp_named.
  destruct (named name i) eqn:N; [reflexivity|].
  rewrite find_snoc.
  destruct (image_output_name i) as [a|] eqn:Ei; rewrite IH.
  - replace (named None i) with false
      by (unfold named; rewrite Ei; reflexivity).
    destruct (find (named name) imgs); [reflexivity|].
    destruct (find (named None) (rev imgs)); reflexivity.
  - replace (named None i) with true
      by (unfold named; rewrite Ei; reflexivity).
    destruct (find (named name) imgs); [reflexivity|].
    destruct (find (named None) (rev imgs)); reflexivity.
Qed.

Lemma remove_image_incl (name : option string) (imgs : list swaylock_image) :
  incl (remove_image name imgs) imgs.
Proof.
  induction imgs as [|i imgs IH]; simpl; [apply incl_refl|].
  destruct (lenient_strcmp (image_output_name i) name =? 0).
  - apply incl_tl, incl_refl.
  - apply incl_cons; [left; reflexivity|apply incl_tl; exact IH].
Qed.

Lemma remove_image_unique (name : option string)
  (imgs : list swaylock_image) :
  names_unique imgs ->
  names_unique (remove_image name imgs)
  /\ ~ In name (map image_output_name (remove_image name imgs)).
Proof.
  unfold names_unique.
  induction imgs as [|i imgs IH]; simpl; intros U.
  - split; [constructor|intros []].
  - inversion U as [|x l Hx U']; subst.
    destruct (lenient_strcmp (image_output_name i) name =? 0) eqn:E.
    + apply Z.eqb_eq, lenient_strcmp_zero in E. subst name.
      split; assumption.
    + apply Z.eqb_neq in E. destruct (IH U') as (U1 & N1). simpl. split.
      * constructor; [|exact U1].
        intros Hin. apply Hx.
        apply in_map_iff in Hin. destruct Hin as (j & Ej & Hj).
        apply in_map_iff. exists j. split; [exact Ej|].
        apply (remove_image_incl name imgs). exact Hj.
      * intros [Hi|Hin]; [|exact (N1 Hin)].
        apply E. apply lenient_strcmp_zero. exact Hi.
Qed.

Lemma find_remove_image (name other : option string)
  (imgs : list swaylock_image) :
  other <> name ->
  find (named other) (remove_image name imgs) = find (named other) imgs.
Proof.
  intros D. induction imgs as [|i imgs IH]; simpl; [reflexivity|].
  destruct (lenient_strcmp (image_output_name i) name =? 0) eqn:E.
  - apply Z.eqb_eq, lenient_strcmp_zero in E.
    destruct (named other i) eqn:N; [|reflexivity].
    apply named_eq in N. congruence.
  - simpl. rewrite IH. reflexivity.
Qed.

Lemma split_colon_app (out path : string) :
  split_colon out = None ->
  split_colon (out ++ String ":" path)%string = Some (out, path).
Proof.
  induction out as [|c out IH]; simpl; [reflexivity|].
  destruct (Ascii.eqb c ":"); [discriminate|].
  destruct (split_colon out) as [[b a]|]; [discriminate|].
  intros _. rewrite IH by reflexivity. reflexivity.
Qed.

Lemma split_colon_some (arg out path : string) :
  split_colon arg = Some (out, path) ->
  split_colon out = None /\ arg = (out ++ String ":" path)%string.
Proof.
  revert out. induction arg as [|c arg IH]; simpl; intros out; [discriminate|].
  destruct (Ascii.eqb_spec c ":") as [->|D].
  - intros [= <- <-]. split; reflexivity.
  - destruct (split_colon arg) as [[b a]|]; [|discriminate].
    intros [= <- <-]. destruct (IH b eq_refl) as (N & ->).
    split; [|reflexivity].
    simpl. destruct (Ascii.eqb_spec c ":"); [contradiction|].
    rewrite N. reflexivity.
Qed.

Lemma escape_first_cons (a b : ascii) (rest : string) :
  escape_first (String a (String b rest))
  = if (Ascii.eqb a " " && Ascii.eqb b " ")%bool
    then Some (String a (String "\" (String b rest)))
    else option_map (String a) (escape_first (String b rest)).
Proof. reflexivity. Qed.

Lemma double_spaces_cons (a b : ascii) (rest : string) :
  double_spaces (String a (String b rest))
  = if (Ascii.eqb a " " && Ascii.eqb b " ")%bool
    then S (double_spaces (String b rest))
    else double_spaces (String b rest).
Proof. reflexivity. Qed.

Lemma escape_pass_cons (a b : ascii) (rest : string) :
  escape_pass (String a (String b rest))
  = if (Ascii.eqb a " " && Ascii.eqb b " ")%bool
    then String a (String "\" (escape_pass (String b rest)))
    else String a (escape_pass (String b rest)).
Proof. reflexivity. Qed.

Lemma escape_first_none (path : string) :
  escape_first path = None <-> double_spaces path = O.
Proof.
  induction path as [|a tl IH]; [split; reflexivity|].
  destruct tl as [|b rest]; [split; reflexivity|].
  rewrite escape_first_cons, double_spaces_cons.
  destruct (Ascii.eqb a " " && Ascii.eqb b " ")%bool.
  - split; discriminate.
  - rewrite <- IH. destruct (escape_first (String b rest)); simpl;
      split; congruence.
Qed.

Lemma escape_first_head (b : ascii) (rest t : string) :
  escape_first (String b rest) = Some t -> exists rest', t = String b rest'.
Proof.
  destruct rest as [|c r]; [discriminate|]. rewrite escape_first_cons.
  destruct (Ascii.eqb b " " && Ascii.eqb c " ")%bool.
  - intros [= <-]. eexists. reflexivity.
  - destruct (escape_first (String c r)); simpl; [|discriminate].
    intros [= <-]. eexists. reflexivity.
Qed.

Lemma escape_first_some (path path' : string) :
  escape_first path = Some path' ->
  S (double_spaces path') = double_spaces path
  /\ escape_pass path' = escape_pass path
  /\ String.length path' = S (String.length path).
Proof.
  revert path'. induction path as [|a tl IH]; intros path'; [discriminate|].
  destruct tl as [|b rest]; [discriminate|].
  rewrite escape_first_cons, double_spaces_cons, escape_pass_cons.
  destruct (Ascii.eqb a " " && Ascii.eqb b " ")%bool eqn:E.
  - intros [= <-]. apply andb_prop in E. destruct E as (Ea & Eb).
    apply Ascii.eqb_eq in Ea, Eb. subst a b.
    rewrite double_spaces_cons, escape_pass_cons. simpl andb. cbv iota.
    split; [|split]; reflexivity.
  - destruct (escape_first (String b rest)) as [t|] eqn:F;
      [|simpl; discriminate].
    simpl option_map. intros [= <-].
    destruct (IH t eq_refl) as (D & P & L).
    destruct (escape_first_head _ _ _ F) as (rest' & ->).
    rewrite double_spaces_cons, escape_pass_cons, E.
    split; [exact D|]. split; [rewrite P; reflexivity|].
    simpl. simpl in L. rewrite L. reflexivity.
Qed.

Lemma escape_pass_none (path : string) :
  double_spaces path = O -> escape_pass path = path.
Proof.
  induction path as [|a tl IH]; [reflexivity|].
  destruct tl as [|b rest]; [reflexivity|].
  rewrite double_spaces_cons, escape_pass_cons.
  destruct (Ascii.eqb a " " && Ascii.eqb b " ")%bool; [discriminate|].
  intros D. rewrite IH by exact D. reflexivity.
Qed.

Lemma escape_loop_spec (fuel : nat) (path : string) :
  (double_spaces path <= fuel)%nat ->
  double_spaces (escape_loop fuel path) = O
  /\ escape_loop fuel path = escape_pass path
  /\ String.length (escape_loop fuel path)
     = (String.length path + double_spaces path)%nat.
Proof.
  revert path. induction fuel as [|fuel IH]; intros path Hf; simpl.
  - assert (D : double_spaces path = O) by lia.
    rewrite D, escape_pass_none by exact D. repeat split; lia.
  - destruct (escape_first path) as [path'|] eqn:F.
    + destruct (escape_first_some _ _ F) as (D & P & L).
      destruct (IH path') as (D' & P' & L'); [lia|].
      split; [exact D'|]. split; [rewrite P'; exact P|]. rewrite L'. lia.
    + apply escape_first_none in F.
      rewrite F, escape_pass_none by exact F. repeat split; lia.
Qed.

Lemma double_spaces_length (path : string) :
  (double_spaces path <= String.length path)%nat.
Proof.
  induction path as [|a tl IH]; [simpl; lia|].
  destruct tl as [|b rest]; [simpl; lia|].
  rewrite double_spaces_cons.
  change (String.length (String a (String b rest)))
    with (S (String.length (String b rest))).
  destruct (Ascii.eqb a " " && Ascii.eqb b " ")%bool; lia.
Qed.

Lemma drop_last_app (a s : string) :
  s <> EmptyString -> drop_last (a ++ s)%string = (a ++ drop_last s)%string.
Proof.
  intros N. induction a as [|c a IH]; [reflexivity|].
  simpl. rewrite <- IH.
  destruct (a ++ s)%string eqn:E; [|reflexivity].
  destruct a; [contradiction|discriminate].
Qed.

Lemma spaced_not_empty (a : string) (argv : list string) :
  spaced (a :: argv) <> EmptyString.
Proof. simpl. destruct a; discriminate. Qed.

Lemma append_empty (a : string) : (a ++ EmptyString)%string = a.
Proof. induction a as [|c a IH]; simpl; [|rewrite IH]; reflexivity. Qed.

Lemma drop_last_spaced (a : string) (argv : list string) :
  drop_last (spaced (a :: argv)) = String.concat " " (a :: argv).
Proof.
  revert a. induction argv as [|b argv IH]; intros a.
  - simpl. rewrite drop_last_app by discriminate. apply append_empty.
  - change (spaced (a :: b :: argv))
      with (a ++ (" " ++ spaced (b :: argv)))%string.
    change (String.concat " " (a :: b :: argv))
      with (a ++ (" " ++ String.concat " " (b :: argv)))%string.
    rewrite drop_last_app by discriminate.
    rewrite drop_last_app by apply spaced_not_empty.
    rewrite IH. reflexivity.
Qed.

Lemma length_append (a b : string) :
  String.length (a ++ b)
  = (String.length a + String.length b)%nat.
Proof. induction a as [|c a IH]; simpl; [|rewrite IH]; reflexivity. Qed.

Lemma spaced_length (argv : list string) :
  String.length (spaced argv)
  = fold_right (fun a n => (String.length a + 1 + n)%nat) O argv.
Proof.
  induction argv as [|a argv IH]; simpl; [reflexivity|].
  rewrite length_append. simpl. rewrite IH. lia.
Qed.

Lemma drop_last_length (s : string) :
  s <> EmptyString -> S (String.length (drop_last s)) = String.length s.
Proof.
  induction s as [|c s IH]; [contradiction|]. intros _.
  destruct s as [|d s]; [reflexivity|].
  change (S (S (String.length (drop_last (String d s))))
          = S (String.length (String d s))).
  f_equal. apply IH. discriminate.
Qed.

Lemma select_image_eq (s : swaylock_state) (sf : swaylock_surface) :
  select_image s sf = image_for (output_name sf) (images s).
Proof.
  unfold select_image, image_for. rewrite select_image_from_spec.
  destruct (find (named (output_name sf)) (images s)); [reflexivity|].
  destruct (find (named None) (rev (images s))); reflexivity.
Qed.

End ImageFacts.
(** X1 ([select_image]).  The image of a surface is the first image of the
    list that is defined for the surface's output name; when there is
    none, it is the last image of the list that has no output name, and
    NULL when there is no such image either. *)
Theorem select_image_spec (s : swaylock_state) (sf : swaylock_surface) :
  select_image s sf = Images.image_for (output_name sf) (images s).
Proof. apply ImageFacts.select_image_eq. Qed.

(** X2 ([load_image]).  When no two images of the list are defined for the
    same output (and at most one is the default image), this is still so
    after [load_image], whether the new image could be loaded or not. *)
Theorem load_image_names_unique
  (wordexp : string -> option (list string))
  (load_background_image : string -> option bool)
  (arg : string) (imgs imgs' : list swaylock_image) :
  Images.names_unique imgs ->
  Images.load_image wordexp load_background_image arg imgs = Some imgs' ->
  Images.names_unique imgs'.
Proof.
  intros U. unfold Images.load_image.
  destruct (Images.image_arg arg) as [out path].
  destruct (ImageFacts.remove_image_unique out imgs U) as (U1 & N1).
  destruct (Images.expand wordexp (Images.escape_double_spaces path))
    as [p|]; [|discriminate].
  destruct (load_background_image p) as [opaque|]; intros [= <-].
  - unfold Images.names_unique. simpl. constructor; assumption.
  - exact U1.
Qed.

Lemma load_image_names_unique_witness :
  Images.names_unique
    [ {| image_output_name := Some "DP-1"; image_opaque := true |};
      {| image_output_name := None; image_opaque := false |} ].
Proof.
  apply (load_image_names_unique (fun p => Some [p]) (fun _ => Some true)
           "DP-1:/tmp/a.png"
           [ {| image_output_name := None; image_opaque := false |};
             {| image_output_name := Some "DP-1"; image_opaque := false |} ]).
  - unfold Images.names_unique. simpl.
    repeat constructor; simpl; intuition discriminate.
  - vm_compute. reflexivity.
Defined.

(** X3 ([load_image], [select_image]).  When the path expands and the
    image can be loaded, the new image is put in front of the list with the
    earlier image of its output removed; a surface whose output name is
    the one given then selects the new image, and an output of another
    name that had an image of its own keeps it. *)
Theorem load_image_selected
  (wordexp : string -> option (list string))
  (load_background_image : string -> option bool)
  (arg path : string) (opaque : bool) (imgs : list swaylock_image) :
  let out := fst (Images.image_arg arg) in
  let new := {| image_output_name := out; image_opaque := opaque |} in
  Images.expand wordexp
    (Images.escape_double_spaces (snd (Images.image_arg arg))) = Some path ->
  load_background_image path = Some opaque ->
  Images.load_image wordexp load_background_image arg imgs
  = Some (new :: Images.remove_image out imgs)
  /\ (forall s sf,
        images s = new :: Images.remove_image out imgs ->
        output_name sf = out -> select_image s sf = Some new)
  /\ (forall s sf j,
        images s = new :: Images.remove_image out imgs ->
        output_name sf <> out ->
        find (Images.named (output_name sf)) imgs = Some j ->
        select_image s sf = Some j).
Proof.
  intros out new He Hl. unfold Images.load_image. subst out new.
  destruct (Images.image_arg arg) as [out p]. simpl in *.
  rewrite He, Hl. split; [reflexivity|]. split.
  - intros s sf Hs Ho. rewrite ImageFacts.select_image_eq, Hs, Ho.
    unfold Images.image_for. simpl.
    replace (Images.named out _) with true; [reflexivity|].
    symmetry. apply ImageFacts.named_eq. reflexivity.
  - intros s sf j Hs Ho Hj. rewrite ImageFacts.select_image_eq, Hs.
    unfold Images.image_for.
    cbn [find].
    destruct (Images.named (output_name sf) _) eqn:N.
    + apply ImageFacts.named_eq in N. simpl in N. congruence.
    + rewrite ImageFacts.find_remove_image by exact Ho.
      rewrite Hj. reflexivity.
Qed.

Lemma load_image_selected_witness :
  Images.load_image (fun p => Some [p]) (fun _ => Some true)
    "DP-1:/tmp/a.png"
    [ {| image_output_name := Some "DP-1"; image_opaque := false |} ]
  = Some [ {| image_output_name := Some "DP-1"; image_opaque := true |} ].
Proof.
  apply (load_image_selected (fun p => Some [p]) (fun _ => Some true)
           "DP-1:/tmp/a.png" "/tmp/a.png" true
           [ {| image_output_name := Some "DP-1"; image_opaque := false |} ]);
    vm_compute; reflexivity.
Defined.

(** X4 ([load_image]).  When the image cannot be loaded, the earlier image
    of that output has been removed all the same: in a list where every
    output has at most one image, no image of the given output is left,
    and nothing is added. *)
Theorem load_image_failure_drops
  (wordexp : string -> option (list string))
  (load_background_image : string -> option bool)
  (arg path : string) (imgs : list swaylock_image) :
  let out := fst (Images.image_arg arg) in
  Images.names_unique imgs ->
  Images.expand wordexp
    (Images.escape_double_spaces (snd (Images.image_arg arg))) = Some path ->
  load_background_image path = None ->
  Images.load_image wordexp load_background_image arg imgs
  = Some (Images.remove_image out imgs)
  /\ incl (Images.remove_image out imgs) imgs
  /\ forall i, In i (Images.remove_image out imgs) ->
               image_output_name i <> out.
Proof.
  intros out U He Hl. unfold Images.load_image. subst out.
  destruct (Images.image_arg arg) as [out p]. simpl in *.
  rewrite He, Hl. split; [reflexivity|].
  split; [apply ImageFacts.remove_image_incl|].
  intros i Hi E.
  destruct (ImageFacts.remove_image_unique out imgs U) as (_ & N).
  apply N. apply in_map_iff. exists i. split; assumption.
Qed.

Lemma load_image_failure_drops_witness :
  Images.load_image (fun p => Some [p]) (fun _ => None)
    "DP-1:/tmp/missing.png"
    [ {| image_output_name := Some "DP-1"; image_opaque := false |} ]
  = Some [].
Proof.
  apply (load_image_failure_drops (fun p => Some [p]) (fun _ => None)
           "DP-1:/tmp/missing.png" "/tmp/missing.png"
           [ {| image_output_name := Some "DP-1"; image_opaque := false |} ]).
  - unfold Images.names_unique. simpl.
    repeat constructor; simpl; intuition discriminate.
  - vm_compute. reflexivity.
  - reflexivity.
Defined.

(** X5 ([load_image], [join_args]).  [load_image] runs into the failing
    assertion of [join_args] exactly when [wordexp] succeeds on the path
    (with its double spaces escaped) and returns no word. *)
Theorem load_image_aborts_iff
  (wordexp : string -> option (list string))
  (load_background_image : string -> option bool)
  (arg : string) (imgs : list swaylock_image) :
  Images.load_image wordexp load_background_image arg imgs = None
  <-> wordexp (Images.escape_double_spaces (snd (Images.image_arg arg)))
      = Some [].
Proof.
  unfold Images.load_image, Images.expand.
  destruct (Images.image_arg arg) as [out p]. simpl.
  destruct (wordexp (Images.escape_double_spaces p)) as [[|w ws]|]; simpl.
  - split; reflexivity.
  - destruct (load_background_image _); split; discriminate.
  - destruct (load_background_image _); split; discriminate.
Qed.

(** X6 ([load_image], the argument [[<output>]:]<path>).  The argument
    names an output exactly when it is a non-empty text without colon,
    a colon and the path; the path may hold further colons.  An argument
    that starts with a colon, or has none, gives the default image. *)
Theorem image_arg_spec (arg out path : string) :
  (Images.image_arg arg = (Some out, path)
   <-> out <> EmptyString /\ Images.split_colon out = None
       /\ arg = (out ++ String ":" path)%string)
  /\ Images.image_arg (String ":" path) = (None, path)
  /\ (Images.split_colon arg = None -> Images.image_arg arg = (None, arg)).
Proof.
  split; [|split].
  - unfold Images.image_arg. split.
    + destruct (Images.split_colon arg) as [[b a]|] eqn:E.
      * destruct (ImageFacts.split_colon_some _ _ _ E) as (N & ->).
        destruct b as [|c b]; [discriminate|].
        intros [= <- <-]. split; [discriminate|]. split; [exact N|reflexivity].
      * discriminate.
    + intros (Ne & N & ->).
      rewrite (ImageFacts.split_colon_app out path N).
      destruct out; [contradiction|reflexivity].
  - reflexivity.
  - unfold Images.image_arg. intros ->. reflexivity.
Qed.

(** X7 ([load_image], the loop over [strstr(path, "  ")]).  The loop ends
    after as many turns as the path has places where two spaces are
    adjacent; the path it leaves has no two adjacent spaces, is the
    original with a backslash put after every space that was followed by a
    space, and is longer by that many characters. *)
Theorem escape_double_spaces_spec (path : string) :
  Images.escape_first (Images.escape_double_spaces path) = None
  /\ Images.escape_double_spaces path = Images.escape_pass path
  /\ String.length (Images.escape_double_spaces path)
     = (String.length path + Images.double_spaces path)%nat.
Proof.
  unfold Images.escape_double_spaces.
  destruct (ImageFacts.escape_loop_spec (String.length path) path
              (ImageFacts.double_spaces_length path)) as (D & P & L).
  split; [apply ImageFacts.escape_first_none; exact D|].
  split; assumption.
Qed.

(** X8 ([join_args]).  For at least one argument the result is the
    arguments separated by single spaces, and with its terminating NUL it
    fills exactly the bytes allocated, the sum of [strlen(argv[i]) + 1]. *)
Theorem join_args_spec (a : string) (argv : list string) :
  Images.join_args (a :: argv) = Some (String.concat " " (a :: argv))
  /\ S (String.length (String.concat " " (a :: argv)))
     = fold_right (fun x n => (String.length x + 1 + n)%nat) O (a :: argv).
Proof.
  unfold Images.join_args. rewrite ImageFacts.drop_last_spaced.
  split; [reflexivity|].
  rewrite <- ImageFacts.drop_last_spaced, <- ImageFacts.spaced_length.
  apply ImageFacts.drop_last_length, ImageFacts.spaced_not_empty.
Qed.

(** ** Colours: range and channels *)

Module ColorChannels.
Import Color.

Lemma hex_digit_plain (c : ascii) (d : Z) :
  hex_digit c = Some d ->
  isspace c = false /\ Ascii.eqb c "x" = false /\ Ascii.eqb c "X" = false.
Proof.
  destruct c as [[] [] [] [] [] [] [] []]; vm_compute; intros H;
    try discriminate H; repeat split.
Qed.

Lemma strip_hash_hex (c : ascii) (s : string) (d : Z) :
  hex_digit c = Some d -> strip_hash (String c s) = String c s.
Proof.
  destruct c as [[] [] [] [] [] [] [] []]; intros H; vm_compute in H;
    try discriminate H; reflexivity.
Qed.

Lemma strtoul16_hex (c : ascii) (s : string) (d : Z) :
  hex_digit c = Some d ->
  strtoul16 (String c s)
  = let v := strtoul_digits 0 (skip_0x (String c s)) in
    if ULONG_MAX <? v then ULONG_MAX else v.
Proof.
  destruct c as [[] [] [] [] [] [] [] []]; intros H; vm_compute in H;
    try discriminate H; reflexivity.
Qed.

Lemma skip_0x_hex (c c2 : ascii) (s : string) (d2 : Z) :
  hex_digit c2 = Some d2 ->
  skip_0x (String c (String c2 s)) = String c (String c2 s).
Proof.
  intros H. destruct (hex_digit_plain _ _ H) as (_ & Hx & HX).
  unfold skip_0x.
  destruct c as [[] [] [] [] [] [] [] []]; try reflexivity.
  destruct s as [|e s]; [reflexivity|]. rewrite Hx, HX. reflexivity.
Qed.

Lemma to_uint32_range (z : Z) : 0 <= to_uint32 z < UINT32_MOD.
Proof. unfold to_uint32, UINT32_MOD. apply Z.mod_pos_bound. lia. Qed.

Lemma shifted_alpha (res : Z) :
  0 <= res ->
  Z.lor (to_uint32 (Z.shiftl res 8)) 0xFF
  = (res mod 2 ^ 24) * 256 + 255.
Proof.
  intros Hr. rewrite Z.shiftl_mul_pow2 by lia.
  unfold to_uint32, UINT32_MOD.
  change (2 ^ 32) with (2 ^ 24 * 2 ^ 8).
  rewrite Z.mul_mod_distr_r by lia.
  change (2 ^ 8) with 256.
  apply ColorFacts.lor_alpha. apply Z.mod_pos_bound. lia.
Qed.

Lemma land_alpha (v : Z) : 0 <= v -> Z.land (v * 256 + 255) 0xFF = 0xFF.
Proof.
  intros Hv. change (Z.land (v * 256 + 255) (Z.ones 8) = 255).
  rewrite Z.land_ones by lia. change (2 ^ 8) with 256.
  rewrite Z.add_comm, Z.mod_add by lia. reflexivity.
Qed.

End ColorChannels.

(** X9 ([parse_color]).  Whatever the text, the colour returned fits the
    [uint32_t] it is stored in. *)
Theorem parse_color_range (color : string) :
  0 <= Color.parse_color color < UINT32_MOD.
Proof.
  unfold Color.parse_color.
  set (c := Color.strip_hash color).
  destruct (negb (Nat.eqb (String.length c) 6)
            && negb (Nat.eqb (String.length c) 8))%bool.
  - unfold UINT32_MOD. lia.
  - pose proof (ColorChannels.to_uint32_range (Color.strtoul16 c)) as R.
    destruct (Nat.eqb (String.length c) 6); [|exact R].
    rewrite ColorChannels.shifted_alpha by lia.
    pose proof (Z.mod_pos_bound (to_uint32 (Color.strtoul16 c)) (2 ^ 24)
                  ltac:(lia)).
    unfold UINT32_MOD. lia.
Qed.

(** X10 ([parse_color], [surface_is_opaque]).  A colour whose text (after
    one leading [#]) is not eight characters long has alpha [0xFF],
    whatever the characters are; as the background colour it makes every
    surface without an image opaque. *)
Theorem parse_color_without_alpha_opaque (color : string) :
  String.length (Color.strip_hash color) <> 8%nat ->
  Z.land (Color.parse_color color) 0xFF = 0xFF
  /\ forall s sf,
       background (args s) = Color.parse_color color ->
       image sf = None -> surface_is_opaque s sf = true.
Proof.
  intros H8.
  assert (A : Z.land (Color.parse_color color) 0xFF = 0xFF).
  { unfold Color.parse_color.
    set (c := Color.strip_hash color) in *.
    apply Nat.eqb_neq in H8. rewrite H8.
    destruct (Nat.eqb (String.length c) 6); cbn [negb andb];
      [|reflexivity].
    rewrite ColorChannels.shifted_alpha
      by apply ColorChannels.to_uint32_range.
    apply ColorChannels.land_alpha. apply Z.mod_pos_bound. lia. }
  split; [exact A|].
  intros s sf Hb Hi. unfold surface_is_opaque. rewrite Hi, Hb, A.
  reflexivity.
Qed.

Lemma parse_color_without_alpha_opaque_witness :
  Z.land (Color.parse_color "#zz") 0xFF = 0xFF.
Proof.
  apply (parse_color_without_alpha_opaque "#zz"). simpl. lia.
Defined.

(** X11 ([parse_color]).  For six hexadecimal digits [rrggbb] the colour
    is red, green and blue in the three high bytes and [0xFF] in the low
    one; for eight digits [rrggbbaa] the fourth pair is the low byte.  A
    leading [#] changes nothing. *)
Theorem parse_color_channels (r1 r2 g1 g2 b1 b2 a1 a2 : ascii)
  (dr1 dr2 dg1 dg2 db1 db2 da1 da2 : Z) :
  Color.hex_digit r1 = Some dr1 -> Color.hex_digit r2 = Some dr2 ->
  Color.hex_digit g1 = Some dg1 -> Color.hex_digit g2 = Some dg2 ->
  Color.hex_digit b1 = Some db1 -> Color.hex_digit b2 = Some db2 ->
  Color.hex_digit a1 = Some da1 -> Color.hex_digit a2 = Some da2 ->
  let rgb := String r1 (String r2 (String g1 (String g2
               (String b1 (String b2 EmptyString))))) in
  let rgba := String r1 (String r2 (String g1 (String g2
                (String b1 (String b2 (String a1 (String a2
                   EmptyString))))))) in
  let red := 16 * dr1 + dr2 in
  let green := 16 * dg1 + dg2 in
  let blue := 16 * db1 + db2 in
  let alpha := 16 * da1 + da2 in
  Color.parse_color rgb
  = red * 2 ^ 24 + green * 2 ^ 16 + blue * 2 ^ 8 + 0xFF
  /\ Color.parse_color rgba
     = red * 2 ^ 24 + green * 2 ^ 16 + blue * 2 ^ 8 + alpha
  /\ Color.parse_color (String "#" rgb) = Color.parse_color rgb
  /\ Color.parse_color (String "#" rgba) = Color.parse_color rgba.
Proof.
  intros Hr1 Hr2 Hg1 Hg2 Hb1 Hb2 Ha1 Ha2 rgb rgba red green blue alpha.
  pose proof (ColorFacts.hex_digit_range _ _ Hr1).
  pose proof (ColorFacts.hex_digit_range _ _ Hr2).
  pose proof (ColorFacts.hex_digit_range _ _ Hg1).
  pose proof (ColorFacts.hex_digit_range _ _ Hg2).
  pose proof (ColorFacts.hex_digit_range _ _ Hb1).
  pose proof (ColorFacts.hex_digit_range _ _ Hb2).
  pose proof (ColorFacts.hex_digit_range _ _ Ha1).
  pose proof (ColorFacts.hex_digit_range _ _ Ha2).
  assert (V6 : Color.strtoul16 rgb
               = red * 2 ^ 16 + green * 2 ^ 8 + blue).
  { unfold rgb. rewrite (ColorChannels.strtoul16_hex _ _ _ Hr1).
    rewrite (ColorChannels.skip_0x_hex _ _ _ _ Hr2).
    cbn [Color.strtoul_digits].
    rewrite Hr1, Hr2, Hg1, Hg2, Hb1, Hb2. cbv zeta.
    replace (ULONG_MAX <? _) with false
      by (symmetry; apply Z.ltb_ge; unfold ULONG_MAX; lia).
    subst red green blue. lia. }
  assert (V8 : Color.strtoul16 rgba
               = red * 2 ^ 24 + green * 2 ^ 16 + blue * 2 ^ 8 + alpha).
  { unfold rgba. rewrite (ColorChannels.strtoul16_hex _ _ _ Hr1).
    rewrite (ColorChannels.skip_0x_hex _ _ _ _ Hr2).
    cbn [Color.strtoul_digits].
    rewrite Hr1, Hr2, Hg1, Hg2, Hb1, Hb2, Ha1, Ha2. cbv zeta.
    replace (ULONG_MAX <? _) with false
      by (symmetry; apply Z.ltb_ge; unfold ULONG_MAX; lia).
    subst red green blue alpha. lia. }
  assert (P6 : Color.parse_color rgb
               = red * 2 ^ 24 + green * 2 ^ 16 + blue * 2 ^ 8 + 0xFF).
  { unfold Color.parse_color.
    replace (Color.strip_hash rgb) with rgb
      by (symmetry; apply (ColorChannels.strip_hash_hex _ _ _ Hr1)).
    change (String.length rgb) with 6%nat. cbn [Nat.eqb negb andb].
    rewrite ColorChannels.shifted_alpha
      by apply ColorChannels.to_uint32_range.
    rewrite V6. unfold to_uint32, UINT32_MOD.
    rewrite (Z.mod_small _ (2 ^ 32)) by (subst red green blue; lia).
    rewrite Z.mod_small by (subst red green blue; lia).
    lia. }
  assert (P8 : Color.parse_color rgba
               = red * 2 ^ 24 + green * 2 ^ 16 + blue * 2 ^ 8 + alpha).
  { unfold Color.parse_color.
    replace (Color.strip_hash rgba) with rgba
      by (symmetry; apply (ColorChannels.strip_hash_hex _ _ _ Hr1)).
    change (String.length rgba) with 8%nat. cbn [Nat.eqb negb andb].
    rewrite V8. unfold to_uint32, UINT32_MOD.
    apply Z.mod_small. subst red green blue alpha. lia. }
  split; [exact P6|]. split; [exact P8|].
  split.
  - unfold Color.parse_color at 1. cbn [Color.strip_hash].
    unfold Color.parse_color.
    replace (Color.strip_hash rgb) with rgb
      by (symmetry; apply (ColorChannels.strip_hash_hex _ _ _ Hr1)).
    reflexivity.
  - unfold Color.parse_color at 1. cbn [Color.strip_hash].
    unfold Color.parse_color.
    replace (Color.strip_hash rgba) with rgba
      by (symmetry; apply (ColorChannels.strip_hash_hex _ _ _ Hr1)).
    reflexivity.
Qed.

Lemma parse_color_channels_witness :
  Color.parse_color "A3b4C5" = 0xA3B4C5FF
  /\ Color.parse_color "A3b4C5d6" = 0xA3B4C5D6.
Proof.
  pose proof (parse_color_channels "A" "3" "b" "4" "C" "5" "d" "6"
                10 3 11 4 12 5 13 6
                eq_refl eq_refl eq_refl eq_refl
                eq_refl eq_refl eq_refl eq_refl) as (P6 & P8 & _).
  split; [exact P6|exact P8].
Defined.

(** ** Options *)

Module OptionFacts.
Import Options.

Section Cases.

Variable parse_background_mode : string -> background_mode.
Variable strtol : string -> Z -> Z.
Variable atoi : string -> Z.
Variable wordexp : string -> option (list string).
Variable load_background_image : string -> option bool.

Local Abbreviation option_case :=
  (option_case parse_background_mode strtol atoi wordexp
     load_background_image).
Local Abbreviation parse_options :=
  (parse_options parse_background_mode strtol atoi wordexp
     load_background_image).

(** Every case of the [switch] under every choice of pointers, one goal
    for each. *)
Ltac each_case p r :=
  destruct r as [[ch|o] arg];
  [destruct ch as [[] [] [] [] [] [] [] []]|destruct o];
  destruct p as [[] [] []];
  cbv beta iota delta
    [Options.option_case color_case flag_case on_args opt optarg
     to_state to_line_mode to_config_path fst snd];
  try reflexivity;
  try (destruct (Images.load_image _ _ _ _); reflexivity).

Lemma option_case_color (p : pointers) (r : getopt_result) (m : memory)
  (k : color_field) :
  color (opt_args (state (fst (option_case p r m)))) k
  = if to_state p then
      match color_case (opt r) with
      | Some k' => if color_field_eq_dec k k'
                   then Color.parse_color (optarg r)
                   else color (opt_args (state m)) k
      | None => color (opt_args (state m)) k
      end
    else color (opt_args (state m)) k.
Proof. each_case p r. Qed.

Lemma option_case_flag (p : pointers) (r : getopt_result) (m : memory)
  (f : flag_field) :
  flag (opt_args (state (fst (option_case p r m)))) f
  = if to_state p then
      match flag_case (opt r) with
      | Some (f', v) => if flag_field_eq_dec f f' then v
                        else flag (opt_args (state m)) f
      | None =>
          match opt r with
          | Long LO_IND_X_POSITION =>
              if flag_field_eq_dec f b_override_indicator_x_position
              then true else flag (opt_args (state m)) f
          | Long LO_IND_Y_POSITION =>
              if flag_field_eq_dec f b_override_indicator_y_position
              then true else flag (opt_args (state m)) f
          | _ => flag (opt_args (state m)) f
          end
      end
    else flag (opt_args (state m)) f.
Proof. each_case p r. Qed.

Lemma option_case_line_mode (p : pointers) (r : getopt_result) (m : memory) :
  line_mode_var (fst (option_case p r m))
  = if to_line_mode p then
      match opt r with
      | Short "n" => LM_INSIDE
      | Short "r" => LM_RING
      | _ => line_mode_var m
      end
    else line_mode_var m.
Proof. each_case p r. Qed.


Lemma option_case_null_state (p : pointers) (r : getopt_result)
  (m : memory) :
  to_state p = false -> state (fst (option_case p r m)) = state m.
Proof. each_case p r; discriminate. Qed.

Lemma option_case_ending (p : pointers) (r : getopt_result) (m : memory)
  (result : Z) :
  snd (option_case p r m) = Some (Return result) -> result = 1.
Proof.
  destruct r as [[ch|o] arg];
    [destruct ch as [[] [] [] [] [] [] [] []]|destruct o];
    destruct p as [[] [] []];
    cbv beta iota delta
      [Options.option_case color_case flag_case on_args opt optarg
       to_state to_line_mode to_config_path fst snd];
    try discriminate; try (intros [= <-]; reflexivity);
    try (destruct (Images.load_image _ _ _ _); discriminate);
    (cbv zeta;
     destruct (background_mode_eqb (parse_background_mode arg)
                 BACKGROUND_MODE_INVALID);
     [intros [= <-]; reflexivity|discriminate]).
Qed.

Lemma flag_case_switched (c : getopt_code) (f : flag_field) (v : bool) :
  flag_case c = Some (f, v) -> v = switched f.
Proof.
  destruct c as [ch|o];
    [destruct ch as [[] [] [] [] [] [] [] []]|destruct o];
    cbv beta iota delta [flag_case]; try discriminate;
    intros [= <- <-]; reflexivity.
Qed.

Lemma option_case_keeps_flag (p : pointers) (r : getopt_result) (m : memory)
  (f : flag_field) :
  flag (opt_args (state m)) f = switched f ->
  flag (opt_args (state (fst (option_case p r m)))) f = switched f.
Proof.
  intros H. rewrite option_case_flag. destruct (to_state p); [|exact H].
  destruct (flag_case (opt r)) as [[f' v]|] eqn:F.
  - destruct (flag_field_eq_dec f f') as [->|]; [|exact H].
    apply (flag_case_switched _ _ _ F).
  - destruct (opt r) as [ch|o]; [exact H|].
    destruct o; try exact H;
      match goal with
      | |- context [flag_field_eq_dec ?a ?b] =>
          destruct (flag_field_eq_dec a b) as [->|]; [reflexivity|exact H]
      end.
Qed.

Lemma parse_options_cons (p : pointers) (r : getopt_result)
  (rs : list getopt_result) (m : memory) :
  parse_options p (r :: rs) m
  = match snd (option_case p r m) with
    | None => parse_options p rs (fst (option_case p r m))
    | Some e => (fst (option_case p r m), e)
    end.
Proof.
  cbn [Options.parse_options].
  destruct (option_case p r m) as [m' [e|]]; reflexivity.
Qed.

Lemma parse_options_result (p : pointers) (rs : list getopt_result)
  (m : memory) (result : Z) :
  snd (parse_options p rs m) = Return result -> result = 0 \/ result = 1.
Proof.
  revert m. induction rs as [|r rs IH]; intros m.
  - intros [= <-]. left. reflexivity.
  - rewrite parse_options_cons.
    destruct (snd (option_case p r m)) as [e|] eqn:E; [|apply IH].
    cbn [snd]. intros ->. right.
    apply (option_case_ending _ _ _ _ E).
Qed.

(** A call that returns 0 has gone through every option. *)
Lemma parse_options_zero (p : pointers) (r : getopt_result)
  (rs : list getopt_result) (m m' : memory) :
  parse_options p (r :: rs) m = (m', Return 0) ->
  snd (option_case p r m) = None
  /\ parse_options p rs (fst (option_case p r m)) = (m', Return 0).
Proof.
  rewrite parse_options_cons.
  destruct (snd (option_case p r m)) as [e|] eqn:E.
  - intros [= _ ->]. apply option_case_ending in E. discriminate E.
  - intros H. split; [reflexivity|exact H].
Qed.

Lemma parse_options_color (p : pointers) (rs : list getopt_result)
  (m m' : memory) (k : color_field) :
  to_state p = true ->
  parse_options p rs m = (m', Return 0) ->
  color (opt_args (state m')) k
  = match last_color k rs with
    | Some v => Color.parse_color v
    | None => color (opt_args (state m)) k
    end.
Proof.
  intros Hp. revert m. induction rs as [|r rs IH]; intros m H.
  - injection H as <-. reflexivity.
  - apply parse_options_zero in H. destruct H as (_ & H).
    rewrite (IH _ H). cbn [last_color].
    destruct (last_color k rs); [reflexivity|].
    rewrite option_case_color, Hp.
    destruct (color_case (opt r)) as [k'|]; [|reflexivity].
    destruct (color_field_eq_dec k k'); reflexivity.
Qed.

Lemma parse_options_line_mode (p : pointers) (rs : list getopt_result)
  (m m' : memory) :
  to_line_mode p = true ->
  parse_options p rs m = (m', Return 0) ->
  line_mode_var m'
  = match last_line_mode rs with
    | Some v => v
    | None => line_mode_var m
    end.
Proof.
  intros Hp. revert m. induction rs as [|r rs IH]; intros m H.
  - injection H as <-. reflexivity.
  - apply parse_options_zero in H. destruct H as (_ & H).
    rewrite (IH _ H). cbn [last_line_mode].
    destruct (last_line_mode rs); [reflexivity|].
    rewrite option_case_line_mode, Hp.
    destruct (opt r) as [ch|o]; [|reflexivity].
    destruct ch as [[] [] [] [] [] [] [] []]; reflexivity.
Qed.


Lemma parse_options_keeps_flag (p : pointers) (rs : list getopt_result)
  (m : memory) (f : flag_field) :
  flag (opt_args (state m)) f = switched f ->
  flag (opt_args (state (fst (parse_options p rs m)))) f = switched f.
Proof.
  revert m. induction rs as [|r rs IH]; intros m H; [exact H|].
  rewrite parse_options_cons.
  pose proof (option_case_keeps_flag p r m f H) as H1.
  destruct (snd (option_case p r m)); [exact H1|].
  apply IH. exact H1.
Qed.

Lemma parse_options_null_state (p : pointers) (rs : list getopt_result)
  (m : memory) :
  to_state p = false -> state (fst (parse_options p rs m)) = state m.
Proof.
  intros Hp. revert m. induction rs as [|r rs IH]; intros m; [reflexivity|].
  rewrite parse_options_cons.
  pose proof (option_case_null_state p r m Hp) as H1.
  destruct (snd (option_case p r m)); [exact H1|].
  rewrite IH. exact H1.
Qed.

Lemma parse_options_null_line_mode (p : pointers) (rs : list getopt_result)
  (m : memory) :
  to_line_mode p = false ->
  line_mode_var (fst (parse_options p rs m)) = line_mode_var m.
Proof.
  intros Hp. revert m. induction rs as [|r rs IH]; intros m; [reflexivity|].
  rewrite parse_options_cons.
  pose proof (option_case_line_mode p r m) as H1. rewrite Hp in H1.
  destruct (snd (option_case p r m)); [exact H1|].
  rewrite IH. exact H1.
Qed.

End Cases.

End OptionFacts.
Module ConfigFacts.
Import Options.

Section Config.

Variable parse_background_mode : string -> background_mode.
Variable strtol : string -> Z -> Z.
Variable atoi : string -> Z.
Variable wordexp : string -> option (list string).
Variable load_background_image : string -> option bool.
Variable getopt_long : list string -> list getopt_result.

Local Abbreviation parse_options :=
  (parse_options parse_background_mode strtol atoi wordexp
     load_background_image).
Local Abbreviation config_line :=
  (config_line parse_background_mode strtol atoi wordexp
     load_background_image getopt_long).
Local Abbreviation read_config :=
  (read_config parse_background_mode strtol atoi wordexp
     load_background_image getopt_long).

Lemma config_line_fst (raw : string) (m : memory) :
  fst (config_line raw m)
  = if skipped (chomp raw) then m
    else fst (parse_options to_settings
                (getopt_long ["swaylock"; ("--" ++ chomp raw)%string]) m).
Proof.
  unfold Options.config_line. destruct (skipped (chomp raw)); [reflexivity|].
  destruct (parse_options _ _ _) as [m' [z| |]]; reflexivity.
Qed.

Lemma config_line_leave (raw : string) (m : memory) (e : ending) :
  snd (config_line raw m) = Leave e -> forall z, e <> Return z.
Proof.
  unfold Options.config_line. destruct (skipped (chomp raw)); [discriminate|].
  destruct (parse_options _ _ _) as [m' [z| |]]; cbn [snd].
  - destruct (negb (z =? 0)); discriminate.
  - intros [= <-]. discriminate.
  - intros [= <-]. discriminate.
Qed.

Lemma read_config_cons (raw : string) (rest : list string) (m : memory) :
  read_config (raw :: rest) m
  = match snd (config_line raw m) with
    | Continue => read_config rest (fst (config_line raw m))
    | Break => (fst (config_line raw m), Return 0)
    | Leave e => (fst (config_line raw m), e)
    end.
Proof.
  cbn [Options.read_config].
  destruct (config_line raw m) as [m' [| |e]]; reflexivity.
Qed.

Lemma read_config_result (lines : list string) (m : memory) (z : Z) :
  snd (read_config lines m) = Return z -> z = 0.
Proof.
  revert m. induction lines as [|raw rest IH]; intros m.
  - intros [= <-]. reflexivity.
  - rewrite read_config_cons.
    destruct (snd (config_line raw m)) as [| |e] eqn:E.
    + apply IH.
    + intros [= <-]. reflexivity.
    + cbn [snd]. intros ->. exfalso.
      apply (config_line_leave _ _ _ E z). reflexivity.
Qed.

Lemma read_config_keeps_flag (lines : list string) (m : memory)
  (f : flag_field) :
  flag (opt_args (state m)) f = switched f ->
  flag (opt_args (state (fst (read_config lines m)))) f = switched f.
Proof.
  revert m. induction lines as [|raw rest IH]; intros m H; [exact H|].
  rewrite read_config_cons.
  assert (H1 : flag (opt_args (state (fst (config_line raw m)))) f
               = switched f).
  { rewrite config_line_fst. destruct (skipped (chomp raw)); [exact H|].
    apply OptionFacts.parse_options_keeps_flag. exact H. }
  destruct (snd (config_line raw m)); [apply IH| |]; exact H1.
Qed.

Lemma checked_configured (r : memory * ending) (k : memory -> configured)
  (s : option_state) :
  checked r k = Configured s ->
  exists m, r = (m, Return 0) /\ k m = Configured s.
Proof.
  destruct r as [m [z| |]]; cbn [checked]; try discriminate.
  destruct (z =? 0) eqn:E; cbn [negb]; [|discriminate].
  apply Z.eqb_eq in E. subst z. intros H. exists m. split; [reflexivity|exact H].
Qed.

Lemma checked_returned (r : memory * ending) (k : memory -> configured)
  (z : Z) :
  checked r k = Ended (Return z) ->
  (snd r = Return z /\ z <> 0)
  \/ exists m, r = (m, Return 0) /\ k m = Ended (Return z).
Proof.
  destruct r as [m [z'| |]]; cbn [checked]; try discriminate.
  destruct (z' =? 0) eqn:E; cbn [negb].
  - apply Z.eqb_eq in E. subst z'. intros H. right. exists m.
    split; [reflexivity|exact H].
  - apply Z.eqb_neq in E. intros [= <-]. left. split; [reflexivity|exact E].
Qed.

Lemma apply_line_mode_other (m : memory) (k : color_field) :
  (forall f, k <> c_line f) ->
  color (opt_args (apply_line_mode m)) k = color (opt_args (state m)) k.
Proof.
  intros Hk. unfold apply_line_mode.
  destruct (line_mode_var m); [reflexivity| |];
    destruct k; try reflexivity; exfalso; apply (Hk f); reflexivity.
Qed.

Variable XDG_CONFIG_HOME : option string.
Variable SYSCONFDIR : string.
Variable readable : string -> bool.
Variable fopen : string -> option (list string).

Local Abbreviation configure :=
  (configure parse_background_mode strtol atoi wordexp load_background_image
     getopt_long XDG_CONFIG_HOME SYSCONFDIR readable fopen).

(** When [main] goes on after the options, its second pass over the
    command line has returned 0. *)
Lemma configure_configured (argv : list string) (s : option_state) :
  (1 < List.length argv)%nat ->
  configure argv = Configured s ->
  exists m2 m3,
    parse_options to_settings (getopt_long argv) m2 = (m3, Return 0)
    /\ s = apply_line_mode m3.
Proof.
  intros Hn H. unfold Options.configure in H.
  apply checked_configured in H. destruct H as (m1 & _ & H).
  destruct (match config_path_var m1 with
            | Some path => Some (Some path)
            | None => get_config_path wordexp XDG_CONFIG_HOME SYSCONFDIR
                        readable
            end) as [cp|]; [|discriminate H].
  apply checked_configured in H. destruct H as (m2 & _ & H).
  apply checked_configured in H. destruct H as (m3 & H3 & H).
  injection H as <-.
  apply Nat.ltb_lt in Hn. rewrite Hn in H3.
  exists m2, m3. split; [exact H3|reflexivity].
Qed.

End Config.

End ConfigFacts.
Section OptionProperties.

Import Options.

Variable parse_background_mode : string -> background_mode.
Variable strtol : string -> Z -> Z.
Variable atoi : string -> Z.
Variable wordexp : string -> option (list string).
Variable load_background_image : string -> option bool.
Variable getopt_long : list string -> list getopt_result.
Variable XDG_CONFIG_HOME : option string.
Variable SYSCONFDIR : string.
Variable readable : string -> bool.
Variable fopen : string -> option (list string).

Local Abbreviation parse_options :=
  (parse_options parse_background_mode strtol atoi wordexp
     load_background_image).
Local Abbreviation read_config :=
  (read_config parse_background_mode strtol atoi wordexp
     load_background_image getopt_long).
Local Abbreviation load_config :=
  (load_config parse_background_mode strtol atoi wordexp
     load_background_image getopt_long).
Local Abbreviation configure :=
  (configure parse_background_mode strtol atoi wordexp load_background_image
     getopt_long XDG_CONFIG_HOME SYSCONFDIR readable fopen).

(** X12 ([parse_options], [load_config]).  No option switches a boolean
    back: once [ignore_empty], [show_failed_attempts], [daemonize], the
    keyboard layout, caps lock indicator, idle visibility and position
    override flags are set they stay set, and once [show_indicator] or
    [show_caps_lock_text] is cleared it stays cleared, through every
    sequence of options and every configuration file. *)
Theorem flags_never_switched_back (p : pointers) (rs : list getopt_result)
  (lines : list string) (m : memory) (f : flag_field) :
  flag (opt_args (state m)) f = switched f ->
  flag (opt_args (state (fst (parse_options p rs m)))) f = switched f
  /\ flag (opt_args (state (fst (read_config lines m)))) f = switched f.
Proof.
  intros H. split.
  - apply OptionFacts.parse_options_keeps_flag. exact H.
  - apply ConfigFacts.read_config_keeps_flag. exact H.
Qed.

(** X13 ([parse_options]).  When a call with [state] returns 0, every
    colour has the value [parse_color] gives the argument of the last
    option of the call that assigns it, and a colour no option assigns is
    as before. *)
Theorem last_color_option_wins (p : pointers) (rs : list getopt_result)
  (m m' : memory) (k : color_field) :
  to_state p = true ->
  parse_options p rs m = (m', Return 0) ->
  color (opt_args (state m')) k
  = match last_color k rs with
    | Some v => Color.parse_color v
    | None => color (opt_args (state m)) k
    end.
Proof. apply OptionFacts.parse_options_color. Qed.

(** X14 ([main], [load_config], [parse_options]).  The command line is
    read after the configuration file: when [main] goes on, a colour other
    than a line colour that the command line assigns has the value of the
    last such option, whatever the configuration file holds. *)
Theorem command_line_color_beats_config (argv : list string)
  (s : option_state) (k : color_field) (v : string) :
  (1 < List.length argv)%nat ->
  configure argv = Configured s ->
  last_color k (getopt_long argv) = Some v ->
  (forall f, k <> c_line f) ->
  color (opt_args s) k = Color.parse_color v.
Proof.
  intros Hn H Hv Hk.
  destruct (ConfigFacts.configure_configured _ _ _ _ _ _ _ _ _ _ _ _
              Hn H) as (m2 & m3 & H3 & ->).
  rewrite ConfigFacts.apply_line_mode_other by exact Hk.
  rewrite (OptionFacts.parse_options_color _ _ _ _ _ to_settings _ _ _ k
             eq_refl H3).
  rewrite Hv. reflexivity.
Qed.

(** X15 ([main], [parse_options]).  When the last of [-n] and [-r] on the
    command line is [-n], the five line colours are the inside colours
    when [main] goes on; when it is [-r] they are the ring colours.  The
    options that set a line colour have no effect then. *)
Theorem line_mode_of_command_line (argv : list string) (s : option_state) :
  (1 < List.length argv)%nat ->
  configure argv = Configured s ->
  (last_line_mode (getopt_long argv) = Some LM_INSIDE ->
   forall f, color (opt_args s) (c_line f) = color (opt_args s) (c_inside f))
  /\ (last_line_mode (getopt_long argv) = Some LM_RING ->
      forall f, color (opt_args s) (c_line f) = color (opt_args s) (c_ring f)).
Proof.
  intros Hn H.
  destruct (ConfigFacts.configure_configured _ _ _ _ _ _ _ _ _ _ _ _
              Hn H) as (m2 & m3 & H3 & ->).
  pose proof (OptionFacts.parse_options_line_mode _ _ _ _ _ to_settings
                _ _ _ eq_refl H3) as L.
  split; intros E f; rewrite E in L; unfold apply_line_mode; rewrite L;
    reflexivity.
Qed.

(** X16 ([load_config]).  Empty lines and lines that start with [#] are
    passed over: a file is read as the file without them is.  The newline
    that ends a line is cut off before the test. *)
Theorem comment_lines_skipped (lines : list string) (m : memory) :
  read_config lines m
  = read_config (filter (fun raw => negb (skipped (chomp raw))) lines) m.
Proof.
  revert m. induction lines as [|raw rest IH]; intros m; [reflexivity|].
  cbn [filter]. destruct (skipped (chomp raw)) eqn:E; cbn [negb].
  - rewrite <- IH. cbn [Options.read_config]. unfold Options.config_line.
    rewrite E. reflexivity.
  - rewrite !ConfigFacts.read_config_cons.
    destruct (snd (Options.config_line _ _ _ _ _ _ raw m));
      [apply IH|reflexivity|reflexivity].
Qed.

(** X17 ([main], [load_config], [parse_options]).  When the option
    handling of [main] returns, the status is 1 and it is a pass over the
    command line that returned it: [load_config] returns 0 whatever the
    file holds, so a line of the file that [parse_options] rejects does not
    stop the program. *)
Theorem configure_fails_on_command_line_only (argv : list string)
  (z : Z) :
  configure argv = Ended (Return z) ->
  z = 1
  /\ (snd (parse_options to_path_only (getopt_long argv) initial_memory)
      = Return 1
      \/ exists m,
           snd (parse_options to_settings (getopt_long argv) m) = Return 1)
  /\ forall file m z', snd (load_config file m) = Return z' -> z' = 0.
Proof.
  intros H.
  assert (L : forall file m z', snd (load_config file m) = Return z' ->
                                z' = 0).
  { intros [lines|] m z'; cbn [Options.load_config].
    - apply ConfigFacts.read_config_result.
    - intros [= <-]. reflexivity. }
  unfold Options.configure in H.
  apply ConfigFacts.checked_returned in H.
  destruct H as [(H & Hz)|(m1 & _ & H)].
  - destruct (OptionFacts.parse_options_result _ _ _ _ _ _ _ _ _ H)
      as [->| ->]; [contradiction|].
    split; [reflexivity|]. split; [left; exact H|exact L].
  - destruct (match config_path_var m1 with
              | Some path => Some (Some path)
              | None => get_config_path wordexp XDG_CONFIG_HOME SYSCONFDIR
                          readable
              end) as [cp|]; [|discriminate H].
    apply ConfigFacts.checked_returned in H.
    destruct H as [(H & Hz)|(m2 & _ & H)].
    + exfalso. apply Hz. destruct cp as [path|].
      * apply (L _ _ _ H).
      * injection H as <-. reflexivity.
    + apply ConfigFacts.checked_returned in H.
      destruct H as [(H & Hz)|(m3 & _ & H)]; [|discriminate H].
      destruct (1 <? List.length argv)%nat.
      * destruct (OptionFacts.parse_options_result _ _ _ _ _ _ _ _ _ H)
          as [->| ->]; [contradiction|].
        split; [reflexivity|]. split; [right; exists m2; exact H|exact L].
      * injection H as <-. contradiction.
Qed.

End OptionProperties.

Lemma flags_never_switched_back_witness :
  Options.flag
    (Options.opt_args
       (Options.state
          (fst (Options.parse_options OptionSamples.modes
                  OptionSamples.numbers OptionSamples.number
                  OptionSamples.words OptionSamples.loads
                  Options.to_settings OptionSamples.command_line
                  OptionSamples.ignoring_empty))))
    Options.b_ignore_empty
  = true.
Proof.
  apply (flags_never_switched_back OptionSamples.modes OptionSamples.numbers
           OptionSamples.number OptionSamples.words OptionSamples.loads
           OptionSamples.getopt Options.to_settings
           OptionSamples.command_line OptionSamples.config_file
           OptionSamples.ignoring_empty Options.b_ignore_empty).
  reflexivity.
Defined.

Lemma last_color_option_wins_witness :
  Options.color
    (Options.opt_args
       (Options.state
          (fst (Options.parse_options OptionSamples.modes
                  OptionSamples.numbers OptionSamples.number
                  OptionSamples.words OptionSamples.loads
                  Options.to_settings OptionSamples.command_line
                  Options.initial_memory))))
    Options.c_background
  = 0x112233FF.
Proof.
  etransitivity.
  - apply (last_color_option_wins OptionSamples.modes OptionSamples.numbers
             OptionSamples.number OptionSamples.words OptionSamples.loads
             Options.to_settings OptionSamples.command_line
             Options.initial_memory).
    + reflexivity.
    + vm_compute. reflexivity.
  - vm_compute. reflexivity.
Defined.

Lemma command_line_color_beats_config_witness :
  exists s,
    Options.configure OptionSamples.modes OptionSamples.numbers
      OptionSamples.number OptionSamples.words OptionSamples.loads
      OptionSamples.getopt None "/etc" OptionSamples.unreadable
      OptionSamples.files OptionSamples.argv
    = Options.Configured s
    /\ Options.color (Options.opt_args s) Options.c_background = 0x112233FF.
Proof.
  destruct (Options.configure OptionSamples.modes OptionSamples.numbers
              OptionSamples.number OptionSamples.words OptionSamples.loads
              OptionSamples.getopt None "/etc" OptionSamples.unreadable
              OptionSamples.files OptionSamples.argv) as [s|e] eqn:E.
  - exists s. split; [reflexivity|].
    apply (command_line_color_beats_config OptionSamples.modes
             OptionSamples.numbers OptionSamples.number OptionSamples.words
             OptionSamples.loads OptionSamples.getopt None "/etc"
             OptionSamples.unreadable OptionSamples.files
             OptionSamples.argv s Options.c_background "112233").
    + simpl. lia.
    + exact E.
    + reflexivity.
    + intros f. discriminate.
  - vm_compute in E. discriminate E.
Defined.

Lemma line_mode_of_command_line_witness :
  exists s,
    Options.configure OptionSamples.modes OptionSamples.numbers
      OptionSamples.number OptionSamples.words OptionSamples.loads
      OptionSamples.getopt None "/etc" OptionSamples.unreadable
      OptionSamples.files OptionSamples.argv
    = Options.Configured s
    /\ forall f,
         Options.color (Options.opt_args s) (Options.c_line f)
         = Options.color (Options.opt_args s) (Options.c_inside f).
Proof.
  destruct (Options.configure OptionSamples.modes OptionSamples.numbers
              OptionSamples.number OptionSamples.words OptionSamples.loads
              OptionSamples.getopt None "/etc" OptionSamples.unreadable
              OptionSamples.files OptionSamples.argv) as [s|e] eqn:E.
  - exists s. split; [reflexivity|].
    apply (line_mode_of_command_line OptionSamples.modes
             OptionSamples.numbers OptionSamples.number OptionSamples.words
             OptionSamples.loads OptionSamples.getopt None "/etc"
             OptionSamples.unreadable OptionSamples.files
             OptionSamples.argv s).
    + simpl. lia.
    + exact E.
    + reflexivity.
  - vm_compute in E. discriminate E.
Defined.

Lemma configure_fails_on_command_line_only_witness :
  snd (Options.parse_options OptionSamples.modes OptionSamples.numbers
         OptionSamples.number OptionSamples.words OptionSamples.loads
         Options.to_path_only
         (OptionSamples.getopt ["swaylock"; "--bogus"])
         Options.initial_memory)
  = Options.Return 1
  \/ exists m,
       snd (Options.parse_options OptionSamples.modes OptionSamples.numbers
              OptionSamples.number OptionSamples.words OptionSamples.loads
              Options.to_settings
              (OptionSamples.getopt ["swaylock"; "--bogus"]) m)
       = Options.Return 1.
Proof.
  apply (configure_fails_on_command_line_only OptionSamples.modes
           OptionSamples.numbers OptionSamples.number OptionSamples.words
           OptionSamples.loads OptionSamples.getopt None "/etc"
           OptionSamples.unreadable OptionSamples.files
           ["swaylock"; "--bogus"] 1).
  vm_compute. reflexivity.
Defined.


(** ** Relations kept along a run *)

Section Within.

Variable rd : swaylock_state -> swaylock_surface -> bool.
Variable R : world -> world -> Prop.
Variable H : halt -> world -> Prop.

Hypothesis R_refl : forall w, R w w.
Hypothesis R_trans : forall w1 w2 w3, R w1 w2 -> R w2 w3 -> R w1 w3.
Hypothesis R_emit :
  forall a w, R w {| st := st w; next_ptr := next_ptr w; log := a :: log w |}.
Hypothesis R_alloc :
  forall w, R w {| st := st w; next_ptr := S (next_ptr w); log := log w |}.
Hypothesis R_surfaces :
  forall l w, R w {| st := set_surfaces l (st w); next_ptr := next_ptr w;
                     log := log w |}.
Hypothesis R_locked :
  forall w, R w {| st := set_flag F_locked true (st w);
                   next_ptr := next_ptr w; log := log w |}.
Hypothesis R_modify :
  forall f w, R w {| st := f (st w); next_ptr := next_ptr w; log := log w |}.
Hypothesis H_undefined : forall w, H Undefined w.
Hypothesis H_waiting : forall w, H Waiting w.
Hypothesis H_one : forall w, H (Exited 1) w.
Hypothesis H_two : forall w, H (Exited 2) w.

Lemma within_ret {A} (a : A) : within R H (ret a).
Proof. intros w. apply R_refl. Qed.

Lemma within_get : within R H get.
Proof. intros w. apply R_refl. Qed.

Lemma within_emit a : within R H (emit a).
Proof. intros w. apply R_emit. Qed.

Lemma within_alloc : within R H alloc.
Proof. intros w. apply R_alloc. Qed.

Lemma within_stop {A} h : (forall w, H h w) -> within R H (@stop A h).
Proof. intros Hh w. split; [apply R_refl|apply Hh]. Qed.

Lemma within_exit {A} c : (forall w, H (Exited c) w) -> within R H (@exit A c).
Proof. intros Hh w. split; [apply R_refl|apply Hh]. Qed.

Lemma within_bind {A B} (m : M A) (k : A -> M B) :
  within R H m -> (forall a, within R H (k a)) -> within R H (bind m k).
Proof.
  intros Hm Hk w. unfold bind. specialize (Hm w).
  destruct (m w) as [a w1|h w1]; [|exact Hm].
  specialize (Hk a w1). destruct (k a w1) as [b w2|h w2].
  - eapply R_trans; eassumption.
  - destruct Hk as (Hr & Hh). split; [eapply R_trans; eassumption|exact Hh].
Qed.

Lemma within_when b (m : M unit) : within R H m -> within R H (when b m).
Proof. intros Hm. destruct b; [exact Hm|apply within_ret]. Qed.

Lemma within_guard b c : (forall w, H (Exited c) w) -> within R H (guard b c).
Proof. intros Hc. destruct b; [apply within_ret|apply within_exit, Hc]. Qed.

Lemma within_with_surface p f : within R H (with_surface p f).
Proof. intros w. apply R_surfaces. Qed.

Lemma within_surface_at p : within R H (surface_at p).
Proof.
  apply within_bind; [apply within_get|]. intros s.
  destruct (find_surface p (surfaces s));
    [apply within_ret|apply within_stop, H_undefined].
Qed.

Lemma within_render p : within R H (render rd p).
Proof.
  apply within_bind; [apply within_surface_at|]. intros sf.
  apply within_bind; [apply within_get|]. intros s.
  apply within_bind; [apply within_emit|]. intros _.
  apply within_with_surface.
Qed.

Lemma within_destroy_surface p : within R H (destroy_surface p).
Proof.
  apply within_bind; [apply within_surface_at|]. intros sf.
  apply within_bind; [intros w; apply R_surfaces|]. intros _.
  repeat (apply within_bind;
          [first [apply within_when, within_emit|apply within_emit]|
           intros _]).
  apply within_emit.
Qed.

Lemma within_create_surface p : within R H (create_surface p).
Proof.
  apply within_bind; [apply within_surface_at|]. intros sf.
  apply within_bind; [apply within_get|]. intros s.
  apply within_bind; [apply within_emit|]. intros _.
  apply within_bind; [apply within_emit|]. intros _.
  apply within_bind; [apply within_when, within_emit|]. intros _.
  apply within_with_surface.
Qed.

Lemma within_redraw p :
  within R H (with_surface p (set_dirty true) ;; render rd p).
Proof.
  apply within_bind; [apply within_with_surface|]. intros _.
  apply within_render.
Qed.

Lemma within_damage_each ps : within R H (damage_each rd ps).
Proof.
  induction ps as [|p ps IH]; [apply within_ret|].
  apply within_bind; [apply within_with_surface|]. intros _.
  apply within_bind; [apply within_render|]. intros _. exact IH.
Qed.

Lemma within_damage_state : within R H (damage_state rd).
Proof.
  apply within_bind; [apply within_get|]. intros s. apply within_damage_each.
Qed.

(** Every listener but the one of the registry's [global] event. *)
Lemma within_handle_other e :
  (forall name interface, e <> EvGlobal name interface) ->
  within R H (handle rd e).
Proof.
  intros Hne. destruct e; cbn [handle].
  - exfalso. eapply Hne. reflexivity.
  - apply within_bind; [apply within_get|]. intros s.
    destruct (find_output name (surfaces s));
      [apply within_destroy_surface|apply within_ret].
  - apply within_bind; [apply within_with_surface|]. intros _.
    apply within_bind; [apply within_get|]. intros s.
    apply within_when, within_redraw.
  - apply within_ret.
  - apply within_bind; [apply within_surface_at|]. intros sf.
    apply within_bind; [apply within_get|]. intros s.
    apply within_when, within_create_surface.
  - apply within_bind; [apply within_with_surface|]. intros _.
    apply within_bind; [apply within_get|]. intros s.
    apply within_when, within_redraw.
  - apply within_with_surface.
  - apply within_ret.
  - intros w. apply R_locked.
  - apply within_exit, H_two.
  - apply within_bind; [apply within_with_surface|]. intros _.
    apply within_bind; [apply within_emit|]. intros _.
    apply within_redraw.
Qed.

Lemma within_handle_global name interface :
  within R H (handle_global name interface).
Proof.
  unfold handle_global.
  repeat match goal with
         | |- within R H (if ?b then _ else _) => destruct b
         end;
    try (intros w; apply R_modify); try apply within_emit;
    try apply within_ret.
  apply within_bind; [apply within_alloc|]. intros p.
  apply within_bind; [apply within_emit|]. intros _.
  intros w. apply R_modify.
Qed.

Lemma within_deliver e : within R H (deliver rd e).
Proof.
  apply within_bind; [apply within_get|]. intros s.
  apply within_when. apply within_bind; [apply within_emit|]. intros _.
  destruct e; try (apply within_handle_other; discriminate).
  apply within_handle_global.
Qed.

Lemma within_dispatch_events evs : within R H (dispatch_events rd evs).
Proof.
  induction evs as [|e evs IH]; [apply within_ret|].
  apply within_bind; [apply within_deliver|]. intros _. exact IH.
Qed.

Lemma within_wl_display_dispatch d : within R H (wl_display_dispatch rd d).
Proof.
  destruct d; cbn [wl_display_dispatch].
  - apply within_bind; [apply within_emit|]. intros _. apply within_ret.
  - apply within_bind; [apply within_dispatch_events|]. intros _.
    apply within_ret.
Qed.

Lemma within_wl_display_roundtrip d :
  within R H (wl_display_roundtrip rd d).
Proof.
  apply within_bind; [apply within_emit|]. intros _.
  apply within_wl_display_dispatch.
Qed.

Lemma within_callback_of r : within R H (callback_of rd r).
Proof.
  destruct r as [d|mask reply|]; cbn [callback_of].
  - apply within_bind; [apply within_wl_display_dispatch|]. intros ok.
    apply within_when. intros w. apply R_modify.
  - unfold comm_in.
    destruct (negb (Z.land mask POLLIN =? 0)).
    + destruct reply as [[]|].
      * intros w. apply R_modify.
      * apply within_bind; [intros w; apply R_modify|]. intros _.
        apply within_bind; [apply within_emit|]. intros _.
        apply within_bind; [apply within_get|]. intros s.
        apply within_bind; [|intros _; apply within_damage_state].
        destruct (failed_attempts s <? INT_MAX);
          [intros w; apply R_modify|apply within_stop, H_undefined].
      * apply within_exit, H_one.
    + destruct (negb (Z.land mask (Z.lor POLLHUP POLLERR) =? 0));
        [apply within_exit, H_one|apply within_ret].
  - intros w. apply R_modify.
Qed.

Lemma within_loop_poll rs : within R H (loop_poll rd rs).
Proof.
  induction rs as [|r rs IH]; [apply within_ret|].
  apply within_bind; [apply within_emit|]. intros _.
  apply within_bind; [apply within_callback_of|]. intros _. exact IH.
Qed.

Lemma within_create_each ps : within R H (create_each ps).
Proof.
  induction ps as [|p ps IH]; [apply within_ret|].
  apply within_bind; [apply within_create_surface|]. intros _. exact IH.
Qed.

Lemma within_wait_locked ds : within R H (wait_locked rd ds).
Proof.
  induction ds as [|d ds IH]; cbn [wait_locked].
  - apply within_bind; [apply within_get|]. intros s.
    destruct (locked s); [apply within_ret|apply within_stop, H_waiting].
  - apply within_bind; [apply within_get|]. intros s.
    destruct (locked s); [apply within_ret|].
    apply within_bind; [apply within_wl_display_dispatch|]. intros ok.
    apply within_bind; [apply within_guard, H_two|]. intros _. exact IH.
Qed.

Lemma within_event_loop its : within R H (event_loop rd its).
Proof.
  induction its as [|it its IH]; cbn [event_loop].
  - apply within_bind; [apply within_get|]. intros s.
    destruct (run_display s); [apply within_stop, H_waiting|apply within_ret].
  - apply within_bind; [apply within_get|]. intros s.
    destruct (run_display s); [|apply within_ret].
    apply within_bind; [apply within_emit|]. intros _.
    destruct (flush_fatal it); [apply within_ret|].
    apply within_bind; [apply within_loop_poll|]. intros _. exact IH.
Qed.

Lemma within_notify_ready n : within R H (notify_ready n).
Proof.
  apply within_bind; [apply within_get|]. intros s. apply within_when.
  apply within_bind; [apply within_emit|]. intros _.
  apply within_bind; [apply within_guard, H_two|]. intros _.
  apply within_bind; [apply within_emit|]. intros _.
  intros w. apply R_modify.
Qed.


(** [lock_session] once the lock has been requested. *)
Lemma within_lock_requested e :
  within R H
    (modify (set_flag F_lock true) ;;
     ok <- wl_display_roundtrip rd (lock_reply e) ;;
     guard ok 1 ;;
     s <- get ;;
     create_each (map fst (surfaces s)) ;;
     wait_locked rd (lock_wait e)).
Proof.
  apply within_bind; [intros w; apply R_modify|]. intros _.
  apply within_bind; [apply within_wl_display_roundtrip|]. intros ok.
  apply within_bind; [apply within_guard, H_one|]. intros _.
  apply within_bind; [apply within_get|]. intros s.
  apply within_bind; [apply within_create_each|]. intros _.
  apply within_wait_locked.
Qed.


Lemma within_serve e : within R H (serve rd e).
Proof.
  repeat (apply within_bind; [apply within_emit|]; intros _).
  apply within_bind; [intros w; apply R_modify|]. intros _.
  apply within_event_loop.
Qed.

End Within.
Lemma extends_refl w : extends w w.
Proof. exists []. reflexivity. Qed.

Lemma extends_trans w1 w2 w3 : extends w1 w2 -> extends w2 w3 -> extends w1 w3.
Proof.
  intros (a1 & E1) (a2 & E2). exists (a2 ++ a1).
  rewrite E2, E1, app_assoc. reflexivity.
Qed.

Lemma same_globals_refl w : same_globals w w.
Proof. unfold same_globals. tauto. Qed.

Lemma same_globals_trans w1 w2 w3 :
  same_globals w1 w2 -> same_globals w2 w3 -> same_globals w1 w3.
Proof.
  unfold same_globals. intros (a1 & a2 & a3 & a4) (b1 & b2 & b3 & b4).
  repeat split; congruence.
Qed.

Section RunRelations.

Variable rd : swaylock_state -> swaylock_surface -> bool.

(** No listener but the registry's binds or drops a global. *)
Lemma handle_other_globals e :
  (forall name interface, e <> EvGlobal name interface) ->
  within same_globals any_halt (handle rd e).
Proof.
  apply within_handle_other;
    try (intros; unfold same_globals; simpl; tauto);
    try (intros; exact I).
  apply same_globals_trans.
Qed.

Lemma deliver_globals e w :
  let w' := final (deliver rd e w) in
  compositor (st w') = (compositor (st w) || is_global "wl_compositor" e)%bool
  /\ subcompositor (st w')
     = (subcompositor (st w) || is_global "wl_subcompositor" e)%bool
  /\ shm (st w') = (shm (st w) || is_global "wl_shm" e)%bool
  /\ ext_session_lock_manager_v1 (st w')
     = (ext_session_lock_manager_v1 (st w)
        || is_global "ext_session_lock_manager_v1" e)%bool.
Proof.
  destruct e as [name i| | | | | | | | | |];
    try (unfold deliver, bind, get, when;
         match goal with
         | |- context [listening ?e (st w)] =>
             destruct (listening e (st w)); cbn [is_global];
             [pose proof (handle_other_globals e
                            ltac:(intros; discriminate)
                            {| st := st w; next_ptr := next_ptr w;
                               log := Recv e :: log w |}) as Hh;
              unfold emit;
              destruct (handle rd e _) as [[] w1|h w1];
              [|destruct Hh as (Hh & _)];
              unfold same_globals in Hh; cbn in Hh |- *;
              rewrite !orb_false_r; exact Hh
             |cbn; rewrite !orb_false_r; tauto]
         end).
  unfold deliver, bind, get, when, emit. cbn [listening handle is_global].
  unfold handle_global.
  destruct (String.eqb_spec i "wl_compositor") as [->|N1];
    [cbn; rewrite !orb_false_r, orb_true_r; tauto|].
  destruct (String.eqb_spec i "wl_subcompositor") as [->|N2];
    [cbn; rewrite !orb_false_r, orb_true_r; tauto|].
  destruct (String.eqb_spec i "wl_shm") as [->|N3];
    [cbn; rewrite !orb_false_r, orb_true_r; tauto|].
  destruct (String.eqb_spec i "wl_seat") as [->|N4];
    [cbn; rewrite !orb_false_r; tauto|].
  destruct (String.eqb_spec i "wl_output") as [->|N5];
    [cbn; rewrite !orb_false_r; tauto|].
  destruct (String.eqb_spec i "ext_session_lock_manager_v1") as [->|N6];
    [cbn; rewrite !orb_false_r, orb_true_r; tauto|].
  cbn. rewrite !orb_false_r. tauto.
Qed.

Lemma dispatch_events_globals evs :
  forall w w',
    dispatch_events rd evs w = Go tt w' ->
    compositor (st w')
    = (compositor (st w) || advertised "wl_compositor" evs)%bool
    /\ subcompositor (st w')
       = (subcompositor (st w) || advertised "wl_subcompositor" evs)%bool
    /\ shm (st w') = (shm (st w) || advertised "wl_shm" evs)%bool
    /\ ext_session_lock_manager_v1 (st w')
       = (ext_session_lock_manager_v1 (st w)
          || advertised "ext_session_lock_manager_v1" evs)%bool.
Proof.
  induction evs as [|e evs IH]; intros w w'.
  - intros [= <-]. cbn. rewrite !orb_false_r. tauto.
  - cbn [dispatch_events]. unfold bind.
    pose proof (deliver_globals e w) as D.
    destruct (deliver rd e w) as [[] w1|h w1]; [|discriminate].
    intros Hd. destruct (IH _ _ Hd) as (a1 & a2 & a3 & a4).
    cbn in D. destruct D as (b1 & b2 & b3 & b4).
    unfold advertised. cbn [existsb].
    rewrite a1, a2, a3, a4, b1, b2, b3, b4, !orb_assoc.
    repeat split; reflexivity.
Qed.

End RunRelations.
Section RunStatus.

Variable rd : swaylock_state -> swaylock_surface -> bool.

(** The side conditions of the lemmas of [Within] for [extends] and
    [status_ok]. *)
Ltac run_side :=
  first [ apply extends_refl
        | apply extends_trans
        | (intros ? ?; eexists [_]; reflexivity)
        | (intros; exists []; reflexivity)
        | (intros; cbn; auto) ].



Lemma run_lock_requested e :
  within extends status_ok
    (modify (set_flag F_lock true) ;;
     ok <- wl_display_roundtrip rd (lock_reply e) ;;
     guard ok 1 ;;
     s <- get ;;
     create_each (map fst (surfaces s)) ;;
     wait_locked rd (lock_wait e)).
Proof. apply within_lock_requested; run_side. Qed.

Lemma run_notify_ready n : within extends status_ok (notify_ready n).
Proof. apply within_notify_ready; run_side. Qed.

Lemma run_serve e : within extends status_ok (serve rd e).
Proof. apply within_serve; run_side. Qed.

Lemma run_roundtrip d :
  within extends status_ok (wl_display_roundtrip rd d).
Proof. apply within_wl_display_roundtrip; run_side. Qed.

Lemma run_detach e : within extends status_ok (detach e).
Proof.
  intros w. unfold detach, bind, get, when.
  destruct (daemonize_flag (args (st w))); [|apply extends_refl].
  unfold daemonize, bind, emit.
  assert (E : extends w {| st := st w; next_ptr := next_ptr w;
                           log := Daemonize :: log w |})
    by (exists [Daemonize]; reflexivity).
  destruct (daemon e) as [|[] []|[]]; cbn;
    first [exact E|split; [exact E|cbn; auto]].
  right. right. split; [reflexivity|]. right. left. reflexivity.
Qed.

Lemma run_unlock e : within extends status_ok (unlock rd e).
Proof.
  intros w. unfold unlock, bind, emit, modify, exit.
  cbn [st next_ptr log].
  set (w1 := {| st := set_flag F_lock false (st w); next_ptr := next_ptr w;
                log := UnlockAndDestroy :: log w |}).
  assert (E : extends w w1) by (exists [UnlockAndDestroy]; reflexivity).
  pose proof (run_roundtrip (last_roundtrip e) w1) as Hr.
  destruct (wl_display_roundtrip rd (last_roundtrip e) w1) as [ok w2|h w2];
    cbv beta iota.
  - split; [eapply extends_trans; eassumption|].
    right. right. split; [reflexivity|]. left.
    destruct Hr as (acts & L). rewrite L. apply in_or_app. right.
    left. reflexivity.
  - destruct Hr as (Hr & Hh). split; [eapply extends_trans; eassumption|].
    exact Hh.
Qed.

Lemma run_bind {A B} (m : M A) (k : A -> M B) :
  within extends status_ok m -> (forall a, within extends status_ok (k a)) ->
  within extends status_ok (bind m k).
Proof. apply within_bind. apply extends_trans. Qed.

Lemma run_session e :
  within extends status_ok
    (notify_ready (ready_write e) ;; detach e ;; serve rd e ;; unlock rd e).
Proof.
  apply run_bind; [apply run_notify_ready|]. intros _.
  apply run_bind; [apply run_detach|]. intros _.
  apply run_bind; [apply run_serve|]. intros _.
  apply run_unlock.
Qed.


(** What [connect] comes to once the events of the round trip have been
    handled. *)
Lemma connect_result e a imgs evs w1 :
  connect_ok e = true ->
  globals e = Dispatch evs ->
  dispatch_events rd evs (connected a imgs) = Go tt w1 ->
  connect rd e (initial_world a imgs)
  = if (compositor (st w1) && subcompositor (st w1) && shm (st w1)
        && ext_session_lock_manager_v1 (st w1))%bool
    then Go tt w1 else Halt (Exited 1) w1.
Proof.
  intros Hc Hg Hd.
  unfold connect, wl_display_roundtrip, wl_display_dispatch.
  rewrite Hc, Hg. unfold bind at 1. unfold modify.
  unfold bind at 1. cbn [guard ret]. unfold bind at 1. unfold bind at 1.
  unfold emit.
  change {| st := st {| st := set_surfaces [] (st (initial_world a imgs));
                        next_ptr := next_ptr (initial_world a imgs);
                        log := log (initial_world a imgs) |};
            next_ptr := _; log := _ |}
    with (connected a imgs).
  unfold bind at 1. rewrite Hd.
  cbv beta iota delta [bind ret guard get exit].
  destruct (compositor (st w1)), (subcompositor (st w1)), (shm (st w1)),
    (ext_session_lock_manager_v1 (st w1)); reflexivity.
Qed.

End RunStatus.

(** X20 ([main], [handle_global]).  With the display connected, the lock
    is requested exactly when the first round trip has announced the
    compositor, the subcompositor, the shared memory and the session lock
    manager: otherwise the process exits with status 1 in the world the
    round trip left, with nothing requested. *)
Theorem lock_requested_iff_globals
  (rd : swaylock_state -> swaylock_surface -> bool)
  (e : env) (a : swaylock_args) (imgs : list swaylock_image)
  (evs : list event) :
  connect_ok e = true ->
  globals e = Dispatch evs ->
  exists w1,
    dispatch_events rd evs (connected a imgs) = Go tt w1
    /\ if forallb (fun i => advertised i evs) required_globals
       then exists acts,
              log (final (run_main rd e a imgs))
              = acts ++ LockRequest :: log w1
       else run_main rd e a imgs = Halt (Exited 1) w1.
Proof.
  intros Hc Hg.
  destruct (dispatch_events_unlocked rd evs (connected a imgs) eq_refl)
    as (w1 & Hd).
  exists w1. split; [exact Hd|].
  pose proof (connect_result rd e a imgs evs w1 Hc Hg Hd) as C.
  destruct (dispatch_events_globals rd evs _ _ Hd) as (F1 & F2 & F3 & F4).
  cbn [connected st initial_state compositor subcompositor shm
       ext_session_lock_manager_v1 orb] in F1, F2, F3, F4.
  rewrite F1, F2, F3, F4 in C.
  cbn [forallb required_globals]. rewrite andb_true_r, !andb_assoc.
  unfold run_main, main.
  destruct (advertised "wl_compositor" evs && advertised "wl_subcompositor" evs
            && advertised "wl_shm" evs
            && advertised "ext_session_lock_manager_v1" evs)%bool.
  - unfold bind at 1. rewrite C.
    pose proof (run_bind _ _ (run_lock_requested rd e)
                  (fun _ => run_session rd e)
                  {| st := st w1; next_ptr := next_ptr w1;
                     log := LockRequest :: log w1 |}) as W.
    match type of W with
    | match ?r with _ => _ end =>
        match goal with
        | |- exists acts, log (final ?r') = _ =>
            change r' with r; destruct r as [[] w2|h w2]
        end
    end.
    + exact W.
    + destruct W as (W & _). exact W.
  - unfold bind at 1. rewrite C. reflexivity.
Qed.

Lemma lock_requested_iff_globals_witness :
  (exists w1 acts,
     log (final (run_main render_draws sample_env sample_args []))
     = acts ++ LockRequest :: log w1)
  /\ exists w1,
       run_main render_draws unsupporting_env sample_args []
       = Halt (Exited 1) w1.
Proof.
  split.
  - destruct (lock_requested_iff_globals render_draws sample_env sample_args
                [] _ eq_refl eq_refl) as (w1 & _ & acts & L).
    exists w1, acts. exact L.
  - destruct (lock_requested_iff_globals render_draws unsupporting_env
                sample_args [] _ eq_refl eq_refl) as (w1 & _ & L).
    exists w1. exact L.
Defined.

Lemma bind_assoc {A B C} (m : M A) (f : A -> M B) (g : B -> M C) w :
  bind (bind m f) g w = bind m (fun a => bind (f a) g) w.
Proof. unfold bind. destruct (m w); reflexivity. Qed.

Lemma damage_each_renders rd ps :
  forall w,
    incl ps (map fst (surfaces (st w))) ->
    exists w' rendered,
      damage_each rd ps w = Go tt w'
      /\ log w'
         = rev (map (fun ps => Render (fst ps) (snd ps)) rendered) ++ log w
      /\ map fst rendered = ps
      /\ Forall (fun ps => dirty (snd ps) = true) rendered
      /\ cosmetic w w'.
Proof.
  induction ps as [|p ps IH]; intros w Hincl.
  - exists w, []. split; [reflexivity|]. split; [reflexivity|].
    split; [reflexivity|]. split; [constructor|apply cosmetic_refl].
  - destruct (find_in_some p (surfaces (st w)) (Hincl p (or_introl eq_refl)))
      as (sf & Fs).
    destruct (damage_one_spec rd p w sf Fs) as (w1 & E1 & C1 & L1 & _).
    destruct (IH w1) as (w' & rendered & E & L & P & D & C).
    { rewrite (cosmetic_ptrs _ _ C1). intros x Hx. apply Hincl. right.
      exact Hx. }
    exists w', ((p, set_dirty true sf) :: rendered).
    split; [|split; [|split; [|split]]].
    + cbn [damage_each].
      rewrite <- (bind_assoc (with_surface p (set_dirty true))
                    (fun _ => render rd p) (fun _ => damage_each rd ps)).
      unfold bind at 1. rewrite E1. exact E.
    + rewrite L, L1. cbn [map rev fst snd]. rewrite <- app_assoc.
      reflexivity.
    + cbn [map fst]. rewrite P. reflexivity.
    + constructor; [reflexivity|exact D].
    + eapply cosmetic_trans; eassumption.
Qed.

(** X21 ([damage_state]).  [damage_state] renders every surface of the
    list once, in the order of the list, each with its dirty flag set when
    it is rendered; it logs nothing else, always returns, and changes
    neither the list of surfaces as far as the protocol depends on it nor
    the lock state. *)
Theorem damage_state_renders_all
  (rd : swaylock_state -> swaylock_surface -> bool) (w : world) :
  exists w' rendered,
    damage_state rd w = Go tt w'
    /\ log w'
       = rev (map (fun ps => Render (fst ps) (snd ps)) rendered) ++ log w
    /\ map fst rendered = map fst (surfaces (st w))
    /\ Forall (fun ps => dirty (snd ps) = true) rendered
    /\ cosmetic w w'.
Proof.
  unfold damage_state, bind, get.
  apply damage_each_renders. apply incl_refl.
Qed.

(** X22 ([lenient_strcmp]).  The comparison is 0 exactly for equal
    arguments, NULL being equal to NULL only; NULL comes before every
    string; and swapping the arguments swaps the sign. *)
Theorem lenient_strcmp_order (a b : option string) :
  (lenient_strcmp a b = 0 <-> a = b)
  /\ Z.sgn (lenient_strcmp a b) = - Z.sgn (lenient_strcmp b a)
  /\ (forall s, lenient_strcmp None (Some s) < 0).
Proof.
  split; [apply ImageFacts.lenient_strcmp_zero|]. split.
  - destruct a as [x|], b as [y|]; try reflexivity.
    cbn [lenient_strcmp]. unfold strcmp.
    rewrite (String.compare_antisym y x).
    destruct (String.compare x y); reflexivity.
  - intros s. reflexivity.
Qed.

(** X23 ([load_config], [parse_options]).  A line of the configuration
    file that asks for a scaling mode [parse_background_mode] does not know
    ends the reading of the file: the invalid mode is stored, the lines
    after it are not read, and [load_config] returns 0 all the same. *)
Theorem invalid_scaling_line
  (parse_background_mode : string -> background_mode)
  (strtol : string -> Z -> Z) (atoi : string -> Z)
  (wordexp : string -> option (list string))
  (load_background_image : string -> option bool)
  (getopt_long : list string -> list Options.getopt_result)
  (raw : string) (r : Options.getopt_result) (rest : list string)
  (m : Options.memory) :
  Options.skipped (Options.chomp raw) = false ->
  getopt_long ["swaylock"; ("--" ++ Options.chomp raw)%string] = [r] ->
  Options.opt r = Options.Short "s" ->
  parse_background_mode (Options.optarg r) = BACKGROUND_MODE_INVALID ->
  Options.load_config parse_background_mode strtol atoi wordexp
    load_background_image getopt_long (Some (raw :: rest)) m
  = (Options.set_state
       (Options.set_args
          (Options.assign_mode BACKGROUND_MODE_INVALID
             (Options.opt_args (Options.state m)))
          (Options.state m)) m,
     Options.Return 0).
Proof.
  intros Hs Hg Ho Hm. destruct r as [c arg]. cbn [Options.opt] in Ho.
  subst c. cbn [Options.optarg] in Hm.
  cbn [Options.load_config Options.read_config].
  unfold Options.config_line. rewrite Hs, Hg.
  cbn [Options.parse_options]. unfold Options.option_case.
  cbn [Options.opt Options.optarg Options.color_case Options.flag_case
       Options.to_settings Options.to_state].
  cbv zeta. rewrite Hm. reflexivity.
Qed.

Lemma invalid_scaling_line_witness :
  exists m',
    Options.load_config OptionSamples.modes OptionSamples.numbers
      OptionSamples.number OptionSamples.words OptionSamples.loads
      OptionSamples.getopt
      (Some [ ("scaling=zoom" ++ newline)%string; "color=000000" ])
      Options.initial_memory
    = (m', Options.Return 0)
    /\ Options.arg_mode (Options.opt_args (Options.state m'))
       = BACKGROUND_MODE_INVALID
    /\ Options.color (Options.opt_args (Options.state m'))
         Options.c_background
       = 0xA3A3A3FF.
Proof.
  eexists. split; [|split].
  - apply (invalid_scaling_line OptionSamples.modes OptionSamples.numbers
             OptionSamples.number OptionSamples.words OptionSamples.loads
             OptionSamples.getopt ("scaling=zoom" ++ newline)%string
             {| Options.opt := Options.Short "s";
                Options.optarg := "zoom" |}
             [ "color=000000" ] Options.initial_memory);
      reflexivity.
  - reflexivity.
  - reflexivity.
Defined.

(** X24 ([get_config_path], [file_exists]).  The path returned is
    readable and is the first word of the expansion of one of the three
    candidates; a readable [$HOME/.swaylock/config] is returned whatever
    the other candidates are; and an empty [XDG_CONFIG_HOME] gives the
    candidates of an unset one, [$HOME/.config/swaylock/config] in the
    second place. *)
Theorem get_config_path_spec
  (wordexp : string -> option (list string))
  (XDG_CONFIG_HOME : option string) (SYSCONFDIR : string)
  (readable : string -> bool) :
  (forall path,
     Options.get_config_path wordexp XDG_CONFIG_HOME SYSCONFDIR readable
     = Some (Some path) ->
     readable path = true
     /\ exists candidate ws,
          In candidate (Options.config_paths XDG_CONFIG_HOME SYSCONFDIR)
          /\ wordexp candidate = Some (path :: ws))
  /\ (forall path ws,
        wordexp "$HOME/.swaylock/config" = Some (path :: ws) ->
        readable path = true ->
        Options.get_config_path wordexp XDG_CONFIG_HOME SYSCONFDIR readable
        = Some (Some path))
  /\ Options.config_paths (Some EmptyString) SYSCONFDIR
     = Options.config_paths None SYSCONFDIR
  /\ nth 1 (Options.config_paths None SYSCONFDIR) EmptyString
     = "$HOME/.config/swaylock/config".
Proof.
  split; [|split; [|split; reflexivity]].
  - unfold Options.get_config_path.
    generalize (Options.config_paths XDG_CONFIG_HOME SYSCONFDIR).
    intros paths. induction paths as [|c paths IH]; intros path;
      [discriminate|].
    cbn [Options.first_existing Options.file_exists].
    destruct (wordexp c) as [[|p ws]|] eqn:W; [discriminate| |].
    + destruct (readable p) eqn:Rp.
      * intros [= <-]. split; [exact Rp|].
        exists c, ws. split; [left; reflexivity|exact W].
      * intros Hf. destruct (IH path Hf) as (Hr & c' & ws' & Hin & Hw).
        split; [exact Hr|]. exists c', ws'.
        split; [right; exact Hin|exact Hw].
    + intros Hf. destruct (IH path Hf) as (Hr & c' & ws' & Hin & Hw).
      split; [exact Hr|]. exists c', ws'.
      split; [right; exact Hin|exact Hw].
  - intros path ws W Rp. unfold Options.get_config_path, Options.config_paths.
    cbn [Options.first_existing Options.file_exists]. rewrite W, Rp.
    reflexivity.
Qed.

(** X25 ([handle_wl_output_name], [create_surface], [select_image]).
    When the name of an output has arrived, the surface created for the
    output carries that name and shows the image chosen for it: the first
    image given for that name, else the last default image. *)
Theorem named_output_gets_its_image
  (rd : swaylock_state -> swaylock_surface -> bool)
  (w : world) (p : ptr) (sf : swaylock_surface) (name : string) :
  find_surface p (surfaces (st w)) = Some sf ->
  exists w1 w2 sf2,
    deliver rd (EvOutputName p name) w = Go tt w1
    /\ create_surface p w1 = Go tt w2
    /\ find_surface p (surfaces (st w2)) = Some sf2
    /\ output_name sf2 = Some name
    /\ created sf2 = true
    /\ image sf2 = Images.image_for (Some name) (images (st w)).
Proof.
  intros Fs.
  set (w1 := {| st := set_surfaces
                        (update_surface p (set_output_name name)
                           (surfaces (st w))) (st w);
                next_ptr := next_ptr w;
                log := Recv (EvOutputName p name) :: log w |}).
  assert (F1 : find_surface p (surfaces (st w1))
               = Some (set_output_name name sf)).
  { cbn [w1 st surfaces set_surfaces]. rewrite find_update_same, Fs.
    reflexivity. }
  destruct (create_surface_eq p w1 _ F1) as (acts & _ & E2).
  eexists w1, _, _. split; [|split; [exact E2|split; [|split; [|split]]]].
  - unfold deliver, bind, get, when. cbn [listening]. rewrite Fs.
    reflexivity.
  - cbn [upd st surfaces set_surfaces]. rewrite find_update_same, F1.
    reflexivity.
  - reflexivity.
  - reflexivity.
  - cbn [image set_created]. rewrite ImageFacts.select_image_eq.
    reflexivity.
Qed.

Lemma named_output_gets_its_image_witness :
  exists w1 w2 sf2,
    deliver render_draws (EvOutputName 0%nat "DP-1")
      {| st := set_surfaces [(0%nat, new_surface 5)]
                 (initial_state sample_args
                    [ {| image_output_name := Some "DP-1";
                         image_opaque := true |} ]);
         next_ptr := 1%nat; log := [] |}
    = Go tt w1
    /\ create_surface 0%nat w1 = Go tt w2
    /\ find_surface 0%nat (surfaces (st w2)) = Some sf2
    /\ image sf2
       = Some {| image_output_name := Some "DP-1"; image_opaque := true |}.
Proof.
  destruct (named_output_gets_its_image render_draws
              {| st := set_surfaces [(0%nat, new_surface 5)]
                         (initial_state sample_args
                            [ {| image_output_name := Some "DP-1";
                                 image_opaque := true |} ]);
                 next_ptr := 1%nat; log := [] |}
              0%nat (new_surface 5) "DP-1" eq_refl)
    as (w1 & w2 & sf2 & E1 & E2 & F & _ & _ & I).
  exists w1, w2, sf2. split; [exact E1|]. split; [exact E2|].
  split; [exact F|]. rewrite I. reflexivity.
Defined.
